(** * Git-Backup-Enc: the encrypted-tree transform, embedded and verified

    A shallow embedding of [backup.py] and [restore.py]: key derivation,
    the AES-256-CBC blob codec, the base64url name codec, and the backup
    and restore runs over a model of the file system.

    Python [bytes] are [list byte]; Python [str] is a list of code points;
    exceptions are the [Err] side of [result]; [os.urandom] reads an
    entropy tape; the file system is a finite map from absolute paths
    (component lists) to nodes. *)

From Stdlib Require Import NArith ZArith List Lia Bool.
From Stdlib.Strings Require Import Byte.
From stdpp Require Import base tactics option list gmap strings pretty.
Import ListNotations.

Local Open Scope N_scope.

(** ** Bytes *)

Abbreviation bytes := (list byte).

Definition byte_of_N (n : N) : byte :=
  match Byte.of_N (n mod 256) with Some b => b | None => x00 end.

Definition all_bytes : list byte :=
  Eval vm_compute in map (fun i => byte_of_N (N.of_nat i)) (seq 0 256).

Definition bxor (a b : byte) : byte := byte_of_N (N.lxor (Byte.to_N a) (Byte.to_N b)).

(** [a ^ b] over byte strings, position by position, keeping the length
    of the left operand. *)
Fixpoint xor_bytes (s k : bytes) : bytes :=
  match s, k with
  | x :: s', y :: k' => bxor x y :: xor_bytes s' k'
  | _, _ => s
  end.

Global Instance byte_eq_dec : EqDecision byte.
Proof.
  intros a b. destruct (N.eq_dec (Byte.to_N a) (Byte.to_N b)) as [H|H].
  - left. apply (f_equal Byte.of_N) in H. rewrite !Byte.of_to_N in H. congruence.
  - right. congruence.
Defined.

(** ** Python exceptions and fallible results *)

Inductive exn : Type :=
  | ValueError_InvalidKeySize         (* algorithms.AES: "Invalid key size" *)
  | ValueError_InvalidIVSize          (* Cipher: "Invalid IV size (n) for CBC." *)
  | ValueError_NotBlockMultiple       (* finalize: "The length of the provided data
                                         is not a multiple of the block length." *)
  | ValueError_InvalidPadding         (* unpadder: "Invalid padding bytes." *)
  | ValueError_NotRelative            (* PurePath.relative_to *)
  | binascii_Error                    (* base64 decoding *)
  | UnicodeEncodeError
  | UnicodeDecodeError
  | JSONDecodeError
  | TypeError
  | AttributeError
  | FileNotFoundError
  | FileExistsError
  | NotADirectoryError
  | IsADirectoryError
  | OSError_ENAMETOOLONG              (* OSError, errno 36: "File name too long" *)
  | ValueError_EmbeddedNull           (* "embedded null byte" *)
  | SystemExit (code : nat).

Inductive result (A : Type) : Type :=
  | Ok (a : A)
  | Err (e : exn).
Arguments Ok {A} a.
Arguments Err {A} e.

Definition rbind {A B} (r : result A) (f : A -> result B) : result B :=
  match r with Ok a => f a | Err e => Err e end.

Notation "x <- r ;; k" := (rbind r (fun x => k))
  (at level 100, r at next level, right associativity, only parsing).

(** ** The [cryptography] package: AES (FIPS 197) *)

Module AES.

(** Multiplication in GF(2^8) modulo x^8 + x^4 + x^3 + x + 1. *)
Fixpoint gmul_loop (n : nat) (a b p : N) : N :=
  match n with
  | O => p
  | S n' =>
      let p' := if N.testbit b 0 then N.lxor p a else p in
      let a2 := N.shiftl a 1 in
      let a' := if N.testbit a 7 then N.lxor (N.land a2 255) 27 else a2 in
      gmul_loop n' a' (N.shiftr b 1) p'
  end.

Definition gmul (c : N) (x : byte) : byte :=
  byte_of_N (gmul_loop 8 c (Byte.to_N x) 0).

Definition gpow_254 (x : byte) : byte :=
  let m a b := gmul (Byte.to_N a) b in
  let x2 := m x x in let x4 := m x2 x2 in let x8 := m x4 x4 in
  let x16 := m x8 x8 in let x32 := m x16 x16 in let x64 := m x32 x32 in
  let x128 := m x64 x64 in
  m x128 (m x64 (m x32 (m x16 (m x8 (m x4 x2))))).

Definition rotl8 (n : N) (k : N) : N :=
  N.land (N.lor (N.shiftl n k) (N.shiftr n (8 - k))) 255.

Definition sbox_formula (x : byte) : byte :=
  let b := Byte.to_N (gpow_254 x) in
  byte_of_N (N.lxor b (N.lxor (rotl8 b 1) (N.lxor (rotl8 b 2)
              (N.lxor (rotl8 b 3) (N.lxor (rotl8 b 4) 99))))).

Definition sbox_table : list byte :=
  Eval vm_compute in map sbox_formula all_bytes.

Fixpoint index_of (y : byte) (l : list byte) : N :=
  match l with
  | [] => 0
  | x :: l' => if Byte.eqb x y then 0 else 1 + index_of y l'
  end.

Definition inv_sbox_table : list byte :=
  Eval vm_compute in map (fun y => byte_of_N (index_of y sbox_table)) all_bytes.

Definition sbox (x : byte) : byte := nth (N.to_nat (Byte.to_N x)) sbox_table x00.
Definition inv_sbox (x : byte) : byte := nth (N.to_nat (Byte.to_N x)) inv_sbox_table x00.

Definition SubBytes (s : bytes) : bytes := map sbox s.
Definition InvSubBytes (s : bytes) : bytes := map inv_sbox s.

(** The state is kept in the byte order of the input block, that is
    column by column: byte [r + 4c] is row [r] of column [c]. *)
Definition pick (idx : list nat) (s : bytes) : bytes :=
  map (fun i => nth i s x00) idx.

Definition ShiftRows : bytes -> bytes :=
  pick [0;5;10;15;4;9;14;3;8;13;2;7;12;1;6;11]%nat.
Definition InvShiftRows : bytes -> bytes :=
  pick [0;13;10;7;4;1;14;11;8;5;2;15;12;9;6;3]%nat.

(** A row of a matrix times a column, over GF(2^8). *)
Definition dot (k0 k1 k2 k3 : N) (a0 a1 a2 a3 : byte) : byte :=
  bxor (bxor (gmul k0 a0) (gmul k1 a1)) (bxor (gmul k2 a2) (gmul k3 a3)).

Definition mix_column (a0 a1 a2 a3 : byte) : bytes :=
  [ dot 2 3 1 1 a0 a1 a2 a3; dot 1 2 3 1 a0 a1 a2 a3;
    dot 1 1 2 3 a0 a1 a2 a3; dot 3 1 1 2 a0 a1 a2 a3 ].

Definition inv_mix_column (a0 a1 a2 a3 : byte) : bytes :=
  [ dot 14 11 13 9 a0 a1 a2 a3; dot 9 14 11 13 a0 a1 a2 a3;
    dot 13 9 14 11 a0 a1 a2 a3; dot 11 13 9 14 a0 a1 a2 a3 ].

(** An entry of the product of two matrices, applied to [a]: a row
    [k0..k3] against a column [m0..m3]. *)
Definition entry (k0 k1 k2 k3 m0 m1 m2 m3 : N) (a : byte) : byte :=
  bxor (bxor (gmul k0 (gmul m0 a)) (gmul k1 (gmul m1 a)))
       (bxor (gmul k2 (gmul m2 a)) (gmul k3 (gmul m3 a))).

Fixpoint MixColumns (s : bytes) : bytes :=
  match s with
  | a0 :: a1 :: a2 :: a3 :: rest => mix_column a0 a1 a2 a3 ++ MixColumns rest
  | _ => s
  end.

Fixpoint InvMixColumns (s : bytes) : bytes :=
  match s with
  | a0 :: a1 :: a2 :: a3 :: rest => inv_mix_column a0 a1 a2 a3 ++ InvMixColumns rest
  | _ => s
  end.

Definition AddRoundKey (s rk : bytes) : bytes := xor_bytes s rk.

(** Key expansion. Words are 4-byte lists; [ws] holds the words made so
    far, newest first. *)
Definition RotWord (w : bytes) : bytes :=
  match w with a :: rest => rest ++ [a] | [] => [] end.
Definition SubWord (w : bytes) : bytes := map sbox w.

Fixpoint rcon (j : nat) : byte :=
  match j with
  | O => x8d
  | S j' => gmul 2 (rcon j')
  end.

Fixpoint expand (n : nat) (Nk i : nat) (ws : list bytes) : list bytes :=
  match n with
  | O => ws
  | S n' =>
      let prev := nth 0 ws [] in
      let temp :=
        if Nat.eqb (i mod Nk) 0
        then xor_bytes (SubWord (RotWord prev)) [rcon (i / Nk)]
        else if andb (Nat.ltb 6 Nk) (Nat.eqb (i mod Nk) 4)
             then SubWord prev else prev in
      expand n' Nk (S i) (xor_bytes (nth (Nk - 1) ws []) temp :: ws)
  end.

Fixpoint words (k : bytes) : list bytes :=
  match k with
  | a :: b :: c :: d :: rest => [a; b; c; d] :: words rest
  | _ => []
  end.

Fixpoint group4 (ws : list bytes) : list bytes :=
  match ws with
  | a :: b :: c :: d :: rest => (a ++ b ++ c ++ d) :: group4 rest
  | _ => []
  end.

(** The round keys of [key], one 16-byte block per round, [Nr + 1] in all. *)
Definition KeyExpansion (key : bytes) : list bytes :=
  let Nk := (length key / 4)%nat in
  let Nr := (Nk + 6)%nat in
  group4 (rev (expand (4 * (Nr + 1) - Nk) Nk Nk (rev (words key)))).

Fixpoint rounds (rks : list bytes) (s : bytes) : bytes :=
  match rks with
  | [] => s
  | [rk] => AddRoundKey (ShiftRows (SubBytes s)) rk
  | rk :: rest => rounds rest (AddRoundKey (MixColumns (ShiftRows (SubBytes s))) rk)
  end.

Fixpoint inv_rounds (rks : list bytes) (s : bytes) : bytes :=
  match rks with
  | [] => s
  | [rk] => InvSubBytes (InvShiftRows (AddRoundKey s rk))
  | rk :: rest =>
      InvSubBytes (InvShiftRows (InvMixColumns (AddRoundKey (inv_rounds rest s) rk)))
  end.

Definition Cipher (rks : list bytes) (block : bytes) : bytes :=
  match rks with
  | [] => block
  | rk0 :: rest => rounds rest (AddRoundKey block rk0)
  end.

Definition InvCipher (rks : list bytes) (block : bytes) : bytes :=
  match rks with
  | [] => block
  | rk0 :: rest => AddRoundKey (inv_rounds rest block) rk0
  end.

Definition encrypt_block (key block : bytes) : bytes := Cipher (KeyExpansion key) block.
Definition decrypt_block (key block : bytes) : bytes := InvCipher (KeyExpansion key) block.

End AES.

Definition hex_digit (c : Ascii.ascii) : N :=
  let n := Ascii.N_of_ascii c in
  if n <? 58 then n - 48 else if n <? 71 then n - 55 else n - 87.

(** Byte strings written in hexadecimal, for test vectors. *)
Fixpoint unhex (s : string) : bytes :=
  match s with
  | String a (String b rest) => byte_of_N (16 * hex_digit a + hex_digit b) :: unhex rest
  | _ => []
  end.


Definition ascii_bytes (s : string) : bytes :=
  map (fun a => byte_of_N (Ascii.N_of_ascii a)) (String.list_ascii_of_string s).

(** [l] cut into pieces of [n] elements, the last one possibly shorter. *)
Fixpoint chunks_fuel {A} (fuel n : nat) (l : list A) : list (list A) :=
  match fuel, l with
  | S f, _ :: _ => take n l :: chunks_fuel f n (drop n l)
  | _, _ => []
  end.
Definition chunks {A} (n : nat) (l : list A) : list (list A) :=
  chunks_fuel (length l) n l.

(** ** The [cryptography] package: SHA-256 (FIPS 180-4), HMAC, PBKDF2 *)

Module SHA256.

Definition add32 (a b : N) : N := (a + b) mod 2 ^ 32.
Definition rotr (n x : N) : N :=
  N.lor (N.shiftr x n) (N.shiftl x (32 - n) mod 2 ^ 32).
Definition Ch (x y z : N) : N :=
  N.lxor (N.land x y) (N.land (N.lxor x 0xffffffff) z).
Definition Maj (x y z : N) : N :=
  N.lxor (N.lxor (N.land x y) (N.land x z)) (N.land y z).
Definition Sigma0 x := N.lxor (N.lxor (rotr 2 x) (rotr 13 x)) (rotr 22 x).
Definition Sigma1 x := N.lxor (N.lxor (rotr 6 x) (rotr 11 x)) (rotr 25 x).
Definition sigma0 x := N.lxor (N.lxor (rotr 7 x) (rotr 18 x)) (N.shiftr x 3).
Definition sigma1 x := N.lxor (N.lxor (rotr 17 x) (rotr 19 x)) (N.shiftr x 10).

Record state := State { h0 : N; h1 : N; h2 : N; h3 : N; h4 : N; h5 : N; h6 : N; h7 : N }.

Definition H0 : state :=
  State 0x6a09e667 0xbb67ae85 0x3c6ef372 0xa54ff53a
        0x510e527f 0x9b05688c 0x1f83d9ab 0x5be0cd19.

(** Big-endian integers. *)
Fixpoint be_to_N (bs : bytes) (acc : N) : N :=
  match bs with
  | [] => acc
  | b :: bs' => be_to_N bs' (acc * 256 + Byte.to_N b)
  end.
Fixpoint N_to_be (len : nat) (n : N) : bytes :=
  match len with
  | O => []
  | S len' => N_to_be len' (n / 256) ++ [byte_of_N n]
  end.

(** The round constants, eight words to a row. *)
Definition K : list N :=
  Eval vm_compute in
    map (fun w => be_to_N w 0)
        (chunks 4 (concat (map unhex
           [ "428a2f9871374491b5c0fbcfe9b5dba53956c25b59f111f1923f82a4ab1c5ed5";
             "d807aa9812835b01243185be550c7dc372be5d7480deb1fe9bdc06a7c19bf174";
             "e49b69c1efbe47860fc19dc6240ca1cc2de92c6f4a7484aa5cb0a9dc76f988da";
             "983e5152a831c66db00327c8bf597fc7c6e00bf3d5a7914706ca635114292967";
             "27b70a852e1b21384d2c6dfc53380d13650a7354766a0abb81c2c92e92722c85";
             "a2bfe8a1a81a664bc24b8b70c76c51a3d192e819d6990624f40e3585106aa070";
             "19a4c1161e376c082748774c34b0bcb5391c0cb34ed8aa4a5b9cca4f682e6ff3";
             "748f82ee78a5636f84c878148cc7020890befffaa4506cebbef9a3f7c67178f2" ]))).

(** The message schedule, newest word first. *)
Fixpoint schedule (n : nat) (ws : list N) : list N :=
  match n with
  | O => ws
  | S n' =>
      let w := add32 (add32 (sigma1 (nth 1 ws 0)) (nth 6 ws 0))
                     (add32 (sigma0 (nth 14 ws 0)) (nth 15 ws 0)) in
      schedule n' (w :: ws)
  end.

Definition round (s : state) (kw : N * N) : state :=
  let '(k, w) := kw in
  let t1 := add32 (add32 (add32 (h7 s) (Sigma1 (h4 s))) (Ch (h4 s) (h5 s) (h6 s)))
                  (add32 k w) in
  let t2 := add32 (Sigma0 (h0 s)) (Maj (h0 s) (h1 s) (h2 s)) in
  State (add32 t1 t2) (h0 s) (h1 s) (h2 s) (add32 (h3 s) t1) (h4 s) (h5 s) (h6 s).

Definition compress (s : state) (block : bytes) : state :=
  let w16 := map (fun w => be_to_N w 0) (chunks 4 block) in
  let ws := rev (schedule 48 (rev w16)) in
  let r := fold_left round (combine K ws) s in
  State (add32 (h0 s) (h0 r)) (add32 (h1 s) (h1 r)) (add32 (h2 s) (h2 r))
        (add32 (h3 s) (h3 r)) (add32 (h4 s) (h4 r)) (add32 (h5 s) (h5 r))
        (add32 (h6 s) (h6 r)) (add32 (h7 s) (h7 r)).

Definition pad (msg : bytes) : bytes :=
  let len := length msg in
  let zeros := ((64 - (len + 9) mod 64) mod 64)%nat in
  msg ++ [x80] ++ replicate zeros x00 ++ N_to_be 8 (8 * N.of_nat len).

Definition digest (msg : bytes) : bytes :=
  let s := fold_left compress (chunks 64 (pad msg)) H0 in
  N_to_be 4 (h0 s) ++ N_to_be 4 (h1 s) ++ N_to_be 4 (h2 s) ++ N_to_be 4 (h3 s) ++
  N_to_be 4 (h4 s) ++ N_to_be 4 (h5 s) ++ N_to_be 4 (h6 s) ++ N_to_be 4 (h7 s).

End SHA256.

Definition HMAC_SHA256 (key msg : bytes) : bytes :=
  let k0 := if (64 <? length key)%nat then SHA256.digest key else key in
  let k := k0 ++ replicate (64 - length k0) x00 in
  SHA256.digest (map (bxor x5c) k ++ SHA256.digest (map (bxor x36) k ++ msg)).

(** [PBKDF2HMAC(algorithm=SHA256(), length, salt, iterations).derive(key_material)],
    RFC 8018 section 5.2. *)
Module PBKDF2HMAC.

(** One more iteration: [(U, T)] becomes [(U', T xor U')]. *)
Definition step (P : bytes) (ut : bytes * bytes) : bytes * bytes :=
  let u := HMAC_SHA256 P (fst ut) in (u, xor_bytes (snd ut) u).

Definition F (P S : bytes) (c : N) (i : N) : bytes :=
  let u1 := HMAC_SHA256 P (S ++ SHA256.N_to_be 4 i) in
  snd (N.iter (c - 1) (step P) (u1, u1)).

Definition derive (length : nat) (salt : bytes) (iterations : N)
    (key_material : bytes) : bytes :=
  let l := ((length + 31) / 32)%nat in
  take length
    (concat (map (fun i => F key_material salt iterations (N.of_nat i)) (seq 1 l))).

End PBKDF2HMAC.

(** ** The [cryptography] package: PKCS7 padding and the CBC cipher *)

(** [padding.PKCS7(128)]: [padder.update(data) + padder.finalize()]. *)
Definition PKCS7_pad (data : bytes) : bytes :=
  let n := (16 - length data mod 16)%nat in
  data ++ replicate n (byte_of_N (N.of_nat n)).

(** [unpadder.update(data) + unpadder.finalize()]: all blocks but the last
    are passed through; the last one must be a whole block ending in [v]
    bytes of value [v], with [1 <= v <= 16]. *)
Definition PKCS7_unpad (data : bytes) : result bytes :=
  let len := length data in
  if orb (Nat.eqb len 0) (negb (Nat.eqb (len mod 16) 0)) then Err ValueError_InvalidPadding
  else
    let v := N.to_nat (Byte.to_N (List.last data x00)) in
    if andb (andb (Nat.leb 1 v) (Nat.leb v 16))
            (forallb (fun b => Nat.eqb (N.to_nat (Byte.to_N b)) v) (drop (len - v) data))
    then Ok (take (len - v) data)
    else Err ValueError_InvalidPadding.

(** [Cipher(algorithms.AES(key), modes.CBC(iv))]. *)
Record Cipher := { cipher_key : bytes; cipher_iv : bytes }.

Definition Cipher_AES_CBC (key iv : bytes) : result Cipher :=
  if negb (existsb (Nat.eqb (length key)) [16; 24; 32]%nat) then Err ValueError_InvalidKeySize
  else if negb (Nat.eqb (length iv) 16) then Err ValueError_InvalidIVSize
  else Ok {| cipher_key := key; cipher_iv := iv |}.

Fixpoint cbc_encrypt_blocks (key prev : bytes) (blocks : list bytes) : bytes :=
  match blocks with
  | [] => []
  | p :: rest =>
      let c := AES.encrypt_block key (xor_bytes p prev) in
      c ++ cbc_encrypt_blocks key c rest
  end.

Fixpoint cbc_decrypt_blocks (key prev : bytes) (blocks : list bytes) : bytes :=
  match blocks with
  | [] => []
  | c :: rest => xor_bytes (AES.decrypt_block key c) prev ++ cbc_decrypt_blocks key c rest
  end.

(** [e = cipher.encryptor(); e.update(data) + e.finalize()]. *)
Definition encryptor_run (c : Cipher) (data : bytes) : result bytes :=
  if negb (Nat.eqb (length data mod 16) 0) then Err ValueError_NotBlockMultiple
  else Ok (cbc_encrypt_blocks (cipher_key c) (cipher_iv c) (chunks 16 data)).

(** [d = cipher.decryptor(); d.update(data) + d.finalize()]. *)
Definition decryptor_run (c : Cipher) (data : bytes) : result bytes :=
  if negb (Nat.eqb (length data mod 16) 0) then Err ValueError_NotBlockMultiple
  else Ok (cbc_decrypt_blocks (cipher_key c) (cipher_iv c) (chunks 16 data)).

(** ** Python [str] and the text codecs *)

(** A [str] is its sequence of code points. *)
Abbreviation str := (list N).

Definition str_of_string (s : string) : str :=
  map Ascii.N_of_ascii (String.list_ascii_of_string s).

Definition is_surrogate (c : N) : bool := (0xD800 <=? c) && (c <=? 0xDFFF).

(** The code points that text can carry: Unicode scalar values. *)
Definition is_scalar (c : N) : bool := (c <? 0x110000) && negb (is_surrogate c).

Definition utf8_encode_char (c : N) : result bytes :=
  if c <? 0x80 then Ok [byte_of_N c]
  else if c <? 0x800 then Ok [byte_of_N (0xC0 + c / 64); byte_of_N (0x80 + c mod 64)]
  else if c <? 0x10000 then
    if is_surrogate c then Err UnicodeEncodeError
    else Ok [byte_of_N (0xE0 + c / 4096); byte_of_N (0x80 + (c / 64) mod 64);
             byte_of_N (0x80 + c mod 64)]
  else if c <? 0x110000 then
    Ok [byte_of_N (0xF0 + c / 262144); byte_of_N (0x80 + (c / 4096) mod 64);
        byte_of_N (0x80 + (c / 64) mod 64); byte_of_N (0x80 + c mod 64)]
  else Err UnicodeEncodeError.

(** [s.encode('utf-8')] *)
Fixpoint str_encode_utf8 (s : str) : result bytes :=
  match s with
  | [] => Ok []
  | c :: s' =>
      b <- utf8_encode_char c ;; r <- str_encode_utf8 s' ;; Ok (b ++ r)
  end.

(** The payload of a continuation byte [10xxxxxx]. *)
Definition utf8_cont (b : byte) : option N :=
  let n := Byte.to_N b in
  if (0x80 <=? n) && (n <? 0xC0) then Some (n - 0x80) else None.

(** [b.decode('utf-8')]: strict, shortest form only, no surrogates. *)
Fixpoint bytes_decode_utf8 (bs : bytes) : result str :=
  match bs with
  | [] => Ok []
  | b0 :: r0 =>
      let n0 := Byte.to_N b0 in
      if n0 <? 0x80 then s <- bytes_decode_utf8 r0 ;; Ok (n0 :: s)
      else if n0 <? 0xC2 then Err UnicodeDecodeError
      else if n0 <? 0xE0 then
        match r0 with
        | b1 :: r1 =>
            match utf8_cont b1 with
            | Some c1 => s <- bytes_decode_utf8 r1 ;; Ok ((n0 - 0xC0) * 64 + c1 :: s)
            | None => Err UnicodeDecodeError
            end
        | _ => Err UnicodeDecodeError
        end
      else if n0 <? 0xF0 then
        match r0 with
        | b1 :: b2 :: r2 =>
            match utf8_cont b1, utf8_cont b2 with
            | Some c1, Some c2 =>
                let c := (n0 - 0xE0) * 4096 + c1 * 64 + c2 in
                if (c <? 0x800) || is_surrogate c then Err UnicodeDecodeError
                else s <- bytes_decode_utf8 r2 ;; Ok (c :: s)
            | _, _ => Err UnicodeDecodeError
            end
        | _ => Err UnicodeDecodeError
        end
      else if n0 <? 0xF5 then
        match r0 with
        | b1 :: b2 :: b3 :: r3 =>
            match utf8_cont b1, utf8_cont b2, utf8_cont b3 with
            | Some c1, Some c2, Some c3 =>
                let c := (n0 - 0xF0) * 262144 + c1 * 4096 + c2 * 64 + c3 in
                if (c <? 0x10000) || (0x10FFFF <? c) then Err UnicodeDecodeError
                else s <- bytes_decode_utf8 r3 ;; Ok (c :: s)
            | _, _, _ => Err UnicodeDecodeError
            end
        | _ => Err UnicodeDecodeError
        end
      else Err UnicodeDecodeError
  end.

(** [s.encode('ascii')] *)
Fixpoint str_encode_ascii (s : str) : result bytes :=
  match s with
  | [] => Ok []
  | c :: s' =>
      if c <? 128 then r <- str_encode_ascii s' ;; Ok (byte_of_N c :: r)
      else Err UnicodeEncodeError
  end.

(** [b.decode('ascii')] *)
Fixpoint bytes_decode_ascii (bs : bytes) : result str :=
  match bs with
  | [] => Ok []
  | b :: bs' =>
      if Byte.to_N b <? 128 then r <- bytes_decode_ascii bs' ;; Ok (Byte.to_N b :: r)
      else Err UnicodeDecodeError
  end.

Fixpoint lstrip (c : N) (s : str) : str :=
  match s with
  | x :: s' => if x =? c then lstrip c s' else s
  | [] => []
  end.

(** [s.rstrip(c)] for a one-character argument. *)
Definition rstrip (c : N) (s : str) : str := rev (lstrip c (rev s)).

(** ** The [base64] module, URL-safe alphabet *)

Definition b64_pad : byte := x3d.   (* '=' *)

Definition b64_char (i : N) : byte :=
  byte_of_N (if i <? 26 then 65 + i else if i <? 52 then 71 + i
             else if i <? 62 then i - 4 else if i =? 62 then 45 else 95).

(** [base64.urlsafe_b64encode] *)
Fixpoint urlsafe_b64encode (bs : bytes) : bytes :=
  match bs with
  | [] => []
  | [a] =>
      let n := Byte.to_N a in
      [b64_char (n / 4); b64_char (n mod 4 * 16); b64_pad; b64_pad]
  | [a; b] =>
      let n := Byte.to_N a * 256 + Byte.to_N b in
      [b64_char (n / 1024); b64_char (n / 16 mod 64); b64_char (n mod 16 * 4); b64_pad]
  | a :: b :: c :: rest =>
      let n := Byte.to_N a * 65536 + Byte.to_N b * 256 + Byte.to_N c in
      [b64_char (n / 262144); b64_char (n / 4096 mod 64);
       b64_char (n / 64 mod 64); b64_char (n mod 64)] ++ urlsafe_b64encode rest
  end.

(** The value of a character after the URL-safe translation ('-' to '+',
    '_' to '/'); [None] for a character outside the alphabet. *)
Definition b64_value (c : byte) : option N :=
  let n := Byte.to_N c in
  if (65 <=? n) && (n <=? 90) then Some (n - 65)
  else if (97 <=? n) && (n <=? 122) then Some (n - 71)
  else if (48 <=? n) && (n <=? 57) then Some (n + 4)
  else if (n =? 43) || (n =? 45) then Some 62
  else if (n =? 47) || (n =? 95) then Some 63
  else None.

(** [binascii.a2b_base64] in its default, lenient mode: characters outside
    the alphabet are skipped, and a complete pad sequence ends the parse. *)
Fixpoint a2b_base64 (s : bytes) (quad_pos : nat) (leftchar : N) (pads : nat)
    (out : bytes) : result bytes :=
  match s with
  | [] => if Nat.eqb quad_pos 0 then Ok out else Err binascii_Error
  | c :: rest =>
      if Byte.eqb c b64_pad then
        if Nat.leb 2 quad_pos then
          if Nat.leb 4 (quad_pos + (pads + 1)) then Ok out
          else a2b_base64 rest quad_pos leftchar (pads + 1) out
        else a2b_base64 rest quad_pos leftchar pads out
      else
        match b64_value c with
        | None => a2b_base64 rest quad_pos leftchar pads out
        | Some v =>
            match quad_pos with
            | 0%nat => a2b_base64 rest 1 v 0 out
            | 1%nat => a2b_base64 rest 2 (v mod 16) 0
                         (out ++ [byte_of_N (leftchar * 4 + v / 16)])
            | 2%nat => a2b_base64 rest 3 (v mod 4) 0
                         (out ++ [byte_of_N (leftchar * 16 + v / 4)])
            | _ => a2b_base64 rest 0 0 0 (out ++ [byte_of_N (leftchar * 64 + v)])
            end
        end
  end.

(** [base64.urlsafe_b64decode] *)
Definition urlsafe_b64decode (s : bytes) : result bytes := a2b_base64 s 0 0 0 [].

(** ** The world: file system, entropy, standard output *)

Abbreviation path := (list str).

Inductive node : Type :=
  | File (content : bytes)
  | Dir.

Record world := World {
  fs : gmap path node;        (* absolute path, as its components, to node *)
  entropy : nat -> byte;      (* what the system's random source will deliver *)
  consumed : nat;             (* how much of it has been read *)
  stdout : list str           (* the lines printed so far *)
}.

(** Computations that read and change the world and may raise. *)
Definition M (A : Type) : Type := world -> result A * world.

Definition ret {A} (a : A) : M A := fun w => (Ok a, w).
Definition raise {A} (e : exn) : M A := fun w => (Err e, w).
Definition lift {A} (r : result A) : M A := fun w => (r, w).
Definition bind {A B} (m : M A) (f : A -> M B) : M B :=
  fun w => match m w with
           | (Ok a, w') => f a w'
           | (Err e, w') => (Err e, w')
           end.

Notation "x <~ m ;; k" := (bind m (fun x => k))
  (at level 100, m at next level, right associativity, only parsing).
Notation "m ;;; k" := (bind m (fun _ => k))
  (at level 100, right associativity, only parsing).

(** [os.urandom(n)] *)
Definition os_urandom (n : nat) : M bytes :=
  fun w => (Ok (map (entropy w) (seq (consumed w) n)),
            World (fs w) (entropy w) (consumed w + n) (stdout w)).

Definition print (line : str) : M unit :=
  fun w => (Ok tt, World (fs w) (entropy w) (consumed w) (stdout w ++ [line])).

(** ** [class BackupEncryptor] (backup.py) *)

Definition salt : bytes := ascii_bytes "Git-Backup-Enc-Salt-v1".

Module BackupEncryptor.

Record t := { key : bytes }.

Definition __init__ (password : str) : result t :=
  pw <- str_encode_utf8 password ;;
  Ok {| key := PBKDF2HMAC.derive 32 salt 100000 pw |}.

Definition encrypt_data (self : t) (data : bytes) : M bytes :=
  iv <~ os_urandom 16 ;;
  cipher <~ lift (Cipher_AES_CBC (key self) iv) ;;
  let padded_data := PKCS7_pad data in
  encrypted <~ lift (encryptor_run cipher padded_data) ;;
  ret (iv ++ encrypted).

Definition encrypt_filename (self : t) (filename : str) : M str :=
  name <~ lift (str_encode_utf8 filename) ;;
  encrypted <~ encrypt_data self name ;;
  text <~ lift (bytes_decode_ascii (urlsafe_b64encode encrypted)) ;;
  ret (rstrip 61 text).

End BackupEncryptor.

(** ** [class BackupDecryptor] (restore.py) *)

Module BackupDecryptor.

Record t := { key : bytes }.

Definition __init__ (password : str) : result t :=
  pw <- str_encode_utf8 password ;;
  Ok {| key := PBKDF2HMAC.derive 32 salt 100000 pw |}.

Definition decrypt_data (self : t) (encrypted_data : bytes) : result bytes :=
  let iv := take 16 encrypted_data in
  let encrypted := drop 16 encrypted_data in
  cipher <- Cipher_AES_CBC (key self) iv ;;
  padded_data <- decryptor_run cipher encrypted ;;
  PKCS7_unpad padded_data.

Definition decrypt_filename (self : t) (encrypted_filename : str) : result str :=
  let padding_needed := ((4 - length encrypted_filename mod 4) mod 4)%nat in
  let encrypted_filename := encrypted_filename ++ replicate padding_needed 61 in
  ascii <- str_encode_ascii encrypted_filename ;;
  encrypted_data <- urlsafe_b64decode ascii ;;
  decrypted <- decrypt_data self encrypted_data ;;
  bytes_decode_utf8 decrypted.

End BackupDecryptor.

(** ** The spec's error taxonomy, read on the exceptions the code raises

    The code defines no exception classes of its own: what the spec calls
    [MalformedBlobError] and [PaddingError] are the [ValueError]s that the
    [cryptography] package raises at three different places, each with
    its own message. *)
Definition MalformedBlobError (e : exn) : Prop :=
  e = ValueError_InvalidIVSize \/ e = ValueError_NotBlockMultiple.
Definition PaddingError (e : exn) : Prop := e = ValueError_InvalidPadding.

(** The bytes that [os.urandom(n)] delivers in world [w]. *)
Definition next_random (w : world) (n : nat) : bytes :=
  map (entropy w) (seq (consumed w) n).

Definition consume (w : world) (n : nat) : world :=
  World (fs w) (entropy w) (consumed w + n) (stdout w).

(** What [encrypt_data] computes from the initialization vector. *)
Definition ciphertext (key iv data : bytes) : bytes :=
  cbc_encrypt_blocks key iv (chunks 16 (PKCS7_pad data)).

(** The URL-safe base64 alphabet: [A-Z], [a-z], [0-9], [-] and [_]. *)
Definition is_urlsafe_char (c : N) : bool :=
  ((65 <=? c) && (c <=? 90)) || ((97 <=? c) && (c <=? 122))
  || ((48 <=? c) && (c <=? 57)) || (c =? 45) || (c =? 95).

(** The text of a byte string of ASCII characters. *)
Definition ascii_text (bs : bytes) : str := map Byte.to_N bs.

(** What [encrypt_filename] computes from the initialization vector. *)
Definition encrypted_name (key iv name : bytes) : str :=
  rstrip 61 (ascii_text (urlsafe_b64encode (iv ++ ciphertext key iv name))).

(** ** Paths ([pathlib]) *)

Definition str_of_nat (n : nat) : str := str_of_string (pretty n).

(** [s.split('/')]; [cur] holds the current piece, reversed. *)
Fixpoint split_slash (s cur : str) : list str :=
  match s with
  | [] => [rev cur]
  | c :: s' => if c =? 47 then rev cur :: split_slash s' [] else split_slash s' (c :: cur)
  end.

Fixpoint join_slash (parts : list str) : str :=
  match parts with
  | [] => []
  | [p] => p
  | p :: rest => p ++ [47] ++ join_slash rest
  end.

(** A pure path: whether it is anchored at the root, and its components
    below the root. *)
Record PurePath := { absolute : bool; parts : list str }.

Definition keep_part (c : str) : bool :=
  negb (bool_decide (c = []) || bool_decide (c = [46])).

(** [PurePosixPath(s)]: empty components and [.] are dropped. *)
Definition PurePath_of_str (s : str) : PurePath :=
  {| absolute := match s with c :: _ => c =? 47 | [] => false end;
     parts := List.filter keep_part (split_slash s []) |}.

(** [a / b] *)
Definition joinpath (a b : PurePath) : PurePath :=
  if absolute b then b
  else {| absolute := absolute a; parts := parts a ++ parts b |}.

(** [Path] applied to several arguments *)
Definition Path_of_parts (args : list str) : PurePath :=
  fold_left (fun p a => joinpath p (PurePath_of_str a)) args
            {| absolute := false; parts := [] |}.

(** [str(p)] *)
Definition PurePath_str (p : PurePath) : str :=
  if absolute p then [47] ++ join_slash (parts p)
  else match parts p with [] => [46] | _ => join_slash (parts p) end.

(** An absolute path of the file system. *)
Definition Path_abs (p : path) : PurePath := {| absolute := true; parts := p |}.

(** [p.relative_to(base)], both absolute. *)
Fixpoint strip_base (p base : path) : result path :=
  match base, p with
  | [], _ => Ok p
  | b :: base', x :: p' =>
      if bool_decide (b = x) then strip_base p' base' else Err ValueError_NotRelative
  | _ :: _, [] => Err ValueError_NotRelative
  end.

Definition relative_to (p base : path) : result PurePath :=
  rel <- strip_base p base ;; Ok {| absolute := false; parts := rel |}.

(** ** The file system

    Files and directories only; no links, no permissions. The root [[]]
    is a directory and is not stored. Two layers: what lies at a
    location, a path of entry names from the root down; and the calls of
    the program, which take a path name that the system resolves to a
    location first, [..] and the limits on names included. *)

(** *** Names *)

(** A name that [pathlib] keeps as one component of a path: it is not
    empty, it is not [.] and it has no [/]. *)
Definition plain_name (c : str) : bool :=
  keep_part c && forallb (fun x => negb (x =? 47)) c.

Definition dotdot : str := [46; 46].

(** The limits of Linux on a name and on a path name with its final
    zero byte. *)
Definition NAME_MAX : nat := 255.
Definition PATH_MAX : nat := 4096.

(** [os.fsencode]: UTF-8 with [surrogateescape], which turns the code
    points U+DC80 to U+DCFF into one byte each and refuses the other
    surrogates. *)
Definition is_escape (c : N) : bool := (0xDC80 <=? c) && (c <=? 0xDCFF).

Definition fs_encodable (c : N) : bool :=
  (c <? 0x110000) && (negb (is_surrogate c) || is_escape c).

Definition char_len (c : N) : nat :=
  if c <? 0x80 then 1
  else if c <? 0x800 then 2
  else if c <? 0x10000 then (if is_escape c then 1 else 3)
  else 4.

(** The length in bytes of a name, and of the path name [/c1/.../cn]. *)
Definition name_len (c : str) : nat := list_sum (map char_len c).

Definition path_len (p : path) : nat :=
  match p with [] => 1%nat | _ => list_sum (map (fun c => S (name_len c)) p) end.

(** The name of an entry: one component, not [..], that can be encoded
    without a zero byte in at most [NAME_MAX] bytes. *)
Definition proper_name (c : str) : bool :=
  plain_name c
  && negb (bool_decide (c = dotdot))
  && forallb fs_encodable c
  && negb (existsb (N.eqb 0) c)
  && Nat.leb (name_len c) NAME_MAX.

(** A path of entry names that the system takes as a path name. *)
Definition path_ok (p : path) : bool :=
  forallb proper_name p && Nat.ltb (path_len p) PATH_MAX.

(** *** Locations *)

(** The node at a location. *)
Definition node_at (m : gmap path node) (p : path) : option node :=
  match p with [] => Some Dir | _ => m !! p end.

(** Every component of [comps], taken below [cur], is a directory. *)
Fixpoint dirs_along (m : gmap path node) (cur : path) (comps : list str) : result unit :=
  match comps with
  | [] => Ok tt
  | c :: rest =>
      match m !! (cur ++ [c]) with
      | Some Dir => dirs_along m (cur ++ [c]) rest
      | Some (File _) => Err NotADirectoryError
      | None => Err FileNotFoundError
      end
  end.

(** The location [p] lies below directories. *)
Definition traverse (m : gmap path node) (p : path) : result unit :=
  dirs_along m [] (removelast p).

(** There is an entry at the location [p]. *)
Definition path_exists (m : gmap path node) (p : path) : bool :=
  match traverse m p, node_at m p with
  | Ok _, Some _ => true
  | _, _ => false
  end.

(** There is a directory at the location [p]. *)
Definition path_is_dir (m : gmap path node) (p : path) : bool :=
  match traverse m p, node_at m p with
  | Ok _, Some Dir => true
  | _, _ => false
  end.

(** The contents of the file at the location [p]. *)
Definition read_at (m : gmap path node) (p : path) : result bytes :=
  _ <- traverse m p ;;
  match node_at m p with
  | Some (File c) => Ok c
  | Some Dir => Err IsADirectoryError
  | None => Err FileNotFoundError
  end.

(** A file with contents [data] is put at the location [p]. *)
Definition write_at (m : gmap path node) (p : path) (data : bytes)
    : result (gmap path node) :=
  _ <- traverse m p ;;
  match node_at m p with
  | Some Dir => Err IsADirectoryError
  | _ => Ok (<[p := File data]> m)
  end.

(** Going down from [cur], missing directories are made, and a file in
    the way is an error. *)
Fixpoint mkdir_at (m : gmap path node) (cur : path) (comps : list str)
    : result (gmap path node) :=
  match comps with
  | [] => Ok m
  | c :: rest =>
      match m !! (cur ++ [c]) with
      | Some Dir => mkdir_at m (cur ++ [c]) rest
      | Some (File _) =>
          Err (match rest with [] => FileExistsError | _ => NotADirectoryError end)
      | None => mkdir_at (<[cur ++ [c] := Dir]> m) (cur ++ [c]) rest
      end
  end.

Definition mkdirs_at (m : gmap path node) (p : path) : result (gmap path node) :=
  mkdir_at m [] p.

(** The entries directly below [p]. *)
Definition children (m : gmap path node) (p : path) : list path :=
  List.filter (fun q => bool_decide (q <> [] /\ removelast q = p)) (map_to_list m).*1.

Definition iterdir_at (m : gmap path node) (p : path) : result (list path) :=
  _ <- traverse m p ;;
  match node_at m p with
  | Some Dir => Ok (children m p)
  | Some (File _) => Err NotADirectoryError
  | None => Err FileNotFoundError
  end.

(** The directory at [p] goes, with everything below it. *)
Definition rmtree_at (m : gmap path node) (p : path) : result (gmap path node) :=
  if path_is_dir m p then Ok (filter (fun kv => ~ p `prefix_of` kv.1) m)
  else if path_exists m p then Err NotADirectoryError else Err FileNotFoundError.

(** The file at [p] goes. *)
Definition unlink_at (m : gmap path node) (p : path) : result (gmap path node) :=
  _ <- traverse m p ;;
  match node_at m p with
  | Some (File _) => Ok (delete p m)
  | Some Dir => Err IsADirectoryError
  | None => Err FileNotFoundError
  end.

(** Every entry has a proper name, lies in a directory, and has a path
    name that the system takes. *)
Definition wf_fs (m : gmap path node) : Prop :=
  forall p, is_Some (m !! p) ->
    p <> [] /\ node_at m (removelast p) = Some Dir /\ path_ok p = true.

(** *** Path names: what the calls of the program do *)

(** What every call does with its path name first: the name is encoded
    ([UnicodeEncodeError] for a surrogate that is no escape), must hold
    no zero byte ([ValueError]) and must fit [PATH_MAX]
    ([OSError], [ENAMETOOLONG]). *)
Definition check_path (p : path) : result unit :=
  if negb (forallb (forallb fs_encodable) p) then Err UnicodeEncodeError
  else if existsb (existsb (N.eqb 0)) p then Err ValueError_EmbeddedNull
  else if Nat.leb PATH_MAX (path_len p) then Err OSError_ENAMETOOLONG
  else Ok tt.

(** The walk of the system through the directories [comps] from the
    directory at [cur]: [..] leads to the parent directory (at the
    root, to the root), a name over [NAME_MAX] is refused, any other
    name must be that of a directory. The location reached is
    returned. *)
Fixpoint walk_dirs (m : gmap path node) (cur : path) (comps : list str) : result path :=
  match comps with
  | [] => Ok cur
  | c :: rest =>
      if bool_decide (c = dotdot) then walk_dirs m (removelast cur) rest
      else if Nat.ltb NAME_MAX (name_len c) then Err OSError_ENAMETOOLONG
      else
        match m !! (cur ++ [c]) with
        | Some Dir => walk_dirs m (cur ++ [c]) rest
        | Some (File _) => Err NotADirectoryError
        | None => Err FileNotFoundError
        end
  end.

(** The location that the path name [p] resolves to; there need not be
    an entry at it. *)
Definition locate (m : gmap path node) (p : path) : result path :=
  _ <- check_path p ;;
  dir <- walk_dirs m [] (removelast p) ;;
  match last p with
  | None => Ok []
  | Some c =>
      if bool_decide (c = dotdot) then Ok (removelast dir)
      else if Nat.ltb NAME_MAX (name_len c) then Err OSError_ENAMETOOLONG
      else Ok (dir ++ [c])
  end.

(** [os.stat(p)] *)
Definition stat (m : gmap path node) (p : path) : result node :=
  q <- locate m p ;;
  match node_at m q with
  | Some n => Ok n
  | None => Err FileNotFoundError
  end.

(** The errors of [stat] that [Path.exists] and [Path.is_dir] take for
    an answer: [ENOENT], [ENOTDIR], and [ValueError] with its subclass
    [UnicodeEncodeError]. *)
Definition ignored_error (e : exn) : bool :=
  match e with
  | FileNotFoundError | NotADirectoryError | UnicodeEncodeError | ValueError_EmbeddedNull => true
  | _ => false
  end.

(** [p.exists()] *)
Definition Path_exists (m : gmap path node) (p : path) : result bool :=
  match stat m p with
  | Ok _ => Ok true
  | Err e => if ignored_error e then Ok false else Err e
  end.

(** [p.is_dir()] *)
Definition Path_is_dir (m : gmap path node) (p : path) : result bool :=
  match stat m p with
  | Ok Dir => Ok true
  | Ok (File _) => Ok false
  | Err e => if ignored_error e then Ok false else Err e
  end.

(** [open(p, 'rb').read()] *)
Definition read_bytes (m : gmap path node) (p : path) : result bytes :=
  n <- stat m p ;;
  match n with
  | File c => Ok c
  | Dir => Err IsADirectoryError
  end.

(** [open(p, 'wb').write(data)] *)
Definition write_bytes (m : gmap path node) (p : path) (data : bytes)
    : result (gmap path node) :=
  q <- locate m p ;;
  match node_at m q with
  | Some Dir => Err IsADirectoryError
  | _ => Ok (<[q := File data]> m)
  end.

(** [os.makedirs(p, exist_ok=True)]: going down the path name from
    [cur], with [len] bytes of it behind, each directory that is
    missing is made by a call of its own. The directories made stay
    when a later one fails. *)
Fixpoint mkdir_from (m : gmap path node) (cur : path) (len : nat) (comps : list str)
    : result unit * gmap path node :=
  match comps with
  | [] => (Ok tt, m)
  | c :: rest =>
      let len' := (len + S (name_len c))%nat in
      if negb (forallb fs_encodable c) then (Err UnicodeEncodeError, m)
      else if existsb (N.eqb 0) c then (Err ValueError_EmbeddedNull, m)
      else if Nat.leb PATH_MAX len' then (Err OSError_ENAMETOOLONG, m)
      else if bool_decide (c = dotdot) then mkdir_from m (removelast cur) len' rest
      else if Nat.ltb NAME_MAX (name_len c) then (Err OSError_ENAMETOOLONG, m)
      else
        match m !! (cur ++ [c]) with
        | Some Dir => mkdir_from m (cur ++ [c]) len' rest
        | Some (File _) =>
            (Err (match rest with [] => FileExistsError | _ => NotADirectoryError end), m)
        | None => mkdir_from (<[cur ++ [c] := Dir]> m) (cur ++ [c]) len' rest
        end
  end.

Definition makedirs (m : gmap path node) (p : path) : result unit * gmap path node :=
  mkdir_from m [] 0 p.

(** [p.mkdir(parents=True, exist_ok=True)]: the first call is for [p]
    itself, so that a path name that the system does not take fails
    before any directory is made. *)
Definition mkdir_parents (m : gmap path node) (p : path) : result unit * gmap path node :=
  match check_path p with
  | Err e => (Err e, m)
  | Ok _ => mkdir_from m [] 0 p
  end.

(** [list(p.iterdir())]: the entries of the directory, each as [p] with
    the name of the entry. *)
Definition iterdir (m : gmap path node) (p : path) : result (list path) :=
  q <- locate m p ;;
  match node_at m q with
  | Some Dir => Ok (map (fun k => p ++ drop (length q) k) (children m q))
  | Some (File _) => Err NotADirectoryError
  | None => Err FileNotFoundError
  end.

(** [shutil.rmtree(p)] *)
Definition rmtree (m : gmap path node) (p : path) : result (gmap path node) :=
  q <- locate m p ;; rmtree_at m q.

(** [p.unlink()] *)
Definition unlink (m : gmap path node) (p : path) : result (gmap path node) :=
  q <- locate m p ;; unlink_at m q.

(** File system operations as computations. *)
Definition with_fs {A} (f : gmap path node -> result A) : M A :=
  fun w => (f (fs w), w).

Definition update_fs (f : gmap path node -> result (gmap path node)) : M unit :=
  fun w => match f (fs w) with
           | Ok m' => (Ok tt, World m' (entropy w) (consumed w) (stdout w))
           | Err e => (Err e, w)
           end.

(** An operation whose changes stay when it fails. *)
Definition modify_fs (f : gmap path node -> result unit * gmap path node) : M unit :=
  fun w => let (r, m') := f (fs w) in (r, World m' (entropy w) (consumed w) (stdout w)).

Fixpoint mapM {A B} (f : A -> M B) (l : list A) : M (list B) :=
  match l with
  | [] => ret []
  | a :: l' => b <~ f a ;; bs <~ mapM f l' ;; ret (b :: bs)
  end.

(** ** Python [dict], insertion-ordered *)

Fixpoint dict_set {V} (k : str) (v : V) (d : list (str * V)) : list (str * V) :=
  match d with
  | [] => [(k, v)]
  | (k', v') :: d' =>
      if bool_decide (k' = k) then (k', v) :: d' else (k', v') :: dict_set k v d'
  end.

(** ** The [json] module *)

#[warnings="-register-all"]
Inductive json : Type :=
  | JNull
  | JBool (b : bool)
  | JNumber (lexeme : str)
  | JString (s : str)
  | JArray (items : list json)
  | JObject (members : list (str * json)).

Definition hex_char (d : N) : N := if d <? 10 then 48 + d else 87 + d.

Definition hex4 (n : N) : str :=
  [hex_char (n / 4096 mod 16); hex_char (n / 256 mod 16);
   hex_char (n / 16 mod 16); hex_char (n mod 16)].

(** One character of a string, as [json.dumps] writes it ([ensure_ascii]). *)
Definition json_escape (c : N) : str :=
  if c =? 34 then [92; 34] else if c =? 92 then [92; 92]
  else if c =? 10 then [92; 110] else if c =? 13 then [92; 114]
  else if c =? 9 then [92; 116] else if c =? 8 then [92; 98]
  else if c =? 12 then [92; 102]
  else if (32 <=? c) && (c <=? 126) then [c]
  else if c <? 0x10000 then [92; 117] ++ hex4 c
  else let v := c - 0x10000 in
       [92; 117] ++ hex4 (0xd800 + v / 1024) ++ [92; 117] ++ hex4 (0xdc00 + v mod 1024).

Definition json_string (s : str) : str := [34] ++ concat (map json_escape s) ++ [34].

Definition json_member (kv : str * str) : str :=
  [32; 32] ++ json_string kv.1 ++ [58; 32] ++ json_string kv.2.

Fixpoint join_members (ms : list str) : str :=
  match ms with
  | [] => []
  | [m] => m
  | m :: rest => m ++ [44; 10] ++ join_members rest
  end.

(** [json.dumps(d, indent=2)] for a dict of [str] to [str]. *)
Definition json_dumps (d : list (str * str)) : str :=
  match d with
  | [] => [123; 125]
  | _ => [123; 10] ++ join_members (map json_member d) ++ [10; 125]
  end.

Definition is_ws (c : N) : bool := (c =? 32) || (c =? 9) || (c =? 10) || (c =? 13).
Definition is_digit (c : N) : bool := (48 <=? c) && (c <=? 57).

Fixpoint skip_ws (s : str) : str :=
  match s with
  | c :: s' => if is_ws c then skip_ws s' else s
  | [] => []
  end.

Definition hex_value (c : N) : option N :=
  if is_digit c then Some (c - 48)
  else if (97 <=? c) && (c <=? 102) then Some (c - 87)
  else if (65 <=? c) && (c <=? 70) then Some (c - 55)
  else None.

Definition parse_hex4 (s : str) : option (N * str) :=
  match s with
  | a :: b :: c :: d :: rest =>
      match hex_value a, hex_value b, hex_value c, hex_value d with
      | Some x, Some y, Some z, Some t => Some (x * 4096 + y * 256 + z * 16 + t, rest)
      | _, _, _, _ => None
      end
  | _ => None
  end.

Definition simple_escape (e : N) : option N :=
  if (e =? 34) || (e =? 92) || (e =? 47) then Some e
  else if e =? 98 then Some 8 else if e =? 102 then Some 12
  else if e =? 110 then Some 10 else if e =? 114 then Some 13
  else if e =? 116 then Some 9 else None.

(** The text of a string, from just after its opening quote; [acc] holds
    the characters read so far, reversed. *)
Fixpoint scanstring (fuel : nat) (s acc : str) : result (str * str) :=
  match fuel, s with
  | S f, c :: s1 =>
      if c =? 34 then Ok (rev acc, s1)
      else if c =? 92 then
        match s1 with
        | [] => Err JSONDecodeError
        | e :: s2 =>
            if e =? 117 then
              match parse_hex4 s2 with
              | None => Err JSONDecodeError
              | Some (u, s3) =>
                  if (0xd800 <=? u) && (u <=? 0xdbff) then
                    match s3 with
                    | b :: u' :: s4 =>
                        if (b =? 92) && (u' =? 117) then
                          match parse_hex4 s4 with
                          | None => Err JSONDecodeError
                          | Some (u2, s5) =>
                              if (0xdc00 <=? u2) && (u2 <=? 0xdfff)
                              then scanstring f s5
                                     (0x10000 + (u - 0xd800) * 1024 + (u2 - 0xdc00) :: acc)
                              else scanstring f s3 (u :: acc)
                          end
                        else scanstring f s3 (u :: acc)
                    | _ => scanstring f s3 (u :: acc)
                    end
                  else scanstring f s3 (u :: acc)
              end
            else
              match simple_escape e with
              | Some x => scanstring f s2 (x :: acc)
              | None => Err JSONDecodeError
              end
        end
      else if c <? 32 then Err JSONDecodeError
      else scanstring f s1 (c :: acc)
  | _, _ => Err JSONDecodeError
  end.

Fixpoint span_digits (s : str) : str * str :=
  match s with
  | c :: s' => if is_digit c then let '(d, r) := span_digits s' in (c :: d, r) else ([], s)
  | [] => ([], [])
  end.

(** A number at the start of [s]: its lexeme and what follows. *)
Definition scan_number (s : str) : option (str * str) :=
  let '(sign, s0) := match s with
                     | c :: s' => if c =? 45 then ([45], s') else ([], s)
                     | [] => ([], s)
                     end in
  match s0 with
  | c :: s1 =>
      if is_digit c then
        let '(int, r1) := if c =? 48 then ([48], s1)
                          else let '(d, r) := span_digits s1 in (c :: d, r) in
        let '(frac, r2) :=
          match r1 with
          | dot :: r =>
              if dot =? 46 then
                match span_digits r with
                | ([], _) => ([], r1)
                | (d, r') => (46 :: d, r')
                end
              else ([], r1)
          | [] => ([], r1)
          end in
        let '(exp, r3) :=
          match r2 with
          | e :: r =>
              if (e =? 101) || (e =? 69) then
                let '(sg, r') := match r with
                                 | c' :: r'' =>
                                     if (c' =? 43) || (c' =? 45) then ([c'], r'') else ([], r)
                                 | [] => ([], r)
                                 end in
                match span_digits r' with
                | ([], _) => ([], r2)
                | (d, r'') => (e :: sg ++ d, r'')
                end
              else ([], r2)
          | [] => ([], r2)
          end in
        Some (sign ++ int ++ frac ++ exp, r3)
      else None
  | [] => None
  end.

Fixpoint strip_literal (lit s : str) : option str :=
  match lit, s with
  | [], _ => Some s
  | a :: lit', b :: s' => if a =? b then strip_literal lit' s' else None
  | _ :: _, [] => None
  end.

Definition scan_literal (s : str) : option (json * str) :=
  match strip_literal (str_of_string "null") s with
  | Some r => Some (JNull, r)
  | None =>
  match strip_literal (str_of_string "true") s with
  | Some r => Some (JBool true, r)
  | None =>
  match strip_literal (str_of_string "false") s with
  | Some r => Some (JBool false, r)
  | None =>
  match strip_literal (str_of_string "-Infinity") s with
  | Some r => Some (JNumber (str_of_string "-Infinity"), r)
  | None =>
  match scan_number s with
  | Some (lexeme, r) => Some (JNumber lexeme, r)
  | None =>
  match strip_literal (str_of_string "NaN") s with
  | Some r => Some (JNumber (str_of_string "NaN"), r)
  | None =>
  match strip_literal (str_of_string "Infinity") s with
  | Some r => Some (JNumber (str_of_string "Infinity"), r)
  | None => None
  end end end end end end end.

(** The scanner: a value at the start of [s], and what follows it. *)
Fixpoint parse_value (fuel : nat) (s : str) : result (json * str) :=
  match fuel, s with
  | S f, c :: s1 =>
      if c =? 34 then
        kr <- scanstring fuel s1 [] ;; Ok (JString kr.1, kr.2)
      else if c =? 123 then
        match skip_ws s1 with
        | c' :: s2 =>
            if c' =? 125 then Ok (JObject [], s2)
            else parse_members f (skip_ws s1) []
        | [] => Err JSONDecodeError
        end
      else if c =? 91 then
        match skip_ws s1 with
        | c' :: s2 =>
            if c' =? 93 then Ok (JArray [], s2)
            else parse_items f (skip_ws s1) []
        | [] => Err JSONDecodeError
        end
      else match scan_literal s with
           | Some vr => Ok vr
           | None => Err JSONDecodeError
           end
  | _, _ => Err JSONDecodeError
  end
with parse_members (fuel : nat) (s : str) (acc : list (str * json)) : result (json * str) :=
  match fuel, s with
  | S f, q :: s1 =>
      if q =? 34 then
        kr <- scanstring fuel s1 [] ;;
        match skip_ws kr.2 with
        | colon :: s3 =>
            if colon =? 58 then
              vr <- parse_value f (skip_ws s3) ;;
              let acc' := dict_set kr.1 vr.1 acc in
              match skip_ws vr.2 with
              | c :: s5 =>
                  if c =? 125 then Ok (JObject acc', s5)
                  else if c =? 44 then parse_members f (skip_ws s5) acc'
                  else Err JSONDecodeError
              | [] => Err JSONDecodeError
              end
            else Err JSONDecodeError
        | [] => Err JSONDecodeError
        end
      else Err JSONDecodeError
  | _, _ => Err JSONDecodeError
  end
with parse_items (fuel : nat) (s : str) (acc : list json) : result (json * str) :=
  match fuel with
  | S f =>
      vr <- parse_value f s ;;
      match skip_ws vr.2 with
      | c :: s2 =>
          if c =? 93 then Ok (JArray (acc ++ [vr.1]), s2)
          else if c =? 44 then parse_items f (skip_ws s2) (acc ++ [vr.1])
          else Err JSONDecodeError
      | [] => Err JSONDecodeError
      end
  | O => Err JSONDecodeError
  end.

(** [json.loads(s)] *)
Definition json_loads (s : str) : result json :=
  match s with
  | 0xFEFF :: _ => Err JSONDecodeError
  | _ =>
      vr <- parse_value (S (length s)) (skip_ws s) ;;
      match skip_ws vr.2 with
      | [] => Ok vr.1
      | _ :: _ => Err JSONDecodeError
      end
  end.

(** [len(v)] and [v.items()] on what [json.loads] returns. *)
Definition py_len (v : json) : result nat :=
  match v with
  | JObject l => Ok (length l)
  | JArray l => Ok (length l)
  | JString s => Ok (length s)
  | _ => Err TypeError
  end.

Definition py_items (v : json) : result (list (str * json)) :=
  match v with
  | JObject l => Ok l
  | _ => Err AttributeError
  end.

(** ** The backup and restore runs *)

(** The configuration as [load_config] returns it, with the directories
    resolved to absolute paths. *)
Record config := {
  password : str;
  source_dir : path;
  backup_dir : path;
  restore_dir : path
}.

Definition banner : str := replicate 60 61.
Definition dot_git : str := str_of_string ".git".
Definition mapping_enc : str := str_of_string "mapping.enc".

(** [BackupEncryptor.encrypt_file] *)
Definition encrypt_file (self : BackupEncryptor.t) (input_path output_path : path) : M unit :=
  data <~ with_fs (fun m => read_bytes m input_path) ;;
  encrypted <~ BackupEncryptor.encrypt_data self data ;;
  update_fs (fun m => write_bytes m output_path encrypted).

(** [BackupDecryptor.decrypt_file] *)
Definition decrypt_file (self : BackupDecryptor.t) (input_path output_path : path) : M unit :=
  encrypted_data <~ with_fs (fun m => read_bytes m input_path) ;;
  decrypted <~ lift (BackupDecryptor.decrypt_data self encrypted_data) ;;
  modify_fs (fun m => makedirs m (removelast output_path)) ;;;
  update_fs (fun m => write_bytes m output_path decrypted).

(** The loop that clears the backup directory: every entry but [.git]
    is removed, a directory with all that is below it. *)
Fixpoint clear_items (items : list path) : M unit :=
  match items with
  | [] => ret tt
  | item :: rest =>
      (if bool_decide (last item <> Some dot_git) then
         is_dir <~ with_fs (fun m => Path_is_dir m item) ;;
         if is_dir then update_fs (fun m => rmtree m item)
         else update_fs (fun m => unlink m item)
       else ret tt) ;;;
      clear_items rest
  end.

Definition clear_backup_directory (backup_path : path) : M unit :=
  items <~ with_fs (fun m => iterdir m backup_path) ;;
  clear_items items.

(** The loop over the selected files. *)
Fixpoint process_files (encryptor : BackupEncryptor.t) (backup_path source_dir : path)
    (files : list path) (mapping : list (str * str)) : M (list (str * str)) :=
  match files with
  | [] => ret mapping
  | file_path :: rest =>
      rel_path <~ lift (relative_to file_path source_dir) ;;
      encrypted_parts <~ mapM (BackupEncryptor.encrypt_filename encryptor) (parts rel_path) ;;
      let encrypted_rel_path := Path_of_parts encrypted_parts in
      let encrypted_full_path := joinpath (Path_abs backup_path) encrypted_rel_path in
      modify_fs (fun m => mkdir_parents m (removelast (parts encrypted_full_path))) ;;;
      encrypt_file encryptor file_path (parts encrypted_full_path) ;;;
      let mapping :=
        dict_set (PurePath_str encrypted_rel_path) (PurePath_str rel_path) mapping in
      print (str_of_string "  Encrypted: " ++ PurePath_str rel_path) ;;;
      process_files encryptor backup_path source_dir rest mapping
  end.

(** Saving the mapping: the file is opened, then the text is encrypted
    and written. *)
Definition save_mapping (encryptor : BackupEncryptor.t) (backup_path : path)
    (mapping : list (str * str)) : M unit :=
  let mapping_json := json_dumps mapping in
  let mapping_encrypted_path := backup_path ++ [mapping_enc] in
  update_fs (fun m => write_bytes m mapping_encrypted_path []) ;;;
  data <~ lift (str_encode_utf8 mapping_json) ;;
  blob <~ BackupEncryptor.encrypt_data encryptor data ;;
  update_fs (fun m => write_bytes m mapping_encrypted_path blob).

(** The loop over the entries of the mapping; returns [restored_count]. *)
Fixpoint restore_files (decryptor : BackupDecryptor.t) (backup_path restore_path : path)
    (items : list (str * json)) (restored_count : nat) : M nat :=
  match items with
  | [] => ret restored_count
  | (encrypted_rel_path, original_rel_path) :: rest =>
      let encrypted_full_path :=
        joinpath (Path_abs backup_path) (PurePath_of_str encrypted_rel_path) in
      original <~ lift (match original_rel_path with
                        | JString s => Ok s
                        | _ => Err TypeError
                        end) ;;
      let restore_full_path := joinpath (Path_abs restore_path) (PurePath_of_str original) in
      found <~ with_fs (fun m => Path_exists m (parts encrypted_full_path)) ;;
      if negb found then
        print (str_of_string "  Warning: Encrypted file not found: " ++ encrypted_rel_path) ;;;
        restore_files decryptor backup_path restore_path rest restored_count
      else
        decrypt_file decryptor (parts encrypted_full_path) (parts restore_full_path) ;;;
        print (str_of_string "  Restored: " ++ original) ;;;
        restore_files decryptor backup_path restore_path rest (S restored_count)
  end.

Section Runs.

(** The collaborators that the spec leaves out: the selection of files
    ([FileListReader.get_matching_files], which walks the source
    directory and matches with [pathspec]; the set it returns is taken
    in the order of iteration) and the calls into GitPython. *)
Variable get_matching_files : config -> gmap path node -> result (list path).
Variable Repo_open : path -> M unit.          (* [Repo(backup_dir)] *)
Variable Repo_init : path -> M unit.          (* [Repo.init], [create_remote] *)
Variable Repo_commit_and_push : path -> M unit.
Variable clone_or_pull : config -> M unit.

(** [GitBackup.init_repo] *)
Definition init_repo (backup_dir : path) : M unit :=
  has_dir <~ with_fs (fun m => Path_exists m backup_dir) ;;
  has_git <~ (if has_dir then with_fs (fun m => Path_exists m (backup_dir ++ [dot_git]))
              else ret false) ;;
  if has_dir && has_git then
    Repo_open backup_dir ;;;
    print (str_of_string "Using existing repository at "
           ++ PurePath_str (Path_abs backup_dir))
  else
    modify_fs (fun m => mkdir_parents m backup_dir) ;;;
    Repo_init backup_dir ;;;
    print (str_of_string "Initialized new repository at "
           ++ PurePath_str (Path_abs backup_dir)).

(** What [backup] does once the files are selected and found to be
    some: the repository and the clearing ([backup_files]), then the
    loop, the mapping and the commit ([transform_and_commit]). *)
Definition transform_and_commit (cfg : config) (encryptor : BackupEncryptor.t)
    (matching_files : list path) : M unit :=
  let mapping := [] in
  let backup_path := backup_dir cfg in
  print (10 :: str_of_string "Encrypting and copying files...") ;;;
  mapping <~ process_files encryptor backup_path (source_dir cfg) matching_files mapping ;;
  save_mapping encryptor backup_path mapping ;;;
  print (10 :: str_of_string "Backup completed: " ++ str_of_nat (length matching_files)
         ++ str_of_string " files encrypted") ;;;
  print (10 :: str_of_string "Committing to git...") ;;;
  Repo_commit_and_push backup_path ;;;
  print (10 :: banner) ;;;
  print (str_of_string "Backup process completed successfully!") ;;;
  print banner.

Definition backup_files (cfg : config) (encryptor : BackupEncryptor.t)
    (matching_files : list path) : M unit :=
  init_repo (backup_dir cfg) ;;;
  clear_backup_directory (backup_dir cfg) ;;;
  transform_and_commit cfg encryptor matching_files.

(** [backup] *)
Definition backup (cfg : config) : M unit :=
  print banner ;;;
  print (str_of_string "Git-Backup-Enc: Starting backup process") ;;;
  print banner ;;;
  encryptor <~ lift (BackupEncryptor.__init__ (password cfg)) ;;
  print (10 :: str_of_string "Scanning for files to backup...") ;;;
  matching_files <~ with_fs (get_matching_files cfg) ;;
  print (str_of_string "Found " ++ str_of_nat (length matching_files)
         ++ str_of_string " files to backup") ;;;
  match matching_files with
  | [] => print (str_of_string "No files found to backup. Exiting.")
  | _ :: _ => backup_files cfg encryptor matching_files
  end.

(** What [restore] does once the mirror is in place: the mapping is
    read and decrypted, then the entries are restored. *)
Definition restore_mirror (cfg : config) (decryptor : BackupDecryptor.t) : M unit :=
  let restore_path := restore_dir cfg in
  let backup_path := backup_dir cfg in
  let mapping_encrypted_path := backup_path ++ [mapping_enc] in
  found <~ with_fs (fun m => Path_exists m mapping_encrypted_path) ;;
  if negb found then
    print (str_of_string "Error: Mapping file not found in backup directory") ;;;
    raise (SystemExit 1)
  else
    print (10 :: str_of_string "Reading file mapping...") ;;;
    encrypted_mapping <~ with_fs (fun m => read_bytes m mapping_encrypted_path) ;;
    mapping_bytes <~ lift (BackupDecryptor.decrypt_data decryptor encrypted_mapping) ;;
    mapping_json <~ lift (bytes_decode_utf8 mapping_bytes) ;;
    mapping <~ lift (json_loads mapping_json) ;;
    n <~ lift (py_len mapping) ;;
    print (str_of_string "Found " ++ str_of_nat n ++ str_of_string " files to restore") ;;;
    modify_fs (fun m => mkdir_parents m restore_path) ;;;
    print (10 :: str_of_string "Decrypting and restoring files...") ;;;
    items <~ lift (py_items mapping) ;;
    restored_count <~ restore_files decryptor backup_path restore_path items 0 ;;
    print (10 :: str_of_string "Restore completed: " ++ str_of_nat restored_count
           ++ str_of_string " files decrypted and restored") ;;;
    print (str_of_string "Files restored to: " ++ PurePath_str (Path_abs restore_path)) ;;;
    print (10 :: banner) ;;;
    print (str_of_string "Restore process completed successfully!") ;;;
    print banner.

(** [restore]; [cfg] already has the restore directory given on the
    command line, when there is one. *)
Definition restore (cfg : config) : M unit :=
  print banner ;;;
  print (str_of_string "Git-Backup-Enc: Starting restore process") ;;;
  print banner ;;;
  decryptor <~ lift (BackupDecryptor.__init__ (password cfg)) ;;
  print (10 :: str_of_string "Syncing with git repository...") ;;;
  clone_or_pull cfg ;;;
  restore_mirror cfg decryptor.

End Runs.

(** The world after some more lines have been printed. *)
Definition printed (w : world) (lines : list str) : world :=
  World (fs w) (entropy w) (consumed w) (stdout w ++ lines).

(** The world with another file system. *)
Definition with_files (w : world) (m : gmap path node) : world :=
  World m (entropy w) (consumed w) (stdout w).

(** ** Conditions under which a mapping can be restored

    Executable conditions on a mapping entry in a given file system; the
    theorems on [restore] take them as hypotheses. *)

Definition entry_src (b : path) (k : str) : path :=
  parts (joinpath (Path_abs b) (PurePath_of_str k)).
Definition entry_dst (r : path) (s : str) : path :=
  parts (joinpath (Path_abs r) (PurePath_of_str s)).

(** [t] can be written once its directories are made: no file lies on
    the way to it, it is not itself a directory, and it is a path of
    entry names that the system takes. *)
Definition writable (m : gmap path node) (t : path) : bool :=
  forallb (fun k => match m !! take k t with Some (File _) => false | _ => true end)
          (seq 0 (length t))
  && match m !! t with Some Dir => false | _ => true end
  && negb (bool_decide (t = []))
  && path_ok t.

(** The encrypted file of the entry is there. *)
Definition present (b : path) (m : gmap path node) (kv : str * json) : bool :=
  path_exists m (entry_src b kv.1).

(** The plaintext of the entry: what its encrypted file decrypts to. *)
Definition plaintext (d : BackupDecryptor.t) (b : path) (m : gmap path node)
    (kv : str * json) : result bytes :=
  blob <- read_at m (entry_src b kv.1) ;; BackupDecryptor.decrypt_data d blob.

(** The entry names a relative path in the mirror and a relative,
    non-empty path in the destination, outside the mirror, that can be
    written; if its encrypted file is there, it decrypts; and the path
    of its encrypted file is one of entry names that the system takes
    (no [..], no name over [NAME_MAX]). *)
Definition restorable (d : BackupDecryptor.t) (b r : path) (m : gmap path node)
    (kv : str * json) : bool :=
  match kv.2 with
  | JString s =>
      negb (absolute (PurePath_of_str kv.1))
      && negb (absolute (PurePath_of_str s))
      && negb (bool_decide (parts (PurePath_of_str s) = []))
      && negb (bool_decide (b `prefix_of` entry_dst r s))
      && writable m (entry_dst r s)
      && (if present b m kv
          then match plaintext d b m kv with Ok _ => true | Err _ => false end
          else true)
      && path_ok (entry_src b kv.1)
  | _ => false
  end.

(** No path of the list is a prefix of another one. *)
Fixpoint incomparable (ps : list path) : bool :=
  match ps with
  | [] => true
  | p :: rest =>
      forallb (fun q => negb (bool_decide (p `prefix_of` q))
                        && negb (bool_decide (q `prefix_of` p))) rest
      && incomparable rest
  end.

Definition entry_dsts (r : path) (items : list (str * json)) : list path :=
  map (fun kv => match kv.2 with JString s => entry_dst r s | _ => [] end) items.

(** The line that [restore] prints for an entry. *)
Definition restore_line (b : path) (m : gmap path node) (kv : str * json) : str :=
  if present b m kv
  then str_of_string "  Restored: " ++ match kv.2 with JString s => s | _ => [] end
  else str_of_string "  Warning: Encrypted file not found: " ++ kv.1.

(** [m'] has the entries of [m] on the mirror root [b], below it and on
    the way to it. *)
Definition same_mirror (b : path) (m m' : gmap path node) : Prop :=
  forall q, b `prefix_of` q \/ q `prefix_of` b -> m' !! q = m !! q.

(** [m'] is [m] with some missing directories made along [p]. *)
Definition dirs_added (m m' : gmap path node) (p : path) : Prop :=
  (forall q, q = [] \/ ~ q `prefix_of` p -> m' !! q = m !! q)
  /\ (forall q, q `prefix_of` p ->
                m' !! q = m !! q \/ (m !! q = None /\ m' !! q = Some Dir)).

(** ** Clearing the mirror *)

(** [q] is one of [items] or lies below one, and that one is not named
    [.git]: what the clearing loop over [items] removes. *)
Definition removed_by (items : list path) (q : path) : bool :=
  existsb (fun item => bool_decide (last item <> Some dot_git)
                       && bool_decide (item `prefix_of` q)) items.

(** [q] lies in the mirror [b], at or below an entry of [b] other than
    [.git]. *)
Definition cleared (b q : path) : bool :=
  bool_decide (b `prefix_of` q)
  && match drop (length b) q with
     | [] => false
     | x :: _ => bool_decide (x <> dot_git)
     end.

(** ** The shape of the mirror *)

(** A name as [encrypt_filename] makes them: not empty, of characters of
    the URL-safe base64 alphabet. *)
Definition urlsafe_name (a : str) : bool :=
  negb (bool_decide (a = [])) && forallb is_urlsafe_char a.

(** [enc] decrypts, component by component, to [rel]. *)
Definition decrypts_to (d : BackupDecryptor.t) (enc rel : path) : Prop :=
  Forall2 (fun a c => BackupDecryptor.decrypt_filename d a = Ok c) enc rel.

(** The length of the encrypted name of a name of [n] bytes. *)
Definition enc_len (n : nat) : nat := (((32 + 16 * (n / 16)) * 4 + 2) / 3)%nat.

(** The length of [/c1/.../cn], the root apart. *)
Definition names_len (p : path) : nat := list_sum (map (fun c => S (name_len c)) p).

(** The encrypted path of [rel] in the mirror [b] is one that the
    system takes: no encrypted name is over [NAME_MAX] (the names of
    [rel] have less than 160 bytes), and the path name fits
    [PATH_MAX]. *)
Definition enc_path_ok (b rel : path) : bool :=
  forallb (fun c => Nat.leb (enc_len (name_len c)) NAME_MAX) rel
  && Nat.ltb (names_len b + list_sum (map (fun c => S (enc_len (name_len c))) rel)) PATH_MAX.

(** The file at [rel] below the source directory can be backed up: it
    has a name, its components can be encoded, it is there, at a path
    of entry names, it does not lie in the mirror, and its encrypted
    path in the mirror is one that the system takes. *)
Definition selectable (src b : path) (m : gmap path node) (rel : path) : bool :=
  negb (bool_decide (rel = []))
  && forallb (fun c => forallb is_scalar c) rel
  && match read_at m (src ++ rel) with Ok _ => true | Err _ => false end
  && negb (bool_decide (b `prefix_of` src ++ rel))
  && path_ok (src ++ rel)
  && enc_path_ok b rel.

(** The files of the mirror [b], [.git] and what is below it apart. *)
Definition mirror_files (b : path) (m : gmap path node) : list path :=
  List.filter (fun q => cleared b q
                        && match m !! q with Some (File _) => true | _ => false end)
              (map_to_list m).*1.

(** The mirror [b], [.git] apart, holds files at [encs] below [b],
    directories on the way to them, and nothing else. *)
Definition mirror_of (b : path) (m : gmap path node) (encs : list path) : Prop :=
  forall q, cleared b q = true ->
    match m !! q with
    | Some (File _) => exists enc, In enc encs /\ q = b ++ enc
    | Some Dir => exists enc, In enc encs /\ q `prefix_of` b ++ enc /\ q <> b ++ enc
    | None => forall enc, In enc encs -> ~ q `prefix_of` b ++ enc
    end.

(** The mapping of the encrypted relative paths [encs] to the relative
    paths [rels], in order. *)
Definition mapping_of (encs rels : list path) : list (str * str) :=
  zip (map join_slash encs) (map join_slash rels).

(** ** Reading the mapping *)

(** What [restore] makes of the mapping artifact: it is decrypted, the
    bytes are decoded and the text is parsed. *)
Definition read_mapping (decryptor : BackupDecryptor.t) (encrypted_mapping : bytes)
    : result json :=
  mapping_bytes <- BackupDecryptor.decrypt_data decryptor encrypted_mapping ;;
  mapping_json <- bytes_decode_utf8 mapping_bytes ;;
  json_loads mapping_json.

(** ** Deciding the conditions on a file system *)

(** [wf_fs], checked on the entries. *)
Definition wf_fsb (m : gmap path node) : bool :=
  forallb (fun p => negb (bool_decide (p = []))
                    && match node_at m (removelast p) with
                       | Some Dir => true
                       | _ => false
                       end
                    && path_ok p)
          (map_to_list m).*1.

(** The mirror [b] holds nothing but [.git] and what is below it. *)
Definition mirror_clearedb (b : path) (m : gmap path node) : bool :=
  forallb (fun p => negb (cleared b p)) (map_to_list m).*1.

(** ** A sample: a source directory, a mirror, two keys *)

Definition sample_path (l : list string) : path := map str_of_string l.

(** The source directory [/home] with two files, and the mirror
    [/mirror] with a repository and nothing else. *)
Definition sample_fs : gmap path node :=
  list_to_map
    [ (sample_path ["home"], Dir);
      (sample_path ["home"; "notes"], Dir);
      (sample_path ["home"; "notes"; "todo.txt"], File (ascii_bytes "buy milk"));
      (sample_path ["home"; "readme"], File (ascii_bytes "hello"));
      (sample_path ["mirror"], Dir);
      (sample_path ["mirror"; ".git"], Dir);
      (sample_path ["mirror"; ".git"; "HEAD"], File (ascii_bytes "ref: refs/heads/main")) ].

(** The same, with what an earlier run left in the mirror. *)
Definition sample_fs_stale : gmap path node :=
  <[sample_path ["mirror"; "mapping.enc"] := File (ascii_bytes "old mapping")]>
    (<[sample_path ["mirror"; "b2xk"; "ZmlsZQ"] := File (ascii_bytes "old file")]>
       (<[sample_path ["mirror"; "b2xk"] := Dir]> sample_fs)).

(** What the random source will deliver. *)
Definition sample_entropy (i : nat) : byte := byte_of_N (N.of_nat (7 * i + 48)).

Definition sample_world : world := World sample_fs sample_entropy 0 [].
Definition sample_world_stale : world := World sample_fs_stale sample_entropy 0 [].

Definition sample_cfg : config :=
  {| password := str_of_string "correct";
     source_dir := sample_path ["home"];
     backup_dir := sample_path ["mirror"];
     restore_dir := sample_path ["restored"] |}.

(** The selected files, relative to the source directory. *)
Definition sample_rels : list path :=
  [sample_path ["notes"; "todo.txt"]; sample_path ["readme"]].

(** Two keys of 32 bytes: the PBKDF2-HMAC-SHA256 keys (salt
    [Git-Backup-Enc-Salt-v1], 100000 iterations) of the passphrases
    [correct] and [wrong], as [hashlib.pbkdf2_hmac] computes them; the
    100000 iterations are not run here. *)
Definition key_correct : bytes :=
  unhex "2398e2300343c439e5e2312645808eec0c50da682d698f4491e3d99c78c3bc80".
Definition key_wrong : bytes :=
  unhex "d7fdad22d2ad6187b54aac585f1c8d4d48c40725050a7b3f90e7cabfaa3e36c0".

Definition sample_encryptor : BackupEncryptor.t := {| BackupEncryptor.key := key_correct |}.
Definition sample_decryptor : BackupDecryptor.t := {| BackupDecryptor.key := key_correct |}.
Definition wrong_decryptor : BackupDecryptor.t := {| BackupDecryptor.key := key_wrong |}.

(** Git calls that do nothing. *)
Definition git_noop : path -> M unit := fun _ => ret tt.

(** The sample backup: the transformation of the two files into the
    cleared mirror, under the first key. *)
Definition sample_backup : result unit * world :=
  transform_and_commit git_noop sample_cfg sample_encryptor
    (map (app (source_dir sample_cfg)) sample_rels) sample_world.

(** The file system after the sample backup, entry by entry. *)
Definition sample_mirror_entries : list (path * node) :=
  Eval vm_compute in map_to_list (fs (snd sample_backup)).

Definition sample_mirror_fs : gmap path node := list_to_map sample_mirror_entries.

(** The encrypted name of [readme] in the sample backup. *)
Definition sample_readme_name : str :=
  str_of_string "gIeOlZyjqrG4v8bN1Nvi6cVkh335g58DaO7CbSMjAU8".

(** The mirror of the sample backup without the encrypted [readme]. *)
Definition sample_partial_fs : gmap path node :=
  delete (sample_path ["mirror"] ++ [sample_readme_name]) sample_mirror_fs.

(** The world after the sample backup, and the same with the encrypted
    [readme] missing. *)
Definition sample_mirror_world : world := World sample_mirror_fs sample_entropy 0 [].
Definition sample_partial_world : world := World sample_partial_fs sample_entropy 0 [].

(** A configuration with the other passphrase. *)
Definition wrong_cfg : config :=
  {| password := str_of_string "wrong";
     source_dir := sample_path ["home"];
     backup_dir := sample_path ["mirror"];
     restore_dir := sample_path ["restored"] |}.

(** A git sync that does nothing. *)
Definition sync_noop : config -> M unit := fun _ => ret tt.

(** ** Reading a dictionary back *)

(** What reading the members [d] of a dictionary adds to the members
    [acc] read so far. *)
Definition members_read (d : list (str * str)) (acc : list (str * json))
    : list (str * json) :=
  fold_left (fun a kv => dict_set kv.1 (JString kv.2) a) d acc.

(** ** More of the sample *)

(** A selection that returns the sample files, whatever the patterns. *)
Definition sample_select : config -> gmap path node -> result (list path) :=
  fun cfg _ => Ok (map (app (source_dir cfg)) sample_rels).

(** A name that cannot be encoded: a lone surrogate, as the file system
    gives it for a byte that is not UTF-8. *)
Definition sample_bad_name : str := [0xDC80].

(** A selection with a file of that name after [readme]. *)
Definition sample_select_bad : config -> gmap path node -> result (list path) :=
  fun cfg _ =>
    Ok (map (app (source_dir cfg)) ([sample_path ["readme"]] ++ [sample_bad_name] :: [])).

(** An entry of a mapping for the file that an earlier run left. *)
Definition sample_stale_entry : str * json :=
  (str_of_string "b2xk/ZmlsZQ", JString (str_of_string "file")).

Ltac Zify.zify_post_hook ::= Z.to_euclidean_division_equations.

(** * Proofs *)

(** ** Test vectors of the primitives *)

Example aes256_fips197_c3 :
  AES.encrypt_block (unhex "000102030405060708090a0b0c0d0e0f101112131415161718191a1b1c1d1e1f")
                    (unhex "00112233445566778899aabbccddeeff")
  = unhex "8ea2b7ca516745bfeafc49904b496089".
Proof. vm_compute. reflexivity. Qed.

Example aes256_fips197_c3_inv :
  AES.decrypt_block (unhex "000102030405060708090a0b0c0d0e0f101112131415161718191a1b1c1d1e1f")
                    (unhex "8ea2b7ca516745bfeafc49904b496089")
  = unhex "00112233445566778899aabbccddeeff".
Proof. vm_compute. reflexivity. Qed.

(** ** Bytes and exclusive or *)

Lemma byte_of_to_N (b : byte) : byte_of_N (Byte.to_N b) = b.
Proof.
  unfold byte_of_N. pose proof (Byte.to_N_bounded b).
  rewrite N.mod_small by lia. by rewrite Byte.of_to_N.
Qed.

Lemma to_N_byte_of_N (n : N) : Byte.to_N (byte_of_N n) = n mod 256.
Proof.
  unfold byte_of_N. destruct (Byte.of_N (n mod 256)) as [b|] eqn:E.
  - by apply Byte.to_of_N.
  - apply Byte.of_N_None_iff in E. pose proof (N.mod_lt n 256). lia.
Qed.

Lemma to_N_inj (a b : byte) : Byte.to_N a = Byte.to_N b -> a = b.
Proof. intros H. rewrite <- (byte_of_to_N a), <- (byte_of_to_N b). by rewrite H. Qed.

Lemma elem_all_bytes (b : byte) : In b all_bytes.
Proof.
  change all_bytes with (map (fun i => byte_of_N (N.of_nat i)) (seq 0 256)).
  apply in_map_iff. exists (N.to_nat (Byte.to_N b)). split.
  - rewrite N2Nat.id. apply byte_of_to_N.
  - apply in_seq. pose proof (Byte.to_N_bounded b). lia.
Qed.

Lemma byte_forall (P : byte -> bool) :
  forallb P all_bytes = true -> forall b, P b = true.
Proof. intros H b. rewrite forallb_forall in H. apply H, elem_all_bytes. Qed.

Lemma mod256_lxor (u v : N) : N.lxor u v mod 256 = N.lxor (u mod 256) (v mod 256).
Proof.
  change 256 with (2 ^ 8). apply N.bits_inj. intros i.
  rewrite N.lxor_spec. destruct (N.lt_ge_cases i 8) as [Hi|Hi].
  - rewrite !N.mod_pow2_bits_low by done. apply N.lxor_spec.
  - by rewrite !N.mod_pow2_bits_high.
Qed.

Lemma to_N_bxor a b : Byte.to_N (bxor a b) = N.lxor (Byte.to_N a) (Byte.to_N b).
Proof.
  unfold bxor. rewrite to_N_byte_of_N, mod256_lxor.
  pose proof (Byte.to_N_bounded a). pose proof (Byte.to_N_bounded b).
  by rewrite !N.mod_small by lia.
Qed.

Lemma byte_of_N_lxor (u v : N) : byte_of_N (N.lxor u v) = bxor (byte_of_N u) (byte_of_N v).
Proof.
  apply to_N_inj. by rewrite to_N_bxor, !to_N_byte_of_N, mod256_lxor.
Qed.

Lemma bxor_cancel (x y : byte) : bxor (bxor x y) y = x.
Proof.
  apply to_N_inj. rewrite !to_N_bxor, N.lxor_assoc, N.lxor_nilpotent. apply N.lxor_0_r.
Qed.

Lemma bxor_x00_r (x : byte) : bxor x x00 = x.
Proof. apply to_N_inj. rewrite to_N_bxor. apply N.lxor_0_r. Qed.

Lemma bxor_x00_l (x : byte) : bxor x00 x = x.
Proof. apply to_N_inj. rewrite to_N_bxor. apply N.lxor_0_l. Qed.

(** The medial law of [bxor]. *)
Lemma bxor_medial (a b c d : byte) :
  bxor (bxor a b) (bxor c d) = bxor (bxor a c) (bxor b d).
Proof.
  apply to_N_inj. rewrite !to_N_bxor.
  rewrite <- !N.lxor_assoc. f_equal.
  rewrite !N.lxor_assoc. f_equal. apply N.lxor_comm.
Qed.

Lemma xor_bytes_cancel (s k : bytes) : xor_bytes (xor_bytes s k) k = s.
Proof.
  revert k. induction s as [|x s IH]; intros [|y k]; simpl; try reflexivity.
  by rewrite bxor_cancel, IH.
Qed.

Lemma length_xor_bytes (s k : bytes) : length (xor_bytes s k) = length s.
Proof. revert k. induction s as [|x s IH]; intros [|y k]; simpl; auto. Qed.

Module AESFacts.
Import AES.

Lemma inv_sbox_sbox (b : byte) : inv_sbox (sbox b) = b.
Proof.
  apply Byte.byte_dec_bl. revert b.
  apply (byte_forall (fun b => Byte.eqb (inv_sbox (sbox b)) b)).
  vm_compute. reflexivity.
Qed.

Lemma InvSubBytes_SubBytes (s : bytes) : InvSubBytes (SubBytes s) = s.
Proof.
  unfold InvSubBytes, SubBytes. rewrite map_map.
  induction s as [|b s IH]; simpl; [done|]. by rewrite inv_sbox_sbox, IH.
Qed.

Ltac block16 s H :=
  do 16 (destruct s as [|? s]; [discriminate H|]);
  destruct s; [clear H | discriminate H].

Lemma InvShiftRows_ShiftRows (s : bytes) :
  length s = 16%nat -> InvShiftRows (ShiftRows s) = s.
Proof. intros H. block16 s H. reflexivity. Qed.

(** [gmul c] is additive: the loop accumulates shifted copies of [c]. *)
Lemma gmul_loop_lxor n : forall a b1 b2 p1 p2,
  gmul_loop n a (N.lxor b1 b2) (N.lxor p1 p2)
  = N.lxor (gmul_loop n a b1 p1) (gmul_loop n a b2 p2).
Proof.
  induction n as [|n IH]; intros a b1 b2 p1 p2; simpl; [done|].
  rewrite N.shiftr_lxor, N.lxor_spec.
  destruct (N.testbit b1 0), (N.testbit b2 0); simpl; rewrite <- IH; f_equal.
  - rewrite (N.lxor_comm p2 a), N.lxor_assoc, <- (N.lxor_assoc a a).
    by rewrite N.lxor_nilpotent, N.lxor_0_l.
  - rewrite !N.lxor_assoc. f_equal. apply N.lxor_comm.
  - by rewrite N.lxor_assoc.
Qed.

Lemma gmul_bxor (c : N) (a b : byte) :
  gmul c (bxor a b) = bxor (gmul c a) (gmul c b).
Proof.
  unfold gmul. rewrite to_N_bxor, <- byte_of_N_lxor.
  f_equal. rewrite <- gmul_loop_lxor. reflexivity.
Qed.

Lemma gmul_x4 c p q r s :
  gmul c (bxor (bxor p q) (bxor r s))
  = bxor (bxor (gmul c p) (gmul c q)) (bxor (gmul c r) (gmul c s)).
Proof. by rewrite !gmul_bxor. Qed.

(** A 4 by 4 sum taken by rows equals the sum taken by columns. *)
Lemma bxor_transpose (t00 t01 t02 t03 t10 t11 t12 t13
                      t20 t21 t22 t23 t30 t31 t32 t33 : byte) :
  let S p q r s := bxor (bxor p q) (bxor r s) in
  S (S t00 t01 t02 t03) (S t10 t11 t12 t13) (S t20 t21 t22 t23) (S t30 t31 t32 t33)
  = S (S t00 t10 t20 t30) (S t01 t11 t21 t31) (S t02 t12 t22 t32) (S t03 t13 t23 t33).
Proof.
  cbv beta zeta.
  rewrite (bxor_medial (bxor t00 t01)), (bxor_medial t00), (bxor_medial t02).
  rewrite (bxor_medial (bxor t20 t21)), (bxor_medial t20), (bxor_medial t22).
  rewrite (bxor_medial (bxor (bxor t00 t10) (bxor t01 t11))).
  rewrite (bxor_medial (bxor t00 t10)), (bxor_medial (bxor t02 t12)).
  reflexivity.
Qed.

Lemma entry_eq k0 k1 k2 k3 m0 m1 m2 m3 (f : byte -> byte) :
  forallb (fun a => Byte.eqb (entry k0 k1 k2 k3 m0 m1 m2 m3 a) (f a)) all_bytes = true ->
  forall a, entry k0 k1 k2 k3 m0 m1 m2 m3 a = f a.
Proof. intros H a. apply Byte.byte_dec_bl. revert a. by apply byte_forall. Qed.

Lemma dot_mix_column k0 k1 k2 k3 a0 a1 a2 a3 :
  dot k0 k1 k2 k3 (dot 2 3 1 1 a0 a1 a2 a3) (dot 1 2 3 1 a0 a1 a2 a3)
                  (dot 1 1 2 3 a0 a1 a2 a3) (dot 3 1 1 2 a0 a1 a2 a3)
  = bxor (bxor (entry k0 k1 k2 k3 2 1 1 3 a0) (entry k0 k1 k2 k3 3 2 1 1 a1))
         (bxor (entry k0 k1 k2 k3 1 3 2 1 a2) (entry k0 k1 k2 k3 1 1 3 2 a3)).
Proof. unfold dot, entry. rewrite !gmul_x4. apply bxor_transpose. Qed.

Ltac entries :=
  repeat match goal with
    | |- context [entry ?k0 ?k1 ?k2 ?k3 ?m0 ?m1 ?m2 ?m3 ?a] =>
        first [ rewrite (entry_eq k0 k1 k2 k3 m0 m1 m2 m3 (fun x => x))
                  by (vm_compute; reflexivity)
              | rewrite (entry_eq k0 k1 k2 k3 m0 m1 m2 m3 (fun _ => x00))
                  by (vm_compute; reflexivity) ]
    end.

Lemma inv_mix_column_mix_column a0 a1 a2 a3 :
  inv_mix_column (dot 2 3 1 1 a0 a1 a2 a3) (dot 1 2 3 1 a0 a1 a2 a3)
                 (dot 1 1 2 3 a0 a1 a2 a3) (dot 3 1 1 2 a0 a1 a2 a3)
  = [a0; a1; a2; a3].
Proof.
  unfold inv_mix_column. rewrite !dot_mix_column. entries.
  by rewrite !bxor_x00_r, !bxor_x00_l.
Qed.

Lemma InvMixColumns_MixColumns (s : bytes) :
  length s = 16%nat -> InvMixColumns (MixColumns s) = s.
Proof.
  intros H. block16 s H.
  cbn [MixColumns]. unfold mix_column. cbn [app InvMixColumns].
  by rewrite !inv_mix_column_mix_column.
Qed.

Lemma length_ShiftRows s : length (ShiftRows s) = 16%nat.
Proof. reflexivity. Qed.

Lemma length_MixColumns s : length s = 16%nat -> length (MixColumns s) = 16%nat.
Proof. intros H. block16 s H. reflexivity. Qed.

Lemma length_SubBytes s : length (SubBytes s) = length s.
Proof. apply length_map. Qed.

Lemma length_rounds rks : forall s, length s = 16%nat -> length (rounds rks s) = 16%nat.
Proof.
  induction rks as [|rk [|rk' rest] IH]; intros s H; [done| |].
  - cbn [rounds]. unfold AddRoundKey. by rewrite length_xor_bytes.
  - change (rounds (rk :: rk' :: rest) s)
      with (rounds (rk' :: rest) (AddRoundKey (MixColumns (ShiftRows (SubBytes s))) rk)).
    apply IH. unfold AddRoundKey. rewrite length_xor_bytes. by apply length_MixColumns.
Qed.

Lemma inv_rounds_rounds rks : forall s,
  length s = 16%nat -> inv_rounds rks (rounds rks s) = s.
Proof.
  induction rks as [|rk [|rk' rest] IH]; intros s H; [done| |].
  - cbn [rounds inv_rounds]. unfold AddRoundKey. rewrite xor_bytes_cancel.
    rewrite InvShiftRows_ShiftRows by (by rewrite length_SubBytes).
    apply InvSubBytes_SubBytes.
  - change (rounds (rk :: rk' :: rest) s)
      with (rounds (rk' :: rest) (AddRoundKey (MixColumns (ShiftRows (SubBytes s))) rk)).
    change (inv_rounds (rk :: rk' :: rest) ?x)
      with (InvSubBytes (InvShiftRows (InvMixColumns (AddRoundKey (inv_rounds (rk' :: rest) x) rk)))).
    rewrite IH.
    + unfold AddRoundKey. rewrite xor_bytes_cancel.
      rewrite InvMixColumns_MixColumns by done.
      rewrite InvShiftRows_ShiftRows by (by rewrite length_SubBytes).
      apply InvSubBytes_SubBytes.
    + unfold AddRoundKey. rewrite length_xor_bytes. by apply length_MixColumns.
Qed.

Lemma length_Cipher rks s : length s = 16%nat -> length (Cipher rks s) = 16%nat.
Proof.
  intros H. destruct rks as [|rk0 rest]; [done|]. cbn [Cipher].
  apply length_rounds. unfold AddRoundKey. by rewrite length_xor_bytes.
Qed.

Lemma InvCipher_Cipher rks s : length s = 16%nat -> InvCipher rks (Cipher rks s) = s.
Proof.
  intros H. destruct rks as [|rk0 rest]; [done|]. cbn [Cipher InvCipher].
  rewrite inv_rounds_rounds by (unfold AddRoundKey; by rewrite length_xor_bytes).
  apply xor_bytes_cancel.
Qed.

(** AES is a permutation of the 16-byte blocks, whatever the key. *)
Lemma decrypt_encrypt_block key block :
  length block = 16%nat -> decrypt_block key (encrypt_block key block) = block.
Proof. apply InvCipher_Cipher. Qed.

Lemma length_encrypt_block key block :
  length block = 16%nat -> length (encrypt_block key block) = 16%nat.
Proof. apply length_Cipher. Qed.
End AESFacts.

(** ** SHA-256, HMAC and PBKDF2 against known answers *)

Example sha256_abc :
  SHA256.digest (ascii_bytes "abc")
  = unhex "ba7816bf8f01cfea414140de5dae2223b00361a396177a9cb410ff61f20015ad".
Proof. vm_compute. reflexivity. Qed.

Example hmac_sha256_fox :
  HMAC_SHA256 (ascii_bytes "key") (ascii_bytes "The quick brown fox jumps over the lazy dog")
  = unhex "f7bc83f430538424b13298e6aa6fb143ef4d59a14946175997479dbc2d1a3cd8".
Proof. vm_compute. reflexivity. Qed.

Example pbkdf2_rfc7914 :
  PBKDF2HMAC.derive 64 (ascii_bytes "salt") 1 (ascii_bytes "passwd")
  = unhex "55ac046e56e3089fec1691c22544b605f94185216dde0465e68b9d57c20dacbc49ca9cccf179b645991664b39d77ef317c71b845b1e30bd509112041d3a19783".
Proof. vm_compute. reflexivity. Qed.

Example pbkdf2_two_iterations :
  PBKDF2HMAC.derive 32 (ascii_bytes "Git-Backup-Enc-Salt-v1") 2 (ascii_bytes "password")
  = unhex "a412c61698883a33f3903e23c6e3c66e157c4c2b924b91a2853a9f38294a9a03".
Proof. vm_compute. reflexivity. Qed.

(** ** Cutting into blocks *)

Section Chunks.
Context {A : Type}.
Implicit Types (l : list A) (n : nat).

Lemma chunks_fuel_irrel n : (0 < n)%nat -> forall fuel1 fuel2 l,
  (length l <= fuel1)%nat -> (length l <= fuel2)%nat ->
  chunks_fuel fuel1 n l = chunks_fuel fuel2 n l.
Proof.
  intros Hn fuel1. induction fuel1 as [|f IH]; intros fuel2 l H1 H2.
  - destruct l; [by destruct fuel2 | simpl in H1; lia].
  - destruct l as [|x l]; [by destruct fuel2|].
    destruct fuel2 as [|f2]; [simpl in H2; lia|].
    cbn [chunks_fuel]. f_equal.
    apply IH; rewrite length_drop; simpl in *; lia.
Qed.

Lemma chunks_fuel_enough n : (0 < n)%nat -> forall fuel l,
  (length l <= fuel)%nat -> chunks_fuel fuel n l = chunks n l.
Proof. intros Hn fuel l Hl. by apply chunks_fuel_irrel. Qed.

Lemma chunks_app n (a l : list A) :
  (0 < n)%nat -> length a = n -> chunks n (a ++ l) = a :: chunks n l.
Proof.
  intros Hn Ha. unfold chunks at 1. destruct a as [|x a]; [simpl in Ha; lia|].
  cbn [app length chunks_fuel]. f_equal.
  - change (x :: a ++ l) with ((x :: a) ++ l). by rewrite take_app_length'.
  - change (x :: a ++ l) with ((x :: a) ++ l). rewrite drop_app_length' by done.
    apply chunks_fuel_enough; [done|]. rewrite length_app. lia.
Qed.

Lemma chunks_nil n : chunks n (@nil A) = [].
Proof. reflexivity. Qed.

(** A list whose length is a multiple of [n] is the concatenation of
    pieces of exactly [n] elements. *)
Lemma chunks_exact n : (0 < n)%nat -> forall k l,
  length l = (k * n)%nat ->
  concat (chunks n l) = l /\ Forall (fun c => length c = n) (chunks n l)
  /\ length (chunks n l) = k.
Proof.
  intros Hn k. induction k as [|k IH]; intros l Hl.
  - destruct l; [by repeat split; try constructor | simpl in Hl; lia].
  - rewrite <- (take_drop n l).
    assert (length (take n l) = n) by (rewrite length_take; lia).
    rewrite chunks_app by done.
    destruct (IH (drop n l)) as (Hc & Hf & Hk); [rewrite length_drop; lia|].
    cbn [concat length]. rewrite Hc, Hk. split; [done|]. split; [by constructor | done].
Qed.
End Chunks.

Lemma mod16_multiple (n : nat) : (n mod 16 = 0)%nat -> exists k, n = (k * 16)%nat.
Proof. intros H. exists (n / 16)%nat. pose proof (Nat.div_mod n 16). lia. Qed.

(** ** PKCS7 padding *)

Lemma to_N_small (n : nat) : (n < 256)%nat -> Byte.to_N (byte_of_N (N.of_nat n)) = N.of_nat n.
Proof. intros H. rewrite to_N_byte_of_N. apply N.mod_small. lia. Qed.

Lemma length_PKCS7_pad (data : bytes) :
  exists k, length (PKCS7_pad data) = (S k * 16)%nat.
Proof.
  unfold PKCS7_pad. rewrite length_app, length_replicate.
  exists (length data / 16)%nat.
  pose proof (Nat.div_mod (length data) 16). pose proof (Nat.mod_upper_bound (length data) 16).
  lia.
Qed.

Lemma length_PKCS7_pad_mod (data : bytes) : (length (PKCS7_pad data) mod 16 = 0)%nat.
Proof.
  destruct (length_PKCS7_pad data) as [k ->]. apply Nat.Div0.mod_mul.
Qed.

Lemma last_app_replicate {A} (l : list A) (n : nat) (x d : A) :
  List.last (l ++ replicate (S n) x) d = x.
Proof.
  replace (replicate (S n) x) with (replicate n x ++ [x]).
  - by rewrite app_assoc, List.last_last.
  - clear. induction n as [|n IH]; [done|]. cbn [replicate app] in *. by rewrite IH.
Qed.

Lemma PKCS7_unpad_pad (data : bytes) : PKCS7_unpad (PKCS7_pad data) = Ok data.
Proof.
  unfold PKCS7_unpad.
  rewrite length_PKCS7_pad_mod.
  destruct (Nat.eqb_spec (length (PKCS7_pad data)) 0) as [E|_];
    [destruct (length_PKCS7_pad data); lia|].
  cbn [Nat.eqb orb negb]. unfold PKCS7_pad in *.
  pose proof (Nat.mod_upper_bound (length data) 16 ltac:(lia)) as Hm.
  set (n := (16 - length data mod 16)%nat) in *.
  assert (Hn : (1 <= n <= 16)%nat) by (unfold n; lia).
  destruct n as [|n'] eqn:En; [lia|].
  rewrite last_app_replicate, to_N_small, Nat2N.id by lia.
  rewrite length_app, length_replicate.
  replace (length data + S n' - S n')%nat with (length data) by lia.
  rewrite drop_app_length, take_app_length.
  destruct (Nat.leb_spec 1 (S n')); [|lia]. destruct (Nat.leb_spec (S n') 16); [|lia].
  cbn [andb].
  rewrite (proj2 (forallb_forall _ _)); [done|].
  intros b Hb. apply list_elem_of_In, elem_of_replicate in Hb as [-> _].
  rewrite to_N_small, Nat2N.id by lia. apply Nat.eqb_refl.
Qed.

(** ** CBC over AES *)

Lemma length_cbc_encrypt_blocks key : forall blocks prev,
  Forall (fun b => length b = 16%nat) blocks ->
  length (cbc_encrypt_blocks key prev blocks) = (length blocks * 16)%nat.
Proof.
  induction blocks as [|p rest IH]; intros prev Hb; [done|].
  inversion Hb as [|? ? Hp Hrest]; subst. cbn [cbc_encrypt_blocks length].
  rewrite length_app, IH by done.
  rewrite AESFacts.length_encrypt_block by (by rewrite length_xor_bytes). lia.
Qed.

Lemma cbc_decrypt_encrypt key : forall blocks prev,
  Forall (fun b => length b = 16%nat) blocks ->
  cbc_decrypt_blocks key prev (chunks 16 (cbc_encrypt_blocks key prev blocks))
  = concat blocks.
Proof.
  induction blocks as [|p rest IH]; intros prev Hb; [done|].
  inversion Hb as [|? ? Hp Hrest]; subst. cbn [cbc_encrypt_blocks concat].
  assert (Hx : length (xor_bytes p prev) = 16%nat) by (by rewrite length_xor_bytes).
  rewrite chunks_app by (lia || by apply AESFacts.length_encrypt_block).
  cbn [cbc_decrypt_blocks].
  rewrite AESFacts.decrypt_encrypt_block, xor_bytes_cancel, IH by done. done.
Qed.

(** ** Key derivation *)

Lemma length_N_to_be len n : length (SHA256.N_to_be len n) = len.
Proof.
  revert n. induction len as [|len IH]; intros n; [done|].
  cbn [SHA256.N_to_be]. rewrite length_app, IH. simpl. lia.
Qed.

Lemma length_SHA256_digest msg : length (SHA256.digest msg) = 32%nat.
Proof. unfold SHA256.digest. by rewrite !length_app, !length_N_to_be. Qed.

Lemma length_HMAC_SHA256 key msg : length (HMAC_SHA256 key msg) = 32%nat.
Proof. apply length_SHA256_digest. Qed.

Lemma length_PBKDF2_F P S c i : length (PBKDF2HMAC.F P S c i) = 32%nat.
Proof.
  unfold PBKDF2HMAC.F.
  apply (N.iter_invariant (c - 1) _ (PBKDF2HMAC.step P) (fun ut => length (snd ut) = 32%nat)).
  - intros [u t] H. unfold PBKDF2HMAC.step. cbn [fst snd] in *. by rewrite length_xor_bytes.
  - apply length_HMAC_SHA256.
Qed.

Lemma length_PBKDF2_derive_32 salt c pw : length (PBKDF2HMAC.derive 32 salt c pw) = 32%nat.
Proof.
  change (PBKDF2HMAC.derive 32 salt c pw) with (take 32 (PBKDF2HMAC.F pw salt c 1 ++ [])).
  rewrite app_nil_r, length_take, length_PBKDF2_F. reflexivity.
Qed.

(** ** The blob codec: [encrypt_data] and [decrypt_data] *)

Lemma Cipher_AES_CBC_ok key iv :
  length key = 32%nat -> length iv = 16%nat ->
  Cipher_AES_CBC key iv = Ok {| cipher_key := key; cipher_iv := iv |}.
Proof. intros Hk Hi. unfold Cipher_AES_CBC. by rewrite Hk, Hi. Qed.

Lemma length_next_random w n : length (next_random w n) = n.
Proof. unfold next_random. by rewrite length_map, length_seq. Qed.

Lemma length_ciphertext key iv data :
  length (ciphertext key iv data) = (16 * (length data / 16 + 1))%nat.
Proof.
  unfold ciphertext. destruct (length_PKCS7_pad data) as [k Hk].
  destruct (chunks_exact 16 ltac:(lia) _ _ Hk) as (_ & Hf & Hl).
  rewrite length_cbc_encrypt_blocks, Hl by done.
  unfold PKCS7_pad in Hk. rewrite length_app, length_replicate in Hk.
  pose proof (Nat.div_mod (length data) 16). pose proof (Nat.mod_upper_bound (length data) 16).
  nia.
Qed.

(** [encrypt_data] never raises: it reads 16 bytes of entropy as the IV
    and returns the IV followed by the CBC ciphertext of the padded data. *)
Lemma encrypt_data_eq (self : BackupEncryptor.t) data w :
  length (BackupEncryptor.key self) = 32%nat ->
  BackupEncryptor.encrypt_data self data w
  = (Ok (next_random w 16 ++ ciphertext (BackupEncryptor.key self) (next_random w 16) data),
     consume w 16).
Proof.
  intros Hk. unfold BackupEncryptor.encrypt_data, bind, lift, ret, os_urandom.
  fold (next_random w 16). fold (consume w 16).
  rewrite Cipher_AES_CBC_ok by (done || apply length_next_random).
  unfold encryptor_run. by rewrite length_PKCS7_pad_mod.
Qed.

Lemma decrypt_data_ciphertext (self : BackupDecryptor.t) iv data :
  length (BackupDecryptor.key self) = 32%nat -> length iv = 16%nat ->
  BackupDecryptor.decrypt_data self (iv ++ ciphertext (BackupDecryptor.key self) iv data)
  = Ok data.
Proof.
  intros Hk Hi. unfold BackupDecryptor.decrypt_data.
  rewrite take_app_length', drop_app_length' by done.
  rewrite Cipher_AES_CBC_ok by done. cbn [rbind].
  unfold decryptor_run. cbn [cipher_key cipher_iv].
  rewrite length_ciphertext.
  replace ((16 * (length data / 16 + 1)) mod 16)%nat with 0%nat
    by (symmetry; rewrite Nat.mul_comm; apply Nat.Div0.mod_mul).
  cbn [Nat.eqb negb rbind]. unfold ciphertext.
  destruct (length_PKCS7_pad data) as [k Hlen].
  destruct (chunks_exact 16 ltac:(lia) _ _ Hlen) as (Hc & Hf & _).
  rewrite cbc_decrypt_encrypt, Hc by done. apply PKCS7_unpad_pad.
Qed.

Lemma BackupEncryptor_init_inv P e :
  BackupEncryptor.__init__ P = Ok e ->
  exists pw, str_encode_utf8 P = Ok pw
             /\ BackupEncryptor.key e = PBKDF2HMAC.derive 32 salt 100000 pw.
Proof.
  unfold BackupEncryptor.__init__. destruct (str_encode_utf8 P) as [pw|]; [|done].
  cbn [rbind]. intros [= <-]. by exists pw.
Qed.

Lemma BackupDecryptor_init_inv P d :
  BackupDecryptor.__init__ P = Ok d ->
  exists pw, str_encode_utf8 P = Ok pw
             /\ BackupDecryptor.key d = PBKDF2HMAC.derive 32 salt 100000 pw.
Proof.
  unfold BackupDecryptor.__init__. destruct (str_encode_utf8 P) as [pw|]; [|done].
  cbn [rbind]. intros [= <-]. by exists pw.
Qed.

Lemma BackupEncryptor_key_length P e :
  BackupEncryptor.__init__ P = Ok e -> length (BackupEncryptor.key e) = 32%nat.
Proof.
  intros (pw & _ & ->)%BackupEncryptor_init_inv. apply length_PBKDF2_derive_32.
Qed.

Lemma BackupDecryptor_key_length P d :
  BackupDecryptor.__init__ P = Ok d -> length (BackupDecryptor.key d) = 32%nat.
Proof.
  intros (pw & _ & ->)%BackupDecryptor_init_inv. apply length_PBKDF2_derive_32.
Qed.

(** C1. Round trip of contents: with an encryptor and a decryptor both
    constructed from the passphrase [P], [encrypt_data] on any byte string
    [C] (the empty one included), in any state of the world, returns a
    blob, and [decrypt_data] on that blob returns exactly [C]. *)
Theorem C1_decrypt_encrypt_data (P : str) (C : bytes) (w : world)
    (e : BackupEncryptor.t) (d : BackupDecryptor.t) :
  BackupEncryptor.__init__ P = Ok e ->
  BackupDecryptor.__init__ P = Ok d ->
  exists blob w',
    BackupEncryptor.encrypt_data e C w = (Ok blob, w')
    /\ BackupDecryptor.decrypt_data d blob = Ok C.
Proof.
  intros He Hd.
  pose proof (BackupEncryptor_key_length _ _ He) as Hlen.
  destruct (BackupEncryptor_init_inv _ _ He) as (pw & Hpw & Hke).
  destruct (BackupDecryptor_init_inv _ _ Hd) as (pw' & Hpw' & Hkd).
  assert (Hkeys : BackupEncryptor.key e = BackupDecryptor.key d) by congruence.
  exists (next_random w 16 ++ ciphertext (BackupEncryptor.key e) (next_random w 16) C),
         (consume w 16).
  split; [apply encrypt_data_eq; exact Hlen|].
  rewrite Hkeys. apply decrypt_data_ciphertext; [congruence | apply length_next_random].
Qed.

(** C7. Layout of a blob: for every plaintext, [encrypt_data] returns 16
    bytes of IV followed by the ciphertext; the blob has at least 16
    bytes and the part after the IV is a whole number of 16-byte blocks,
    one more than the plaintext has whole blocks; for the empty plaintext
    it is the encryption of exactly one block, made of 16 padding bytes
    of value 16. *)
Theorem C7_blob_layout (self : BackupEncryptor.t) (data : bytes) (w : world) :
  length (BackupEncryptor.key self) = 32%nat ->
  exists iv ct w',
    BackupEncryptor.encrypt_data self data w = (Ok (iv ++ ct), w')
    /\ iv = next_random w 16 /\ length iv = 16%nat
    /\ ct = ciphertext (BackupEncryptor.key self) iv data
    /\ (16 <= length (iv ++ ct))%nat
    /\ ((length (iv ++ ct) - 16) mod 16 = 0)%nat
    /\ length ct = (16 * (length data / 16 + 1))%nat
    /\ (data = [] ->
        PKCS7_pad data = replicate 16 x10
        /\ length ct = 16%nat
        /\ ct = AES.encrypt_block (BackupEncryptor.key self)
                  (xor_bytes (replicate 16 x10) iv)).
Proof.
  intros Hk.
  exists (next_random w 16),
         (ciphertext (BackupEncryptor.key self) (next_random w 16) data), (consume w 16).
  split; [apply encrypt_data_eq; exact Hk|].
  split; [done|]. split; [apply length_next_random|]. split; [done|].
  rewrite length_app, length_next_random, length_ciphertext.
  split; [lia|]. split.
  - replace (16 + 16 * (length data / 16 + 1) - 16)%nat
      with ((length data / 16 + 1) * 16)%nat by lia.
    apply Nat.Div0.mod_mul.
  - split; [done|]. intros ->. split; [reflexivity|]. split; [reflexivity|].
    unfold ciphertext. change (PKCS7_pad []) with (replicate 16 x10 ++ []).
    rewrite chunks_app by (done || lia). cbn [chunks_nil cbc_encrypt_blocks].
    rewrite chunks_nil. cbn [cbc_encrypt_blocks]. apply app_nil_r.
Qed.

(** C4. A blob shorter than 16 bytes, or whose part after the first 16
    bytes is not a multiple of 16 bytes long, makes [decrypt_data] raise
    before any padding is looked at: "Invalid IV size" in the first case,
    "not a multiple of the block length" in the second, never "Invalid
    padding bytes". *)
Theorem C4_malformed_blob (self : BackupDecryptor.t) (blob : bytes) :
  length (BackupDecryptor.key self) = 32%nat ->
  (length blob < 16)%nat \/ ((length blob - 16) mod 16 <> 0)%nat ->
  exists e,
    BackupDecryptor.decrypt_data self blob = Err e
    /\ MalformedBlobError e /\ ~ PaddingError e
    /\ ((length blob < 16)%nat -> e = ValueError_InvalidIVSize)
    /\ ((16 <= length blob)%nat -> e = ValueError_NotBlockMultiple).
Proof.
  intros Hk H. unfold BackupDecryptor.decrypt_data, Cipher_AES_CBC.
  rewrite Hk. cbn [existsb Nat.eqb orb negb].
  destruct (Nat.lt_ge_cases (length blob) 16) as [Hlt|Hge].
  - rewrite length_take, Nat.min_r by lia.
    destruct (Nat.eqb_spec (length blob) 16); [lia|]. cbn [negb rbind].
    exists ValueError_InvalidIVSize. unfold MalformedBlobError, PaddingError.
    repeat split; (auto || discriminate || lia).
  - destruct H as [H|H]; [lia|].
    rewrite length_take, Nat.min_l by lia. cbn [Nat.eqb negb rbind].
    unfold decryptor_run. rewrite length_drop.
    destruct (Nat.eqb_spec ((length blob - 16) mod 16) 0); [done|]. cbn [negb rbind].
    exists ValueError_NotBlockMultiple. unfold MalformedBlobError, PaddingError.
    repeat split; (auto || discriminate || lia).
Qed.

(** The other way round: a blob of 16 bytes plus a whole number of blocks
    is decrypted, or rejected for its padding; it is never malformed. *)
Lemma well_formed_blob_outcome (self : BackupDecryptor.t) (blob : bytes) :
  length (BackupDecryptor.key self) = 32%nat ->
  (16 <= length blob)%nat -> ((length blob - 16) mod 16 = 0)%nat ->
  (exists data, BackupDecryptor.decrypt_data self blob = Ok data)
  \/ BackupDecryptor.decrypt_data self blob = Err ValueError_InvalidPadding.
Proof.
  intros Hk Hge Hm. unfold BackupDecryptor.decrypt_data.
  rewrite Cipher_AES_CBC_ok by (done || rewrite length_take; lia). cbn [rbind].
  unfold decryptor_run. rewrite length_drop, Hm. cbn [Nat.eqb negb rbind].
  unfold PKCS7_unpad.
  repeat match goal with |- context [if ?b then _ else _] => destruct b end; eauto.
Qed.

(** C3. Key derivation depends on the passphrase alone: for a passphrase
    that can be encoded (the empty one included), both constructors
    succeed, with the same key, of 32 bytes, which is PBKDF2-HMAC-SHA256
    of the UTF-8 passphrase with the salt [Git-Backup-Enc-Salt-v1] and
    100000 iterations. *)
Theorem C3_key_derivation (P : str) (pw : bytes) :
  str_encode_utf8 P = Ok pw ->
  exists e d,
    BackupEncryptor.__init__ P = Ok e /\ BackupDecryptor.__init__ P = Ok d
    /\ BackupEncryptor.key e = BackupDecryptor.key d
    /\ length (BackupEncryptor.key e) = 32%nat
    /\ BackupEncryptor.key e
       = PBKDF2HMAC.derive 32 (ascii_bytes "Git-Backup-Enc-Salt-v1") 100000 pw
    /\ 100000 <= 100000.
Proof.
  intros Hpw. unfold BackupEncryptor.__init__, BackupDecryptor.__init__.
  rewrite Hpw. cbn [rbind].
  exists {| BackupEncryptor.key := PBKDF2HMAC.derive 32 salt 100000 pw |},
         {| BackupDecryptor.key := PBKDF2HMAC.derive 32 salt 100000 pw |}.
  cbn [BackupEncryptor.key BackupDecryptor.key].
  split; [exact eq_refl|]. split; [exact eq_refl|]. split; [exact eq_refl|].
  split; [apply length_PBKDF2_derive_32|]. split; [exact eq_refl | apply N.le_refl].
Qed.

(** ** UTF-8 *)

Ltac nb :=
  repeat match goal with
         | |- context [?a <? ?b] => destruct (N.ltb_spec a b); try lia
         | |- context [?a <=? ?b] => destruct (N.leb_spec a b); try lia
         | |- context [?a =? ?b] => destruct (N.eqb_spec a b); try lia
         end.

Ltac nbi i :=
  repeat match goal with
         | |- context [i <? ?b] => destruct (N.ltb_spec i b); try lia
         | |- context [i =? ?b] => destruct (N.eqb_spec i b); try lia
         end.

Lemma to_N_byte_small (n : N) : n < 256 -> Byte.to_N (byte_of_N n) = n.
Proof. intros H. rewrite to_N_byte_of_N. by apply N.mod_small. Qed.

Lemma utf8_cont_byte (x : N) : x < 64 -> utf8_cont (byte_of_N (0x80 + x)) = Some x.
Proof.
  intros H. unfold utf8_cont. rewrite to_N_byte_small by lia.
  nb. cbn [andb]. f_equal. lia.
Qed.

(** Decoding consumes the encoding of one code point and yields it. *)
Lemma decode_utf8_char (c : N) (b rest : bytes) :
  utf8_encode_char c = Ok b ->
  bytes_decode_utf8 (b ++ rest) = (s <- bytes_decode_utf8 rest ;; Ok (c :: s)).
Proof.
  unfold utf8_encode_char, is_surrogate.
  destruct (N.ltb_spec c 0x80) as [H1|H1].
  { intros [= <-]. cbn [app bytes_decode_utf8]. rewrite to_N_byte_small by lia.
    destruct (N.ltb_spec c 128); [done | lia]. }
  destruct (N.ltb_spec c 0x800) as [H2|H2].
  { intros [= <-]. cbn [app bytes_decode_utf8].
    rewrite to_N_byte_small, utf8_cont_byte by lia.
    nb. replace ((192 + c / 64 - 192) * 64 + c mod 64) with c by lia. done. }
  destruct (N.ltb_spec c 0x10000) as [H3|H3].
  { destruct (N.leb_spec 0xD800 c) as [H4|H4], (N.leb_spec c 0xDFFF) as [H5|H5];
      cbn [andb]; try discriminate; intros [= <-]; cbn [app bytes_decode_utf8];
      rewrite to_N_byte_small, !utf8_cont_byte by lia;
      unfold is_surrogate;
      replace ((224 + c / 4096 - 224) * 4096 + c / 64 mod 64 * 64 + c mod 64) with c by lia;
      nb; done. }
  destruct (N.ltb_spec c 0x110000) as [H4|H4]; [|discriminate].
  intros [= <-]. cbn [app bytes_decode_utf8].
  rewrite to_N_byte_small, !utf8_cont_byte by lia.
  replace ((240 + c / 262144 - 240) * 262144 + c / 4096 mod 64 * 4096
           + c / 64 mod 64 * 64 + c mod 64) with c by lia.
  nb. done.
Qed.

Lemma decode_encode_utf8 (s : str) (bs : bytes) :
  str_encode_utf8 s = Ok bs -> bytes_decode_utf8 bs = Ok s.
Proof.
  revert bs. induction s as [|c s IH]; intros bs; cbn [str_encode_utf8].
  - by intros [= <-].
  - destruct (utf8_encode_char c) as [b|] eqn:Ec; [|discriminate]. cbn [rbind].
    destruct (str_encode_utf8 s) as [r|]; [|discriminate]. cbn [rbind].
    intros [= <-]. rewrite (decode_utf8_char _ _ _ Ec), (IH r) by done. done.
Qed.

(** Text made of Unicode scalar values can always be encoded. *)
Lemma encode_utf8_scalar (s : str) :
  Forall (fun c => is_scalar c = true) s -> exists bs, str_encode_utf8 s = Ok bs.
Proof.
  induction 1 as [|c s Hc _ [r IH]]; [by exists []|].
  cbn [str_encode_utf8]. rewrite IH.
  assert (exists b, utf8_encode_char c = Ok b) as [b ->]; [|by eexists].
  unfold utf8_encode_char. unfold is_scalar in Hc.
  apply andb_prop in Hc as [Hc1 Hc2]. apply N.ltb_lt in Hc1.
  apply negb_true_iff in Hc2. rewrite Hc2.
  destruct (c <? 128), (c <? 2048), (c <? 65536); try by eexists.
  destruct (N.ltb_spec c 1114112); [by eexists | lia].
Qed.

(** ** ASCII *)

Lemma decode_ascii_text (bs : bytes) :
  Forall (fun b => Byte.to_N b < 128) bs -> bytes_decode_ascii bs = Ok (ascii_text bs).
Proof.
  induction 1 as [|b bs Hb _ IH]; [done|]. cbn [bytes_decode_ascii].
  destruct (N.ltb_spec (Byte.to_N b) 128); [|lia]. by rewrite IH.
Qed.

Lemma encode_ascii_text (bs : bytes) :
  Forall (fun b => Byte.to_N b < 128) bs -> str_encode_ascii (ascii_text bs) = Ok bs.
Proof.
  induction 1 as [|b bs Hb _ IH]; [done|]. cbn [ascii_text map str_encode_ascii].
  destruct (N.ltb_spec (Byte.to_N b) 128); [|lia].
  fold (ascii_text bs). rewrite IH. cbn [rbind]. by rewrite byte_of_to_N.
Qed.

(** ** Base64 *)

(** Induction three elements at a time. *)
Lemma list_ind3 {A} (P : list A -> Prop) :
  P [] -> (forall a, P [a]) -> (forall a b, P [a; b]) ->
  (forall a b c l, P l -> P (a :: b :: c :: l)) ->
  forall l, P l.
Proof.
  intros H0 H1 H2 H3 l.
  assert (P l /\ (forall a, P (a :: l)) /\ (forall a b, P (a :: b :: l))) as [H _].
  { induction l as [|x l (IH0 & IH1 & IH2)]; [by auto|].
    split; [apply IH1|]. split; [intros; apply IH2|]. intros. by apply H3. }
  exact H.
Qed.

Lemma to_N_b64_char (i : N) : i < 64 ->
  Byte.to_N (b64_char i)
  = if i <? 26 then 65 + i else if i <? 52 then 71 + i
    else if i <? 62 then i - 4 else if i =? 62 then 45 else 95.
Proof. intros H. unfold b64_char. apply to_N_byte_small. nb. Qed.

Lemma b64_value_char (i : N) : i < 64 -> b64_value (b64_char i) = Some i.
Proof.
  intros H. unfold b64_value. rewrite to_N_b64_char by done.
  nbi i; nb; cbn [andb orb]; f_equal; lia.
Qed.

Lemma b64_char_urlsafe (i : N) : i < 64 -> is_urlsafe_char (Byte.to_N (b64_char i)) = true.
Proof.
  intros H. rewrite to_N_b64_char by done. unfold is_urlsafe_char.
  nbi i; nb; reflexivity.
Qed.

Lemma urlsafe_char_props (c : N) :
  is_urlsafe_char c = true -> c < 128 /\ c <> 61.
Proof. unfold is_urlsafe_char. nb; cbn [andb orb]; (discriminate || lia). Qed.

Lemma b64_char_not_pad (i : N) : i < 64 -> Byte.eqb (b64_char i) b64_pad = false.
Proof.
  intros H. destruct (Byte.eqb (b64_char i) b64_pad) eqn:E; [|done].
  apply Byte.byte_dec_bl in E. apply (f_equal Byte.to_N) in E.
  pose proof (urlsafe_char_props _ (b64_char_urlsafe i H)) as [_ Hne].
  by rewrite E in Hne.
Qed.

(** One step of the decoder on a character of the alphabet. *)
Lemma a2b_base64_char (i : N) rest quad_pos leftchar pads out : i < 64 ->
  a2b_base64 (b64_char i :: rest) quad_pos leftchar pads out
  = match quad_pos with
    | 0%nat => a2b_base64 rest 1 i 0 out
    | 1%nat => a2b_base64 rest 2 (i mod 16) 0 (out ++ [byte_of_N (leftchar * 4 + i / 16)])
    | 2%nat => a2b_base64 rest 3 (i mod 4) 0 (out ++ [byte_of_N (leftchar * 16 + i / 4)])
    | _ => a2b_base64 rest 0 0 0 (out ++ [byte_of_N (leftchar * 64 + i)])
    end.
Proof.
  intros H. cbn [a2b_base64]. by rewrite b64_char_not_pad, b64_value_char.
Qed.

Lemma byte_of_N_eq (n : N) (b : byte) : n = Byte.to_N b -> byte_of_N n = b.
Proof. intros ->. apply byte_of_to_N. Qed.

Lemma a2b_base64_pad rest quad_pos leftchar pads out :
  a2b_base64 (b64_pad :: rest) quad_pos leftchar pads out
  = if Nat.leb 2 quad_pos then
      if Nat.leb 4 (quad_pos + (pads + 1)) then Ok out
      else a2b_base64 rest quad_pos leftchar (pads + 1) out
    else a2b_base64 rest quad_pos leftchar pads out.
Proof. reflexivity. Qed.

Lemma a2b_base64_encode (bs : bytes) : forall out,
  a2b_base64 (urlsafe_b64encode bs) 0 0 0 out = Ok (out ++ bs).
Proof.
  induction bs as [|a|a b|a b c rest IH] using list_ind3; intros out.
  - cbn [urlsafe_b64encode a2b_base64 Nat.eqb]. by rewrite app_nil_r.
  - pose proof (Byte.to_N_bounded a). cbn [urlsafe_b64encode].
    rewrite !a2b_base64_char, !a2b_base64_pad by lia. cbn [Nat.leb Nat.add].
    do 3 f_equal. apply byte_of_N_eq. lia.
  - pose proof (Byte.to_N_bounded a). pose proof (Byte.to_N_bounded b).
    cbn [urlsafe_b64encode]. rewrite !a2b_base64_char, !a2b_base64_pad by lia.
    cbn [Nat.leb Nat.add]. rewrite <- app_assoc. do 2 f_equal. cbn [app].
    f_equal; [|f_equal]; apply byte_of_N_eq; lia.
  - pose proof (Byte.to_N_bounded a). pose proof (Byte.to_N_bounded b).
    pose proof (Byte.to_N_bounded c).
    cbn [urlsafe_b64encode app]. rewrite !a2b_base64_char by lia.
    rewrite IH, <- !app_assoc. do 2 f_equal. cbn [app].
    f_equal; [|f_equal; [|f_equal]]; apply byte_of_N_eq; lia.
Qed.

Lemma urlsafe_b64decode_encode (bs : bytes) :
  urlsafe_b64decode (urlsafe_b64encode bs) = Ok bs.
Proof. apply a2b_base64_encode. Qed.

(** The encoding is a run of alphabet characters, a multiple of four long
    once its zero, one or two pad characters are counted. *)
Lemma urlsafe_b64encode_shape (bs : bytes) :
  exists body k,
    urlsafe_b64encode bs = body ++ replicate k b64_pad
    /\ Forall (fun b => is_urlsafe_char (Byte.to_N b) = true) body
    /\ ((4 - length body mod 4) mod 4 = k)%nat
    /\ length body = ((length bs * 4 + 2) / 3)%nat.
Proof.
  induction bs as [|a|a b|a b c rest IH] using list_ind3.
  - exists [], 0%nat. repeat split; constructor.
  - pose proof (Byte.to_N_bounded a).
    eexists [_; _], 2%nat. split; [reflexivity|].
    split; [|done]. repeat constructor; apply b64_char_urlsafe; lia.
  - pose proof (Byte.to_N_bounded a). pose proof (Byte.to_N_bounded b).
    eexists [_; _; _], 1%nat. split; [reflexivity|].
    split; [|done]. repeat constructor; apply b64_char_urlsafe; lia.
  - pose proof (Byte.to_N_bounded a). pose proof (Byte.to_N_bounded b).
    pose proof (Byte.to_N_bounded c).
    destruct IH as (body & k & Hr & Hbody & Hk & Hlen).
    cbn [urlsafe_b64encode]. rewrite Hr.
    eexists (_ :: _ :: _ :: _ :: body), k. split; [reflexivity|]. split.
    + repeat constructor; try (apply b64_char_urlsafe; lia). done.
    + cbn [length]. split.
      2:{ replace (S (S (S (length rest))) * 4 + 2)%nat
            with ((length rest * 4 + 2) + 4 * 3)%nat by lia.
          rewrite Nat.div_add by lia. lia. }
      replace (S (S (S (S (length body))))) with (length body + 1 * 4)%nat by lia.
      by rewrite Nat.Div0.mod_add.
Qed.

Lemma lstrip_replicate c k s : lstrip c (replicate k c ++ s) = lstrip c s.
Proof. induction k as [|k IH]; [done|]. cbn [replicate app lstrip]. by rewrite N.eqb_refl. Qed.

Lemma lstrip_id c s : Forall (fun x => x <> c) s -> lstrip c s = s.
Proof. destruct 1 as [|x s Hx _]; [done|]. cbn. by destruct (N.eqb_spec x c). Qed.

Lemma rev_replicate {A} (k : nat) (x : A) : rev (replicate k x) = replicate k x.
Proof.
  induction k as [|k IH]; [done|]. cbn [replicate rev]. rewrite IH.
  clear. induction k as [|k IH]; [done|]. cbn [replicate app]. by rewrite IH.
Qed.

Lemma rstrip_app_replicate c k s :
  Forall (fun x => x <> c) s -> rstrip c (s ++ replicate k c) = s.
Proof.
  intros H. unfold rstrip. rewrite rev_app_distr, rev_replicate, lstrip_replicate.
  rewrite lstrip_id, rev_involutive; [done|]. by apply List.Forall_rev.
Qed.

(** Stripping the pad characters and putting back as many as the length
    asks for gives the encoding again. *)
Lemma rstrip_repad (bs : bytes) :
  let name := rstrip 61 (ascii_text (urlsafe_b64encode bs)) in
  name ++ replicate ((4 - length name mod 4) mod 4) 61 = ascii_text (urlsafe_b64encode bs)
  /\ Forall (fun c => is_urlsafe_char c = true) name
  /\ length name = ((length bs * 4 + 2) / 3)%nat.
Proof.
  destruct (urlsafe_b64encode_shape bs) as (body & k & -> & Hbody & Hk & Hlen).
  assert (Hall : Forall (fun c => is_urlsafe_char c = true) (ascii_text body)).
  { unfold ascii_text. by apply Forall_map. }
  assert (Hname : rstrip 61 (ascii_text (body ++ replicate k b64_pad)) = ascii_text body).
  { unfold ascii_text. rewrite map_app. change map with (@fmap list _).
    rewrite fmap_replicate. apply rstrip_app_replicate.
    eapply Forall_impl; [exact Hall|]. intros c Hc. by apply urlsafe_char_props. }
  assert (Hl : length (ascii_text body) = length body) by apply length_map.
  cbv zeta. rewrite Hname, Hl, Hk.
  split; [|split; [exact Hall | exact Hlen]].
  unfold ascii_text. rewrite map_app. change map with (@fmap list _).
  by rewrite fmap_replicate.
Qed.

Lemma urlsafe_b64encode_ascii (bs : bytes) :
  Forall (fun b => Byte.to_N b < 128) (urlsafe_b64encode bs).
Proof.
  destruct (urlsafe_b64encode_shape bs) as (body & k & -> & Hbody & _).
  apply Forall_app. split.
  - eapply Forall_impl; [exact Hbody|]. intros b Hb. by apply urlsafe_char_props.
  - apply Forall_forall. intros b Hb.
    apply elem_of_replicate in Hb as [-> _]. reflexivity.
Qed.

(** ** The name codec: [encrypt_filename] and [decrypt_filename] *)

Lemma encrypt_filename_eq (self : BackupEncryptor.t) (filename : str) (name : bytes) w :
  length (BackupEncryptor.key self) = 32%nat ->
  str_encode_utf8 filename = Ok name ->
  BackupEncryptor.encrypt_filename self filename w
  = (Ok (encrypted_name (BackupEncryptor.key self) (next_random w 16) name), consume w 16).
Proof.
  intros Hk Hn. unfold BackupEncryptor.encrypt_filename, bind, lift, ret.
  rewrite Hn, encrypt_data_eq by done.
  by rewrite decode_ascii_text by apply urlsafe_b64encode_ascii.
Qed.

Lemma encrypt_filename_raises (self : BackupEncryptor.t) (filename : str) e w :
  str_encode_utf8 filename = Err e ->
  BackupEncryptor.encrypt_filename self filename w = (Err e, w).
Proof. intros Hn. unfold BackupEncryptor.encrypt_filename, bind, lift. by rewrite Hn. Qed.

Lemma decrypt_filename_encrypted_name (self : BackupDecryptor.t) (iv name : bytes) :
  length (BackupDecryptor.key self) = 32%nat -> length iv = 16%nat ->
  BackupDecryptor.decrypt_filename self (encrypted_name (BackupDecryptor.key self) iv name)
  = bytes_decode_utf8 name.
Proof.
  intros Hk Hi. unfold BackupDecryptor.decrypt_filename, encrypted_name.
  destruct (rstrip_repad (iv ++ ciphertext (BackupDecryptor.key self) iv name)) as (-> & _).
  rewrite encode_ascii_text by apply urlsafe_b64encode_ascii. cbn [rbind].
  rewrite urlsafe_b64decode_encode. cbn [rbind].
  by rewrite decrypt_data_ciphertext.
Qed.

(** C5. Round trip of names: for every text [S] of Unicode scalar values
    (empty, with [/], non-ASCII, of any length), [encrypt_filename]
    returns a name and [decrypt_filename], under the same key, returns
    [S] from it. The name is the URL-safe base64 text of the blob with
    its trailing [=] stripped: it is made of [A-Z a-z 0-9 - _] only, and
    putting back [(4 - len % 4) % 4] pad characters, as
    [decrypt_filename] does, gives the base64 text again, which decodes
    to the blob. *)
Theorem C5_decrypt_encrypt_filename (e : BackupEncryptor.t) (d : BackupDecryptor.t)
    (S : str) (w : world) :
  length (BackupEncryptor.key e) = 32%nat ->
  BackupDecryptor.key d = BackupEncryptor.key e ->
  Forall (fun c => is_scalar c = true) S ->
  exists name blob w',
    BackupEncryptor.encrypt_filename e S w = (Ok name, w')
    /\ BackupDecryptor.decrypt_filename d name = Ok S
    /\ name = rstrip 61 (ascii_text (urlsafe_b64encode blob))
    /\ Forall (fun c => is_urlsafe_char c = true) name
    /\ name ++ replicate ((4 - length name mod 4) mod 4) 61
       = ascii_text (urlsafe_b64encode blob)
    /\ urlsafe_b64decode (urlsafe_b64encode blob) = Ok blob
    /\ BackupDecryptor.decrypt_data d blob = str_encode_utf8 S.
Proof.
  intros Hk Hkeys HS. destruct (encode_utf8_scalar S HS) as [bs Hbs].
  set (iv := next_random w 16).
  set (blob := iv ++ ciphertext (BackupEncryptor.key e) iv bs).
  exists (encrypted_name (BackupEncryptor.key e) iv bs), blob, (consume w 16).
  destruct (rstrip_repad blob) as (Hpad & Hall & _).
  split; [by apply encrypt_filename_eq|].
  split; [|split; [done|split; [exact Hall|split; [exact Hpad|split]]]].
  - rewrite <- Hkeys.
    rewrite decrypt_filename_encrypted_name by (congruence || apply length_next_random).
    by apply decode_encode_utf8.
  - apply urlsafe_b64decode_encode.
  - rewrite Hbs. unfold blob. rewrite <- Hkeys.
    apply decrypt_data_ciphertext; [congruence | apply length_next_random].
Qed.

(** ** The file system: walking, reading, writing *)

Lemma prefix_take_iff {A} (q l : list A) :
  q `prefix_of` l <-> exists k, (k <= length l)%nat /\ q = take k l.
Proof.
  split.
  - intros [r ->]. exists (length q). rewrite length_app, take_app_length. split; [lia|done].
  - intros (k & _ & ->). apply prefix_take.
Qed.

Lemma take_snoc_cons {A} (cur : list A) c rest k :
  cur ++ take (S k) (c :: rest) = (cur ++ [c]) ++ take k rest.
Proof. cbn [take]. by rewrite <- app_assoc. Qed.

Lemma dirs_along_spec m comps : forall cur,
  dirs_along m cur comps = Ok tt
  <-> forall k, (0 < k <= length comps)%nat -> m !! (cur ++ take k comps) = Some Dir.
Proof.
  induction comps as [|c rest IH]; intros cur; cbn [dirs_along length].
  - split; [intros _ k Hk; lia | done].
  - split.
    + intros H k Hk. destruct (m !! (cur ++ [c])) as [[|]|] eqn:E; try discriminate.
      destruct k as [|k]; [lia|]. rewrite take_snoc_cons.
      destruct k as [|k]; [by rewrite take_0, app_nil_r|].
      apply (proj1 (IH _) H). lia.
    + intros H. pose proof (H 1%nat ltac:(lia)) as H1. cbn [take] in H1.
      rewrite take_0 in H1. rewrite H1.
      apply IH. intros k Hk. rewrite <- take_snoc_cons. apply H. lia.
Qed.

(** The outcome of a walk depends on the entries walked only. *)
Lemma dirs_along_ext m m' comps : forall cur,
  (forall k, (0 < k <= length comps)%nat ->
             m !! (cur ++ take k comps) = m' !! (cur ++ take k comps)) ->
  dirs_along m cur comps = dirs_along m' cur comps.
Proof.
  induction comps as [|c rest IH]; intros cur H; [done|]. cbn [dirs_along].
  pose proof (H 1%nat ltac:(cbn; lia)) as H1. cbn [take] in H1. rewrite take_0 in H1.
  rewrite <- H1. destruct (m !! (cur ++ [c])) as [[|]|]; try done.
  apply IH. intros k Hk. rewrite <- take_snoc_cons. apply H. cbn [length]. lia.
Qed.

Lemma traverse_spec m p :
  traverse m p = Ok tt
  <-> forall q, q <> [] -> q `prefix_of` removelast p -> m !! q = Some Dir.
Proof.
  unfold traverse. rewrite dirs_along_spec. split.
  - intros H q Hq (k & Hk & ->)%prefix_take_iff. apply (H k).
    destruct k; [done|]. lia.
  - intros H k Hk. apply H; [|apply prefix_take].
    destruct k; [lia|]. destruct (removelast p); [simpl in Hk; lia | done].
Qed.

Lemma traverse_ext m m' p :
  (forall q, q <> [] -> q `prefix_of` removelast p -> m !! q = m' !! q) ->
  traverse m p = traverse m' p.
Proof.
  intros H. apply dirs_along_ext. intros k Hk. apply H; [|apply prefix_take].
  destruct k; [lia|]. destruct (removelast p); [simpl in Hk; lia | done].
Qed.

Lemma prefix_removelast {A} (q p : list A) :
  q `prefix_of` removelast p -> q `prefix_of` p.
Proof.
  intros H. etrans; [exact H|]. destruct p as [|x p _] using rev_ind; [done|].
  rewrite removelast_last. by apply prefix_app_r.
Qed.

Lemma snoc_inv {A} (l : list A) : l = [] \/ exists l' x, l = l' ++ [x].
Proof. destruct l as [|x l] using rev_ind; [by left | right; eauto]. Qed.

Lemma node_at_ext (m m' : gmap path node) p :
  (p <> [] -> m !! p = m' !! p) -> node_at m p = node_at m' p.
Proof. destruct p; [done|]. intros H. by apply H. Qed.

(** Reading a path depends on the entries along that path only. *)
Lemma read_at_ext m m' p :
  (forall q, q <> [] -> q `prefix_of` p -> m !! q = m' !! q) ->
  read_at m p = read_at m' p.
Proof.
  intros H. unfold read_at.
  rewrite (traverse_ext m m'), (node_at_ext m m'); [done| |].
  - intros Hp. by apply H.
  - intros q Hq Hpre. apply H; [done|]. by apply prefix_removelast.
Qed.

Lemma path_exists_ext m m' p :
  (forall q, q <> [] -> q `prefix_of` p -> m !! q = m' !! q) ->
  path_exists m p = path_exists m' p.
Proof.
  intros H. unfold path_exists.
  rewrite (traverse_ext m m'), (node_at_ext m m'); [done| |].
  - intros Hp. by apply H.
  - intros q Hq Hpre. apply H; [done|]. by apply prefix_removelast.
Qed.

Lemma path_is_dir_ext m m' p :
  (forall q, q <> [] -> q `prefix_of` p -> m !! q = m' !! q) ->
  path_is_dir m p = path_is_dir m' p.
Proof.
  intros H. unfold path_is_dir.
  rewrite (traverse_ext m m'), (node_at_ext m m'); [done| |].
  - intros Hp. by apply H.
  - intros q Hq Hpre. apply H; [done|]. by apply prefix_removelast.
Qed.

Lemma path_is_dir_spec m p :
  path_is_dir m p = true
  <-> forall q, q <> [] -> q `prefix_of` p -> m !! q = Some Dir.
Proof.
  unfold path_is_dir. split.
  - destruct (traverse m p) as [[]|] eqn:Ht; [|done].
    destruct (node_at m p) as [[|]|] eqn:Hl; try done. intros _ q Hq Hpre.
    destruct (snoc_inv p) as [->|(p' & x & ->)]; [by apply prefix_nil_inv in Hpre|].
    rename p' into p.
    destruct (decide (q = p ++ [x])) as [->|Hne].
    + destruct (p ++ [x]) eqn:E; [by destruct p|]. exact Hl.
    + apply (proj1 (traverse_spec m (p ++ [x])) Ht); [done|]. rewrite removelast_last.
      destruct Hpre as [r Hr]. destruct r as [|y r] using rev_ind.
      * rewrite app_nil_r in Hr. congruence.
      * rewrite app_assoc in Hr. apply app_inj_tail in Hr as [-> _]. by apply prefix_app_r.
  - intros H.
    assert (traverse m p = Ok tt) as ->.
    { apply traverse_spec. intros q Hq Hpre. apply H; [done|]. by apply prefix_removelast. }
    destruct p as [|x p]; [done|]. cbn [node_at]. by rewrite H.
Qed.

(** ** Making directories *)

Lemma mkdir_at_spec comps : forall m cur,
  (forall k c, (0 < k <= length comps)%nat -> m !! (cur ++ take k comps) <> Some (File c)) ->
  exists m',
    mkdir_at m cur comps = Ok m'
    /\ (forall k, (0 < k <= length comps)%nat -> m' !! (cur ++ take k comps) = Some Dir)
    /\ (forall q, (forall k, (0 < k <= length comps)%nat -> q <> cur ++ take k comps) ->
                  m' !! q = m !! q)
    /\ (forall q, is_Some (m !! q) -> m' !! q = m !! q).
Proof.
  induction comps as [|c rest IH]; intros m cur H.
  - exists m. cbn [mkdir_at length]. split; [done|]. split; [intros; lia|]. by split.
  - cbn [mkdir_at]. pose proof (H 1%nat) as H1. cbn [take length] in H1.
    rewrite take_0 in H1.
    assert (Hlen : forall k, (0 < k <= length rest)%nat ->
                     length (cur ++ [c]) <> length ((cur ++ [c]) ++ take k rest)).
    { intros k Hk. rewrite !length_app, length_take. cbn. lia. }
    destruct (m !! (cur ++ [c])) as [[f|]|] eqn:E.
    + exfalso. apply (H1 f); [lia | done].
    + destruct (IH m (cur ++ [c])) as (m' & Hm' & Hd & Hf & Hs).
      { intros k f Hk. rewrite <- take_snoc_cons. apply H. cbn [length]. lia. }
      exists m'. split; [done|]. split; [|split; [|done]].
      * intros k Hk. destruct k as [|k]; [lia|]. rewrite take_snoc_cons.
        destruct k as [|k].
        -- rewrite take_0, app_nil_r, Hs by (by rewrite E). done.
        -- apply Hd. cbn [length] in Hk. lia.
      * intros q Hq. apply Hf. intros k Hk. rewrite <- take_snoc_cons. apply Hq.
        cbn [length]. lia.
    + destruct (IH (<[cur ++ [c] := Dir]> m) (cur ++ [c])) as (m' & Hm' & Hd & Hf & Hs).
      { intros k f Hk. rewrite lookup_insert_ne.
        - rewrite <- take_snoc_cons. apply H. cbn [length]. lia.
        - intros Heq. apply (Hlen k Hk). by rewrite <- Heq. }
      exists m'. split; [done|].
      assert (Hc : m' !! (cur ++ [c]) = Some Dir).
      { rewrite Hf; [apply lookup_insert_eq|].
        intros k Hk Heq. apply (Hlen k Hk). by rewrite <- Heq. }
      split; [|split].
      * intros k Hk. destruct k as [|k]; [lia|]. rewrite take_snoc_cons.
        destruct k as [|k]; [by rewrite take_0, app_nil_r|].
        apply Hd. cbn [length] in Hk. lia.
      * intros q Hq. rewrite Hf.
        -- apply lookup_insert_ne. intros Heq. apply (Hq 1%nat); [cbn; lia|].
           cbn [take]. by rewrite take_0.
        -- intros k Hk. rewrite <- take_snoc_cons. apply Hq. cbn [length]. lia.
      * intros q Hq. destruct (decide (q = cur ++ [c])) as [->|Hne].
        -- rewrite E in Hq. by destruct Hq.
        -- rewrite Hs; [by apply lookup_insert_ne|]. by rewrite lookup_insert_ne.
Qed.

(** [mkdirs_at] succeeds when no file is in the way; it makes the
    missing directories along [p] and touches nothing else. *)
Lemma mkdirs_at_spec m p :
  (forall q c, q `prefix_of` p -> m !! q <> Some (File c)) ->
  exists m',
    mkdirs_at m p = Ok m'
    /\ (forall q, q <> [] -> q `prefix_of` p -> m' !! q = Some Dir)
    /\ (forall q, q = [] \/ ~ q `prefix_of` p -> m' !! q = m !! q)
    /\ (forall q, is_Some (m !! q) -> m' !! q = m !! q).
Proof.
  intros H. destruct (mkdir_at_spec p m []) as (m' & Hm' & Hd & Hf & Hs).
  { intros k c Hk. apply H. apply prefix_take. }
  exists m'. split; [done|]. split; [|split; [|done]].
  - intros q Hq (k & Hk & ->)%prefix_take_iff. apply (Hd k).
    destruct k; [done | lia].
  - intros q Hq. apply Hf. intros k Hk ->. destruct Hq as [Hq|Hq].
    + destruct k; [lia|]. destruct p; [simpl in Hk; lia | discriminate].
    + apply Hq, prefix_take.
Qed.

(** ** Writing *)

Lemma write_at_ok m p data :
  p <> [] -> traverse m p = Ok tt -> m !! p <> Some Dir ->
  write_at m p data = Ok (<[p := File data]> m).
Proof.
  intros Hp Ht Hd. unfold write_at. rewrite Ht. cbn [rbind].
  destruct p; [done|]. cbn [node_at]. by destruct (m !! _) as [[|]|].
Qed.

Lemma read_at_ok m p c :
  traverse m p = Ok tt -> p <> [] -> m !! p = Some (File c) -> read_at m p = Ok c.
Proof.
  intros Ht Hp Hc. unfold read_at. rewrite Ht. cbn [rbind].
  destruct p; [done|]. cbn [node_at]. by rewrite Hc.
Qed.

Lemma read_at_inv m p c :
  read_at m p = Ok c ->
  p <> [] /\ m !! p = Some (File c)
  /\ forall q, q <> [] -> q `prefix_of` removelast p -> m !! q = Some Dir.
Proof.
  unfold read_at. destruct (traverse m p) as [[]|] eqn:Ht; [|done]. cbn [rbind].
  destruct p as [|x p]; [done|]. cbn [node_at].
  destruct (m !! (x :: p)) as [[c'|]|] eqn:E; try done. intros [= ->].
  split; [done|]. split; [done|]. by apply traverse_spec.
Qed.

(** ** Path names: where the calls agree with the locations *)

Lemma PATH_MAX_gt : (1 < PATH_MAX)%nat.
Proof. apply Nat.ltb_lt. reflexivity. Qed.

Lemma names_len_app (p q : path) : names_len (p ++ q) = (names_len p + names_len q)%nat.
Proof. unfold names_len. by rewrite map_app, list_sum_app. Qed.

Lemma path_len_names (p : path) : p <> [] -> path_len p = names_len p.
Proof. by destruct p. Qed.

Lemma path_len_le (p : path) : (path_len p <= S (names_len p))%nat.
Proof. destruct p; [cbn; lia|]. rewrite path_len_names by done. lia. Qed.

Lemma proper_name_spec (c : str) :
  proper_name c = true
  <-> plain_name c = true /\ c <> dotdot
      /\ forallb fs_encodable c = true /\ existsb (N.eqb 0) c = false
      /\ (name_len c <= NAME_MAX)%nat.
Proof.
  unfold proper_name.
  rewrite !andb_true_iff, !negb_true_iff, bool_decide_eq_false, Nat.leb_le. naive_solver.
Qed.

Lemma path_ok_spec (p : path) :
  path_ok p = true
  <-> Forall (fun c => proper_name c = true) p /\ (path_len p < PATH_MAX)%nat.
Proof.
  unfold path_ok. rewrite andb_true_iff, Nat.ltb_lt, forallb_forall, List.Forall_forall.
  done.
Qed.

Lemma path_ok_nil : path_ok [] = true.
Proof. reflexivity. Qed.

Lemma path_ok_app_l (p q : path) : path_ok (p ++ q) = true -> path_ok p = true.
Proof.
  rewrite !path_ok_spec. intros [[Hp _]%Forall_app Hl]. split; [done|].
  destruct q as [|x q]; [by rewrite app_nil_r in Hl|].
  destruct p as [|y p]; [apply PATH_MAX_gt|].
  rewrite path_len_names in * by done. rewrite names_len_app in Hl. lia.
Qed.

Lemma path_ok_prefix (p q : path) : p `prefix_of` q -> path_ok q = true -> path_ok p = true.
Proof. intros [r ->]. apply path_ok_app_l. Qed.

Lemma path_ok_removelast (p : path) : path_ok p = true -> path_ok (removelast p) = true.
Proof.
  intros H. destruct p as [|x p _] using rev_ind; [done|].
  rewrite removelast_last. by apply path_ok_app_l in H.
Qed.

Lemma path_ok_proper (p : path) :
  path_ok p = true -> Forall (fun c => proper_name c = true) p.
Proof. by intros [? _]%path_ok_spec. Qed.

Lemma check_path_ok (p : path) : path_ok p = true -> check_path p = Ok tt.
Proof.
  intros [Hp Hl]%path_ok_spec. unfold check_path.
  assert (forallb (forallb fs_encodable) p = true) as ->.
  { apply forallb_forall. intros c Hc. rewrite List.Forall_forall in Hp.
    by apply Hp, proper_name_spec in Hc as (_ & _ & ? & _). }
  assert (existsb (existsb (N.eqb 0)) p = false) as ->.
  { apply not_true_iff_false. intros (c & Hc & Hz)%existsb_exists.
    rewrite List.Forall_forall in Hp.
    apply Hp, proper_name_spec in Hc as (_ & _ & _ & Hn & _). congruence. }
  cbn [negb]. destruct (Nat.leb_spec PATH_MAX (path_len p)); [lia | done].
Qed.

Lemma walk_dirs_proper m (comps : list str) : forall cur,
  Forall (fun c => proper_name c = true) comps ->
  walk_dirs m cur comps = (_ <- dirs_along m cur comps ;; Ok (cur ++ comps)).
Proof.
  induction comps as [|c rest IH]; intros cur Hall.
  - cbn [walk_dirs dirs_along rbind]. by rewrite app_nil_r.
  - apply Forall_cons in Hall as [Hc Hrest]. cbn [walk_dirs dirs_along].
    apply proper_name_spec in Hc as (_ & Hdd & _ & _ & Hlen).
    rewrite bool_decide_eq_false_2 by done.
    destruct (Nat.ltb_spec NAME_MAX (name_len c)); [lia|].
    destruct (m !! (cur ++ [c])) as [[|]|]; [done| |done].
    rewrite IH by done. by rewrite <- app_assoc.
Qed.

(** A path of entry names resolves to itself, if its directories are
    there. *)
Lemma locate_ok m (p : path) :
  path_ok p = true -> locate m p = (_ <- traverse m p ;; Ok p).
Proof.
  intros Hok. unfold locate, traverse. rewrite (check_path_ok p Hok). cbn [rbind].
  pose proof (path_ok_proper _ Hok) as Hall.
  destruct p as [|x p _] using rev_ind.
  - done.
  - rewrite removelast_last, last_snoc. apply Forall_app in Hall as [Hp Hx].
    apply Forall_cons in Hx as [Hx _].
    rewrite walk_dirs_proper by done. destruct (dirs_along m [] p) as [[]|]; [|done].
    cbn [rbind app]. apply proper_name_spec in Hx as (_ & Hdd & _ & _ & Hlen).
    rewrite bool_decide_eq_false_2 by done.
    by destruct (Nat.ltb_spec NAME_MAX (name_len x)); [lia|].
Qed.

Lemma read_bytes_at m (p : path) : path_ok p = true -> read_bytes m p = read_at m p.
Proof.
  intros Hok. unfold read_bytes, stat, read_at. rewrite locate_ok by done.
  destruct (traverse m p) as [[]|]; [|done]. cbn [rbind].
  by destruct (node_at m p) as [[|]|].
Qed.

Lemma write_bytes_at m (p : path) data :
  path_ok p = true -> write_bytes m p data = write_at m p data.
Proof.
  intros Hok. unfold write_bytes, write_at. rewrite locate_ok by done.
  by destruct (traverse m p) as [[]|].
Qed.

Lemma ignored_traverse m (p : path) e : traverse m p = Err e -> ignored_error e = true.
Proof.
  unfold traverse. generalize (removelast p) (@nil str).
  induction l as [|c rest IH]; intros cur; [done|]. cbn [dirs_along].
  destruct (m !! (cur ++ [c])) as [[|]|]; [by intros [= <-] | apply IH | by intros [= <-]].
Qed.

Lemma Path_exists_at m (p : path) :
  path_ok p = true -> Path_exists m p = Ok (path_exists m p).
Proof.
  intros Hok. unfold Path_exists, stat, path_exists. rewrite locate_ok by done.
  destruct (traverse m p) as [[]|e] eqn:Ht; cbn [rbind].
  - by destruct (node_at m p).
  - by rewrite (ignored_traverse m p e).
Qed.

Lemma Path_is_dir_at m (p : path) :
  path_ok p = true -> Path_is_dir m p = Ok (path_is_dir m p).
Proof.
  intros Hok. unfold Path_is_dir, stat, path_is_dir. rewrite locate_ok by done.
  destruct (traverse m p) as [[]|e] eqn:Ht; cbn [rbind].
  - by destruct (node_at m p) as [[|]|].
  - by rewrite (ignored_traverse m p e).
Qed.

Lemma mkdir_from_at (comps : list str) : forall m cur len m',
  Forall (fun c => proper_name c = true) comps ->
  (len + names_len comps < PATH_MAX)%nat ->
  mkdir_at m cur comps = Ok m' ->
  mkdir_from m cur len comps = (Ok tt, m').
Proof.
  induction comps as [|c rest IH]; intros m cur len m' Hall Hlen Hrun.
  - cbn in Hrun. by injection Hrun as <-.
  - apply Forall_cons in Hall as [Hc Hrest]. cbn [mkdir_at] in Hrun. cbn [mkdir_from].
    apply proper_name_spec in Hc as (_ & Hdd & Henc & Hnull & Hn).
    rewrite Henc, Hnull. cbn [negb]. cbv zeta.
    change (names_len (c :: rest)) with (S (name_len c) + names_len rest)%nat in Hlen.
    destruct (Nat.leb_spec PATH_MAX (len + S (name_len c))); [lia|].
    rewrite bool_decide_eq_false_2 by done.
    destruct (Nat.ltb_spec NAME_MAX (name_len c)); [lia|].
    destruct (m !! (cur ++ [c])) as [[|]|]; [done| |]; apply IH; try done; lia.
Qed.

Lemma makedirs_at m (p : path) m' :
  path_ok p = true -> mkdirs_at m p = Ok m' -> makedirs m p = (Ok tt, m').
Proof.
  intros [Hp Hl]%path_ok_spec Hrun. apply mkdir_from_at; [done| |done].
  destruct p; [cbn; pose proof PATH_MAX_gt; lia|]. by rewrite path_len_names in Hl.
Qed.

Lemma mkdir_parents_at m (p : path) m' :
  path_ok p = true -> mkdirs_at m p = Ok m' -> mkdir_parents m p = (Ok tt, m').
Proof.
  intros Hok Hrun. unfold mkdir_parents. rewrite check_path_ok by done.
  by apply makedirs_at.
Qed.

Lemma children_drop m (p : path) :
  map (fun k => p ++ drop (length p) k) (children m p) = children m p.
Proof.
  rewrite <- (map_id (children m p)) at 2. apply map_ext_in. intros k Hk.
  unfold children in Hk. apply filter_In in Hk as [_ Hk].
  apply bool_decide_eq_true in Hk as [Hne <-].
  destruct k as [|x k _] using rev_ind; [done|].
  by rewrite removelast_last, drop_app_length.
Qed.

Lemma iterdir_at_eq m (p : path) : path_ok p = true -> iterdir m p = iterdir_at m p.
Proof.
  intros Hok. unfold iterdir, iterdir_at. rewrite locate_ok by done.
  destruct (traverse m p) as [[]|]; [|done]. cbn [rbind].
  destruct (node_at m p) as [[|]|]; [done| |done]. by rewrite children_drop.
Qed.

Lemma rmtree_at_ok m (p : path) :
  path_ok p = true -> path_is_dir m p = true -> rmtree m p = rmtree_at m p.
Proof.
  intros Hok Hd. unfold rmtree. rewrite locate_ok by done.
  unfold path_is_dir in Hd. by destruct (traverse m p) as [[]|].
Qed.

Lemma unlink_at_eq m (p : path) : path_ok p = true -> unlink m p = unlink_at m p.
Proof.
  intros Hok. unfold unlink. rewrite locate_ok by done. unfold unlink_at.
  destruct (traverse m p) as [[]|] eqn:E; cbn [rbind]; [by rewrite E | done].
Qed.

(** In a well-formed file system, what is there has a path of entry
    names that the system takes. *)
Lemma wf_fs_path_ok m (p : path) : wf_fs m -> is_Some (m !! p) -> path_ok p = true.
Proof. intros Hwf Hp. by destruct (Hwf p Hp) as (_ & _ & ?). Qed.

Lemma path_is_dir_ok m (p : path) : wf_fs m -> path_is_dir m p = true -> path_ok p = true.
Proof.
  intros Hwf Hd. destruct p as [|x p]; [done|].
  apply (wf_fs_path_ok m); [done|]. unfold path_is_dir in Hd.
  destruct (traverse m (x :: p)); [|done]. cbn [node_at] in Hd.
  by destruct (m !! (x :: p)).
Qed.

Lemma read_at_path_ok m (p : path) c : wf_fs m -> read_at m p = Ok c -> path_ok p = true.
Proof.
  intros Hwf Hr. unfold read_at in Hr. destruct (traverse m p); [|done]. cbn [rbind] in Hr.
  destruct p as [|x p]; [done|]. cbn [node_at] in Hr.
  apply (wf_fs_path_ok m); [done|]. by destruct (m !! (x :: p)).
Qed.

(** ** Running computations *)

Lemma printed_printed w l1 l2 : printed (printed w l1) l2 = printed w (l1 ++ l2).
Proof. unfold printed. cbn. by rewrite <- app_assoc. Qed.

Lemma print_eq line w : print line w = (Ok tt, printed w [line]).
Proof. reflexivity. Qed.

Lemma bind_print {A : Type} line (k : M A) w :
  (print line ;;; k) w = k (printed w [line]).
Proof. reflexivity. Qed.

Lemma bind_lift_Ok {A B : Type} (a : A) (k : A -> M B) w : (x <~ lift (Ok a) ;; k x) w = k a w.
Proof. reflexivity. Qed.

Lemma bind_lift_Err {A B : Type} e (k : A -> M B) w : (x <~ lift (Err e) ;; k x) w = (Err e, w).
Proof. reflexivity. Qed.

Lemma bind_with_fs {A B : Type} (f : gmap path node -> result A) (k : A -> M B) w :
  (x <~ with_fs f ;; k x) w
  = match f (fs w) with Ok a => k a w | Err e => (Err e, w) end.
Proof. unfold bind, with_fs. by destruct (f (fs w)). Qed.

Lemma bind_update_fs {B : Type} (f : gmap path node -> result (gmap path node)) (k : M B) w :
  (update_fs f ;;; k) w
  = match f (fs w) with Ok m' => k (with_files w m') | Err e => (Err e, w) end.
Proof. unfold bind, update_fs. by destruct (f (fs w)). Qed.

(** ** C10: an empty selection *)

Section Backup_empty.
Variable get_matching_files : config -> gmap path node -> result (list path).
Variables Repo_open Repo_init Repo_commit_and_push : path -> M unit.

Lemma bind_modify_fs {B : Type} (f : gmap path node -> result unit * gmap path node)
    (k : M B) w m' :
  f (fs w) = (Ok tt, m') -> (modify_fs f ;;; k) w = k (with_files w m').
Proof. intros H. unfold bind, modify_fs. by rewrite H. Qed.

(** C10. When no file is selected, [backup] returns without touching
    the file system: nothing is deleted, nothing is written, the
    repository is not even opened; it reads no entropy and prints its
    five lines and "No files found to backup. Exiting.". This holds
    whatever the calls into git would have done. *)
Theorem C10_empty_selection (cfg : config) (w : world) (e : BackupEncryptor.t) :
  BackupEncryptor.__init__ (password cfg) = Ok e ->
  get_matching_files cfg (fs w) = Ok [] ->
  exists w',
    backup get_matching_files Repo_open Repo_init Repo_commit_and_push cfg w = (Ok tt, w')
    /\ fs w' = fs w /\ consumed w' = consumed w /\ entropy w' = entropy w
    /\ stdout w' = stdout w ++
         [ banner; str_of_string "Git-Backup-Enc: Starting backup process"; banner;
           10 :: str_of_string "Scanning for files to backup...";
           str_of_string "Found 0 files to backup";
           str_of_string "No files found to backup. Exiting." ].
Proof.
  intros He Hsel. unfold backup.
  rewrite !bind_print, He, bind_lift_Ok, bind_print, bind_with_fs.
  cbn [printed fs]. rewrite Hsel, bind_print, print_eq.
  eexists. split; [reflexivity|]. rewrite !printed_printed.
  repeat split.
Qed.
End Backup_empty.

(** ** Restoring: one entry *)

Lemma removelast_take {A} (t : list A) : removelast t = take (length t - 1) t.
Proof.
  destruct (snoc_inv t) as [->|(l & x & ->)]; [done|].
  rewrite removelast_last, length_app. cbn [length].
  replace (length l + 1 - 1)%nat with (length l) by lia. by rewrite take_app_length.
Qed.

Lemma prefix_removelast_iff {A} (q t : list A) :
  q `prefix_of` removelast t <-> exists k, (k < length t \/ t = [])%nat /\ q = take k t.
Proof.
  rewrite removelast_take, prefix_take_iff. split.
  - intros (k & Hk & ->). rewrite length_take in Hk. exists k. rewrite take_take.
    split; [|f_equal; lia]. destruct t; [by right | left; cbn in *; lia].
  - intros (k & Hk & ->). destruct Hk as [Hk| ->].
    + exists k. rewrite length_take, take_take. split; [lia | f_equal; lia].
    + exists 0%nat. split; [cbn; lia | by rewrite !take_nil].
Qed.

Lemma writable_spec m t :
  writable m t = true
  <-> t <> [] /\ (forall q c, q `prefix_of` removelast t -> m !! q <> Some (File c))
      /\ m !! t <> Some Dir /\ path_ok t = true.
Proof.
  unfold writable. rewrite !andb_true_iff, negb_true_iff, bool_decide_eq_false.
  rewrite forallb_forall. split.
  - intros [[[Hp Hd] Ht] Hok]. split; [done|]. split; [|split; [|done]].
    + intros q c (k & Hk & ->)%prefix_removelast_iff Hq.
      destruct Hk as [Hk|Hk]; [|done].
      specialize (Hp k). rewrite Hq in Hp. discriminate Hp. apply in_seq. lia.
    + intros Hq. by rewrite Hq in Hd.
  - intros (Ht & Hp & Hd & Hok). split; [split; [split|done]|done].
    + intros k Hk%in_seq. destruct (m !! take k t) as [[c|]|] eqn:E; try done.
      exfalso. apply (Hp (take k t) c); [|done].
      apply prefix_removelast_iff. exists k. split; [lia|done].
    + by destruct (m !! t) as [[|]|].
Qed.

Lemma entry_src_relative b k :
  absolute (PurePath_of_str k) = false -> entry_src b k = b ++ parts (PurePath_of_str k).
Proof. intros H. unfold entry_src, joinpath. by rewrite H. Qed.

Lemma entry_dst_relative r s :
  absolute (PurePath_of_str s) = false -> entry_dst r s = r ++ parts (PurePath_of_str s).
Proof. intros H. unfold entry_dst, joinpath. by rewrite H. Qed.

Lemma prefix_of_app_cases {A} (q b l : list A) :
  q `prefix_of` b ++ l -> q `prefix_of` b \/ b `prefix_of` q.
Proof. intros H. eapply prefix_weak_total; [exact H|]. by apply prefix_app_r. Qed.

Lemma same_mirror_present b m m' kv :
  same_mirror b m m' -> absolute (PurePath_of_str kv.1) = false ->
  present b m' kv = present b m kv.
Proof.
  intros Hs Hrel. unfold present. rewrite entry_src_relative by done.
  apply path_exists_ext. intros q _ Hq. apply Hs.
  destruct (prefix_of_app_cases _ _ _ Hq); auto.
Qed.

Lemma same_mirror_plaintext d b m m' kv :
  same_mirror b m m' -> absolute (PurePath_of_str kv.1) = false ->
  plaintext d b m' kv = plaintext d b m kv.
Proof.
  intros Hs Hrel. unfold plaintext. rewrite entry_src_relative by done.
  rewrite (read_at_ext m' m); [done|]. intros q _ Hq. apply Hs.
  destruct (prefix_of_app_cases _ _ _ Hq); auto.
Qed.

Lemma same_mirror_is_dir b m m' :
  same_mirror b m m' -> path_is_dir m' b = path_is_dir m b.
Proof. intros Hs. apply path_is_dir_ext. intros q _ Hq. apply Hs. by right. Qed.

Lemma same_mirror_trans b m1 m2 m3 :
  same_mirror b m1 m2 -> same_mirror b m2 m3 -> same_mirror b m1 m3.
Proof. intros H1 H2 q Hq. by rewrite H2, H1. Qed.

Lemma mkdirs_at_ok m p :
  (forall q c, q `prefix_of` p -> m !! q <> Some (File c)) ->
  exists m',
    mkdirs_at m p = Ok m' /\ dirs_added m m' p
    /\ (forall q, q <> [] -> q `prefix_of` p -> m' !! q = Some Dir).
Proof.
  intros H. destruct (mkdirs_at_spec m p H) as (m' & Hm' & Hd & Hf & Hs).
  exists m'. split; [done|]. split; [|done]. split; [done|].
  intros q Hq. destruct (decide (q = [])) as [->|Hne]; [left; apply Hf; by left|].
  destruct (m !! q) as [n|] eqn:E.
  - left. rewrite <- E. apply Hs. by rewrite E.
  - right. split; [done|]. by apply Hd.
Qed.

Lemma dirs_added_same_mirror b m m' p :
  path_is_dir m b = true -> ~ b `prefix_of` p -> dirs_added m m' p -> same_mirror b m m'.
Proof.
  intros Hb Hp [Hf Hd] q Hq.
  destruct (decide (q = [])) as [->|Hne]; [apply Hf; by left|].
  destruct (decide (q `prefix_of` p)) as [Hqp|Hqp]; [|apply Hf; by right].
  destruct Hq as [Hq|Hq]; [exfalso; apply Hp; by etrans|].
  destruct (Hd q Hqp) as [|[Hn _]]; [done|].
  by rewrite (proj1 (path_is_dir_spec m b) Hb q) in Hn.
Qed.

Lemma insert_same_mirror b m t c :
  path_is_dir m b = true -> ~ b `prefix_of` t -> t <> [] -> m !! t <> Some Dir ->
  same_mirror b m (<[t := File c]> m).
Proof.
  intros Hb Ht Hne Hd q Hq. apply lookup_insert_ne. intros ->.
  destruct Hq as [Hq|Hq]; [done|].
  apply Hd. by apply (proj1 (path_is_dir_spec m b) Hb).
Qed.

Lemma dirs_added_writable m m' p t :
  dirs_added m m' p -> ~ t `prefix_of` p -> writable m t = true -> writable m' t = true.
Proof.
  intros [Hf Hd] Htp (Hne & Hp & Ht & Hok)%writable_spec. apply writable_spec.
  split; [done|]. split; [|split; [|done]].
  - intros q c Hq Hc. destruct (decide (q `prefix_of` p)) as [Hqp|Hqp].
    + destruct (Hd q Hqp) as [E|[_ E]]; [|congruence].
      apply (Hp q c Hq). by rewrite <- E.
    + apply (Hp q c Hq). rewrite <- Hf; [done | by right].
  - rewrite Hf; [done | by right].
Qed.

Lemma insert_writable m t t' c :
  ~ t `prefix_of` t' -> writable m t' = true -> writable (<[t := File c]> m) t' = true.
Proof.
  intros Htt (Hne & Hp & Ht & Hok)%writable_spec. apply writable_spec.
  split; [done|]. split; [|split; [|done]].
  - intros q c' Hq. rewrite lookup_insert_ne; [by apply Hp|].
    intros ->. apply Htt. by apply prefix_removelast.
  - rewrite lookup_insert_ne; [done|]. by intros ->.
Qed.

(** What restoring one entry does to the file system. *)
Lemma decrypt_file_ok d src dst w blob data :
  path_ok src = true ->
  read_at (fs w) src = Ok blob -> BackupDecryptor.decrypt_data d blob = Ok data ->
  writable (fs w) dst = true ->
  exists m1,
    decrypt_file d src dst w = (Ok tt, with_files w (<[dst := File data]> m1))
    /\ dirs_added (fs w) m1 (removelast dst) /\ m1 !! dst <> Some Dir
    /\ (forall q, q <> [] -> q `prefix_of` removelast dst -> m1 !! q = Some Dir).
Proof.
  intros Hsrc Hr Hd Hw. pose proof Hw as (Hne & Hp & Ht & Hok)%writable_spec.
  destruct (mkdirs_at_ok (fs w) (removelast dst) Hp) as (m1 & Hm1 & Hadd & Hdirs).
  assert (Hnp : ~ dst `prefix_of` removelast dst).
  { intros Hpre%prefix_length. destruct (snoc_inv dst) as [->|(l & x & ->)]; [done|].
    rewrite removelast_last, length_app in Hpre. cbn in Hpre. lia. }
  assert (Hd1 : m1 !! dst <> Some Dir).
  { destruct Hadd as [Hf _]. rewrite Hf; [done | by right]. }
  exists m1. split; [|done].
  unfold decrypt_file. rewrite bind_with_fs, read_bytes_at, Hr, Hd, bind_lift_Ok by done.
  rewrite (bind_modify_fs _ _ _ m1) by (by apply makedirs_at; [apply path_ok_removelast|]).
  unfold update_fs, with_files. cbn [fs]. rewrite write_bytes_at by done.
  rewrite write_at_ok; [done | done | | done].
  apply traverse_spec. intros q Hq Hpre. by apply Hdirs.
Qed.

Lemma restorable_spec d b r m kv :
  restorable d b r m kv = true
  <-> exists s,
        kv.2 = JString s
        /\ absolute (PurePath_of_str kv.1) = false
        /\ absolute (PurePath_of_str s) = false
        /\ parts (PurePath_of_str s) <> []
        /\ ~ b `prefix_of` entry_dst r s
        /\ writable m (entry_dst r s) = true
        /\ (present b m kv = true -> exists data, plaintext d b m kv = Ok data)
        /\ path_ok (entry_src b kv.1) = true.
Proof.
  unfold restorable. destruct (kv.2) as [| | |s| |]; try (split; [done | by intros (? & ? & _)]).
  rewrite !andb_true_iff, !negb_true_iff, !bool_decide_eq_false. split.
  - intros [[[[[[H1 H2] H3] H4] H5] H6] H7]. exists s. repeat (split; [done|]).
    split; [|done].
    intros Hp. rewrite Hp in H6. destruct (plaintext d b m kv); [by eexists | done].
  - intros (s' & [= <-] & H1 & H2 & H3 & H4 & H5 & H6 & H7).
    split; [|done]. split; [by repeat split|].
    destruct (present b m kv); [|done]. by destruct (H6 eq_refl) as [data ->].
Qed.

(** The conditions on an entry survive a change of the file system that
    leaves the mirror alone and keeps the destination writable. *)
Lemma restorable_step d b r m m' kv :
  restorable d b r m kv = true -> same_mirror b m m' ->
  (forall s, kv.2 = JString s -> writable m' (entry_dst r s) = true) ->
  restorable d b r m' kv = true.
Proof.
  intros (s & Hs & H1 & H2 & H3 & H4 & H5 & H6 & H7)%restorable_spec Hsame Hw.
  apply restorable_spec. exists s. repeat (split; [done|]). split; [by apply Hw|].
  split; [|done].
  rewrite (same_mirror_present b m m'), (same_mirror_plaintext d b m m') by done.
  exact H6.
Qed.

Lemma incomparable_cons t ts :
  incomparable (t :: ts) = true ->
  Forall (fun t' => ~ t `prefix_of` t' /\ ~ t' `prefix_of` t) ts /\ incomparable ts = true.
Proof.
  cbn [incomparable]. rewrite andb_true_iff, forallb_forall. intros [H1 H2]. split; [|done].
  apply List.Forall_forall. intros t' Ht'. specialize (H1 t' Ht').
  rewrite andb_true_iff, !negb_true_iff, !bool_decide_eq_false in H1. exact H1.
Qed.

Lemma prefix_removelast_not {A} (t p : list A) :
  ~ t `prefix_of` p -> ~ t `prefix_of` removelast p.
Proof. intros H Hp. by apply H, prefix_removelast. Qed.

Lemma not_prefix_removelast_self {A} (t : list A) :
  t <> [] -> ~ t `prefix_of` removelast t.
Proof.
  intros Hne Hpre%prefix_length. destruct (snoc_inv t) as [->|(l & x & ->)]; [done|].
  rewrite removelast_last, length_app in Hpre. cbn in Hpre. lia.
Qed.

(** ** Restoring: the loop *)

Lemma restore_files_spec d b r : forall items n w,
  path_is_dir (fs w) b = true ->
  forallb (restorable d b r (fs w)) items = true ->
  incomparable (entry_dsts r items) = true ->
  exists w',
    restore_files d b r items n w
    = (Ok (n + length (List.filter (present b (fs w)) items))%nat, w')
    /\ same_mirror b (fs w) (fs w')
    /\ stdout w' = stdout w ++ map (restore_line b (fs w)) items
    /\ consumed w' = consumed w /\ entropy w' = entropy w
    /\ (forall kv, In kv items -> present b (fs w) kv = true ->
          exists s data, kv.2 = JString s /\ plaintext d b (fs w) kv = Ok data
                         /\ fs w' !! entry_dst r s = Some (File data))
    /\ (forall q, is_Some (fs w !! q) -> ~ In q (entry_dsts r items) ->
          fs w' !! q = fs w !! q)
    /\ (forall q,
          (forall kv s, In kv items -> present b (fs w) kv = true -> kv.2 = JString s ->
                        ~ q `prefix_of` entry_dst r s) ->
          fs w' !! q = fs w !! q)
    /\ (forall kv s q, In kv items -> present b (fs w) kv = true -> kv.2 = JString s ->
          q <> [] -> q `prefix_of` removelast (entry_dst r s) -> fs w' !! q = Some Dir).
Proof.
  induction items as [|kv rest IH]; intros n w Hb Hall Hinc.
  { exists w. cbn [restore_files List.filter length map]. unfold ret.
    rewrite Nat.add_0_r, app_nil_r. repeat split; try done; by intros kv []. }
  cbn [forallb] in Hall. apply andb_prop in Hall as [Hkv Hrest].
  pose proof Hkv as (s & Hs & Hk & Hsr & Hps & Hout & Hw & Hplain & Hsrc)%restorable_spec.
  cbn [entry_dsts map] in Hinc. rewrite Hs in Hinc. fold (entry_dsts r rest) in Hinc.
  apply incomparable_cons in Hinc as [Hothers Hinc].
  destruct kv as [k v]. cbn [fst snd] in *. subst v.
  cbn [restore_files]. rewrite bind_lift_Ok, bind_with_fs. cbn beta iota.
  fold (entry_src b k). fold (entry_dst r s). rewrite Path_exists_at by done.
  change (path_exists (fs w) (entry_src b k)) with (present b (fs w) (k, JString s)).
  cbn [List.filter map]. unfold restore_line at 1.
  destruct (present b (fs w) (k, JString s)) eqn:Hpres; cbn [negb snd fst].
  - (* the encrypted file is there: it is decrypted and written *)
    destruct (Hplain eq_refl) as [data Hdata]. pose proof Hdata as Hdata'.
    unfold plaintext in Hdata'. cbn [fst] in Hdata'.
    destruct (read_at (fs w) (entry_src b k)) as [blob|] eqn:Hread; [|done].
    cbn [rbind] in Hdata'.
    destruct (decrypt_file_ok d (entry_src b k) (entry_dst r s) w blob data Hsrc Hread
                Hdata' Hw)
      as (m1 & Hrun & Hadd & Hd1 & Hdirs).
    pose proof (proj1 (writable_spec _ _) Hw) as (Hne & _ & _).
    assert (Hs1 : same_mirror b (fs w) m1).
    { eapply dirs_added_same_mirror; [done| |done]. by apply prefix_removelast_not. }
    assert (Hb1 : path_is_dir m1 b = true) by (by rewrite (same_mirror_is_dir b (fs w))).
    set (m2 := <[entry_dst r s := File data]> m1).
    assert (Hs2 : same_mirror b (fs w) m2).
    { eapply same_mirror_trans; [exact Hs1|]. by apply insert_same_mirror. }
    assert (Hkeep : forall q, is_Some (fs w !! q) -> q <> entry_dst r s -> m2 !! q = fs w !! q).
    { intros q Hq Hne'. unfold m2. rewrite lookup_insert_ne by done.
      destruct Hadd as [Hf Hd]. destruct (decide (q `prefix_of` removelast (entry_dst r s))).
      - destruct (Hd q) as [|[Hn _]]; [done..|]. rewrite Hn in Hq. by destruct Hq.
      - apply Hf. by right. }
    unfold bind at 1. rewrite Hrun, bind_print.
    match goal with |- context [restore_files d b r rest (S n) ?ww] => set (w2 := ww) end.
    destruct (IH (S n) w2)
      as (w' & Hrun' & Hs' & Hout' & Hc' & He' & Hfiles' & Hkeep' & Hfar' & Hmade').
    { by rewrite (same_mirror_is_dir b (fs w)). }
    { apply forallb_forall. intros kv' Hin.
      pose proof (proj1 (forallb_forall _ _) Hrest kv' Hin) as Hkv'.
      apply (restorable_step d b r (fs w)); [done | exact Hs2 |].
      intros s' Hs'. apply restorable_spec in Hkv' as (s'' & Hs'' & _ & _ & _ & _ & Hw' & _).
      assert (s'' = s') as -> by congruence.
      assert (Hin' : In (entry_dst r s') (entry_dsts r rest)).
      { unfold entry_dsts. apply in_map_iff. exists kv'. by rewrite Hs'. }
      pose proof (proj1 (List.Forall_forall _ _) Hothers _ Hin') as [Hn1 Hn2].
      apply insert_writable; [done|].
      eapply dirs_added_writable; [exact Hadd | by apply prefix_removelast_not | done]. }
    { done. }
    assert (Hext : forall kv', In kv' rest ->
              present b m2 kv' = present b (fs w) kv'
              /\ plaintext d b m2 kv' = plaintext d b (fs w) kv').
    { intros kv' Hin.
      pose proof (proj1 (forallb_forall _ _) Hrest kv' Hin)
        as (? & _ & Hrel & _)%restorable_spec.
      split; [by apply (same_mirror_present b (fs w))
             | by apply (same_mirror_plaintext d b (fs w))]. }
    assert (Hfilter : List.filter (present b m2) rest = List.filter (present b (fs w)) rest).
    { apply filter_ext_in. intros kv' Hin. by apply Hext. }
    assert (Hlines : map (restore_line b m2) rest = map (restore_line b (fs w)) rest).
    { apply map_ext_in. intros kv' Hin. unfold restore_line.
      by rewrite (proj1 (Hext kv' Hin)). }
    assert (Hnotin : ~ In (entry_dst r s) (entry_dsts r rest)).
    { intros Hin. by destruct (proj1 (List.Forall_forall _ _) Hothers _ Hin) as [[] _]. }
    exists w'. subst w2. cbn [fs stdout consumed entropy printed with_files] in *.
    fold m2. fold m2 in Hrun', Hs', Hout', Hfiles', Hkeep', Hfar', Hmade'.
    rewrite Hfilter in Hrun'.
    split; [rewrite Hrun'; cbn [length]; do 2 f_equal; lia|].
    split; [by eapply same_mirror_trans|].
    split; [by rewrite Hout', Hlines, <- app_assoc|].
    split; [done|]. split; [done|]. split; [|split; [|split]].
    + intros kv' [<-|Hin] Hp'.
      * exists s, data. split; [done|]. split; [done|].
        rewrite Hkeep'; [apply lookup_insert_eq | | done].
        unfold m2. by rewrite lookup_insert_eq.
      * destruct (Hext kv' Hin) as [E1 E2]. rewrite <- E1 in Hp'.
        destruct (Hfiles' kv' Hin Hp') as (s' & data' & ? & ? & ?).
        exists s', data'. by rewrite <- E2.
    + intros q Hq Hnin. cbn [entry_dsts map snd] in Hnin.
      assert (q <> entry_dst r s) by (intros ->; apply Hnin; by left).
      assert (~ In q (entry_dsts r rest)) by (intros ?; apply Hnin; by right).
      rewrite Hkeep' by (rewrite ?Hkeep; done). by apply Hkeep.
    + intros q Hq.
      assert (Hqs : ~ q `prefix_of` entry_dst r s).
      { apply (Hq (k, JString s) s); [by left | done | done]. }
      rewrite Hfar'.
      * unfold m2. rewrite lookup_insert_ne by (intros E; apply Hqs; by rewrite E).
        destruct Hadd as [Hf _]. apply Hf. right. by apply prefix_removelast_not.
      * intros kv' s' Hin Hp' Hs''. apply (Hq kv' s'); [by right | | done].
        by rewrite <- (proj1 (Hext kv' Hin)).
    + intros kv' s' q [<-|Hin] Hp' Hs'' Hq0 Hq.
      * cbn [snd] in Hs''. assert (s' = s) as -> by congruence.
        assert (Hm2q : m2 !! q = Some Dir).
        { unfold m2. rewrite lookup_insert_ne; [by apply Hdirs|].
          intros <-. revert Hq. apply not_prefix_removelast_self. done. }
        rewrite Hkeep'; [done | by rewrite Hm2q |].
        intros Hin. destruct (proj1 (List.Forall_forall _ _) Hothers _ Hin) as [_ Hn].
        apply Hn. by apply prefix_removelast.
      * destruct (Hext kv' Hin) as [E1 _]. rewrite <- E1 in Hp'.
        by apply (Hmade' kv' s').
  - (* the encrypted file is missing: a warning, and on to the next entry *)
    rewrite bind_print.
    match goal with |- context [restore_files d b r rest n ?ww] => set (w1 := ww) end.
    destruct (IH n w1)
      as (w' & Hrun' & Hs' & Hout' & Hc' & He' & Hfiles' & Hkeep' & Hfar' & Hmade');
      [done..|].
    exists w'. subst w1. cbn [fs stdout consumed entropy printed] in *.
    split; [done|]. split; [done|].
    split; [by rewrite Hout', <- app_assoc|].
    split; [done|]. split; [done|]. split; [|split; [|split]].
    + intros kv' [<-|Hin] Hp'; [congruence | by apply Hfiles'].
    + intros q Hq Hnin. apply Hkeep'; [done|]. intros ?. apply Hnin. by right.
    + intros q Hq. apply Hfar'. intros kv' s' Hin. apply Hq. by right.
    + intros kv' s' q [<-|Hin] Hp'; [congruence | by apply (Hmade' kv' s')].
Qed.

(** ** Restoring: the run *)

Lemma read_at_exists m p c : read_at m p = Ok c -> path_exists m p = true.
Proof.
  unfold read_at, path_exists. destruct (traverse m p) as [[]|]; [|done].
  cbn [rbind]. by destruct (node_at m p) as [[|]|].
Qed.

Lemma read_at_in_dir m b x c : read_at m (b ++ [x]) = Ok c -> path_is_dir m b = true.
Proof.
  intros (_ & _ & H)%read_at_inv. rewrite removelast_last in H.
  by apply path_is_dir_spec.
Qed.

Lemma filter_length_lt {A} (f : A -> bool) (l : list A) :
  existsb (fun x => negb (f x)) l = true -> (length (List.filter f l) < length l)%nat.
Proof.
  induction l as [|a l IH]; [done|]. cbn [existsb List.filter].
  pose proof (List.filter_length_le f l).
  destruct (f a); cbn [negb orb length]; [intros ?%IH|]; lia.
Qed.

Lemma incomparable_map_In {A} (f : A -> path) (l : list A) :
  incomparable (map f l) = true ->
  forall x y, In x l -> In y l -> x <> y -> ~ f x `prefix_of` f y.
Proof.
  induction l as [|a l IH]; [by intros _ x y []|].
  cbn [map]. intros [Ho Hi]%incomparable_cons x y [<-|Hx] [<-|Hy] Hne; [done| | |by apply IH].
  - apply (proj1 (List.Forall_forall _ _) Ho). by apply in_map.
  - apply (proj1 (List.Forall_forall _ _) Ho). by apply in_map.
Qed.

Lemma app_not_prefix {A} (r ps : list A) : ps <> [] -> ~ r ++ ps `prefix_of` r.
Proof.
  intros Hne Hp%prefix_length. rewrite length_app in Hp. destruct ps; [done|]. cbn in Hp. lia.
Qed.

Lemma prefix_removelast_app {A} (q r ps : list A) :
  ps <> [] -> q `prefix_of` r -> q `prefix_of` removelast (r ++ ps).
Proof.
  intros Hne Hq. destruct (snoc_inv ps) as [->|(l & x & ->)]; [done|].
  rewrite app_assoc, removelast_last. by apply prefix_app_r.
Qed.

(** C8. The mirror holds a mapping that decrypts and parses, every entry
    of it can be restored if its encrypted file is there (the file
    decrypts and its destination can be written; the paths of both are
    paths of entry names that the system takes, so without [..] and
    without a name over 255 bytes), and the encrypted file of at least
    one entry is missing. Then [restore] completes once the
    mirror is in place: it prints one line per entry in the order of the
    mapping, a warning for each missing one, whose destination is left
    as it was, and a confirmation for each other one, whose plaintext is
    at its destination afterwards; the count that it reports is the
    number of entries that were there, which is less than the number of
    entries. *)
Theorem C8_partial_mirror (cfg : config) (d : BackupDecryptor.t) (w : world)
    (blob data : bytes) (text : str) (items : list (str * json)) :
  path_ok (backup_dir cfg ++ [mapping_enc]) = true ->
  read_at (fs w) (backup_dir cfg ++ [mapping_enc]) = Ok blob ->
  BackupDecryptor.decrypt_data d blob = Ok data ->
  bytes_decode_utf8 data = Ok text ->
  json_loads text = Ok (JObject items) ->
  forallb (restorable d (backup_dir cfg) (restore_dir cfg) (fs w)) items = true ->
  incomparable (entry_dsts (restore_dir cfg) items) = true ->
  existsb (fun kv => negb (present (backup_dir cfg) (fs w) kv)) items = true ->
  exists w' n,
    restore_mirror cfg d w = (Ok tt, w')
    /\ n = length (List.filter (present (backup_dir cfg) (fs w)) items)
    /\ (n < length items)%nat
    /\ stdout w' = stdout w ++
         [ 10 :: str_of_string "Reading file mapping...";
           str_of_string "Found " ++ str_of_nat (length items)
             ++ str_of_string " files to restore";
           10 :: str_of_string "Decrypting and restoring files..." ]
         ++ map (restore_line (backup_dir cfg) (fs w)) items
         ++ [ 10 :: str_of_string "Restore completed: " ++ str_of_nat n
                ++ str_of_string " files decrypted and restored";
              str_of_string "Files restored to: " ++ PurePath_str (Path_abs (restore_dir cfg));
              10 :: banner;
              str_of_string "Restore process completed successfully!";
              banner ]
    /\ (forall kv, In kv items -> present (backup_dir cfg) (fs w) kv = false ->
          restore_line (backup_dir cfg) (fs w) kv
          = str_of_string "  Warning: Encrypted file not found: " ++ kv.1
          /\ forall s, kv.2 = JString s ->
               fs w' !! entry_dst (restore_dir cfg) s = fs w !! entry_dst (restore_dir cfg) s)
    /\ (forall kv, In kv items -> present (backup_dir cfg) (fs w) kv = true ->
          exists s plain,
            kv.2 = JString s
            /\ restore_line (backup_dir cfg) (fs w) kv = str_of_string "  Restored: " ++ s
            /\ plaintext d (backup_dir cfg) (fs w) kv = Ok plain
            /\ fs w' !! entry_dst (restore_dir cfg) s = Some (File plain))
    /\ same_mirror (backup_dir cfg) (fs w) (fs w').
Proof.
  set (b := backup_dir cfg). set (r := restore_dir cfg).
  intros Hmok Hread Hdec Hutf Hjson Hall Hinc Hmiss.
  pose proof (read_at_in_dir _ _ _ _ Hread) as Hb.
  (* the restore directory can be made: it is on the way to a destination *)
  assert (Hr : forall q c, q `prefix_of` r -> fs w !! q <> Some (File c)).
  { destruct items as [|kv0 rest]; [done|]. cbn [forallb] in Hall.
    apply andb_prop in Hall as [(s & _ & _ & Hrel & Hps & _ & Hw & _)%restorable_spec _].
    apply writable_spec in Hw as (_ & Hp & _). intros q c Hq. apply Hp.
    rewrite entry_dst_relative by done. by apply prefix_removelast_app. }
  destruct (mkdirs_at_ok (fs w) r Hr) as (m1 & Hm1 & Hadd & _).
  assert (Hrok : path_ok r = true).
  { destruct items as [|kv0 rest]; [done|]. cbn [forallb] in Hall.
    apply andb_prop in Hall as [(s & _ & _ & Hrel & _ & _ & Hw & _)%restorable_spec _].
    apply writable_spec in Hw as (_ & _ & _ & Hok).
    rewrite entry_dst_relative in Hok by done. by apply path_ok_app_l in Hok. }
  assert (Hdst : forall kv s, In kv items -> kv.2 = JString s ->
            entry_dst r s = r ++ parts (PurePath_of_str s)
            /\ parts (PurePath_of_str s) <> [] /\ ~ b `prefix_of` entry_dst r s
            /\ absolute (PurePath_of_str kv.1) = false).
  { intros kv s Hin Hs.
    pose proof (proj1 (forallb_forall _ _) Hall kv Hin)
      as (s' & Hs' & Hk & Hrel & Hps & Hout & _)%restorable_spec.
    assert (s' = s) as -> by congruence. split; [by apply entry_dst_relative|done]. }
  assert (Hbr : ~ b `prefix_of` r).
  { destruct items as [|kv0 rest]; [done|].
    pose proof (proj1 (forallb_forall _ _) Hall kv0 (or_introl eq_refl))
      as (s & Hs & _)%restorable_spec.
    destruct (Hdst kv0 s (or_introl eq_refl) Hs) as (E & _ & Hout & _).
    intros Hpre. apply Hout. rewrite E. by apply prefix_app_r. }
  assert (Hs1 : same_mirror b (fs w) m1) by (by eapply dirs_added_same_mirror).
  assert (Hext : forall kv, In kv items ->
            present b m1 kv = present b (fs w) kv
            /\ plaintext d b m1 kv = plaintext d b (fs w) kv).
  { intros kv Hin.
    pose proof (proj1 (forallb_forall _ _) Hall kv Hin) as (? & _ & Hrel & _)%restorable_spec.
    split; [by apply (same_mirror_present b (fs w))
           | by apply (same_mirror_plaintext d b (fs w))]. }
  unfold restore_mirror. fold b r.
  rewrite bind_with_fs, Path_exists_at, (read_at_exists _ _ _ Hread) by done. cbn [negb].
  rewrite bind_print, bind_with_fs. cbn [printed fs].
  rewrite read_bytes_at, Hread, Hdec, bind_lift_Ok by done.
  rewrite Hutf, bind_lift_Ok, Hjson, bind_lift_Ok. cbn [py_len py_items].
  rewrite bind_lift_Ok, bind_print.
  rewrite (bind_modify_fs _ _ _ m1) by (by apply mkdir_parents_at).
  rewrite bind_print, bind_lift_Ok.
  unfold bind at 1.
  match goal with |- context [restore_files d b r items 0 ?ww] => set (w1 := ww) end.
  destruct (restore_files_spec d b r items 0 w1)
    as (w2 & Hrun & Hs2 & Hout & _ & _ & Hfiles & _ & Hfar & _).
  { subst w1. cbn [fs printed with_files]. by rewrite (same_mirror_is_dir b (fs w)). }
  { subst w1. cbn [fs printed with_files]. apply forallb_forall. intros kv Hin.
    apply (restorable_step d b r (fs w)); [|done|].
    - exact (proj1 (forallb_forall _ _) Hall kv Hin).
    - intros s Hs. destruct (Hdst kv s Hin Hs) as (E & Hps & _).
      pose proof (proj1 (forallb_forall _ _) Hall kv Hin)
        as (s' & Hs' & _ & _ & _ & _ & Hw & _)%restorable_spec.
      assert (s' = s) as -> by congruence.
      eapply dirs_added_writable; [exact Hadd| |done].
      rewrite E. by apply app_not_prefix. }
  { done. }
  subst w1. cbn [fs stdout printed with_files] in Hrun, Hs2, Hout, Hfiles, Hfar.
  assert (Hfilter : List.filter (present b m1) items = List.filter (present b (fs w)) items).
  { apply filter_ext_in. intros kv Hin. by apply Hext. }
  assert (Hlines : map (restore_line b m1) items = map (restore_line b (fs w)) items).
  { apply map_ext_in. intros kv Hin. unfold restore_line. by rewrite (proj1 (Hext kv Hin)). }
  rewrite Hfilter in Hrun. rewrite Hlines in Hout. cbn [Nat.add] in Hrun.
  rewrite Hrun, !bind_print, print_eq.
  eexists _, _. split; [reflexivity|]. split; [reflexivity|].
  split; [by apply filter_length_lt|].
  split. { cbn [stdout printed]. rewrite Hout, <- !app_assoc. reflexivity. }
  cbn [fs printed]. split; [|split].
  - intros kv Hin Hp. split; [unfold restore_line; by rewrite Hp|].
    intros s Hs. destruct (Hdst kv s Hin Hs) as (E & Hps & _).
    rewrite Hfar.
    + destruct Hadd as [Hf _]. apply Hf. right. rewrite E. by apply app_not_prefix.
    + intros kv' s' Hin' Hp' Hs'. rewrite (proj1 (Hext kv' Hin')) in Hp'.
      pose proof (incomparable_map_In _ items Hinc kv kv' Hin Hin') as Hcmp.
      cbn beta in Hcmp. rewrite Hs, Hs' in Hcmp. apply Hcmp. intros ->. congruence.
  - intros kv Hin Hp. rewrite <- (proj1 (Hext kv Hin)) in Hp.
    destruct (Hfiles kv Hin Hp) as (s & plain & Hs & Hplain & Hfile).
    exists s, plain. rewrite (proj1 (Hext kv Hin)) in Hp. split; [done|].
    split; [unfold restore_line; by rewrite Hp, Hs|].
    split; [by rewrite <- (proj2 (Hext kv Hin))|done].
  - by eapply same_mirror_trans.
Qed.

(** ** Clearing the mirror *)

Lemma wf_fs_ancestor m q p :
  wf_fs m -> is_Some (m !! q) -> p `prefix_of` q -> p <> [] -> p <> q -> m !! p = Some Dir.
Proof.
  intros Hwf. revert p. induction q as [|x q IH] using rev_ind; intros p Hq Hp Hne Hpq.
  { apply prefix_nil_inv in Hp. done. }
  destruct (Hwf _ Hq) as (_ & Hpar & _). rewrite removelast_last in Hpar.
  assert (Hpq' : p `prefix_of` q).
  { destruct Hp as [l Hl]. destruct l as [|y l] using rev_ind.
    - rewrite app_nil_r in Hl. congruence.
    - rewrite app_assoc in Hl. apply app_inj_tail in Hl as [-> _]. by apply prefix_app_r. }
  destruct q as [|y q]; [by apply prefix_nil_inv in Hpq'|].
  cbn [node_at] in Hpar.
  destruct (decide (p = y :: q)) as [->|Hne']; [done|].
  apply IH; [by rewrite Hpar | done..].
Qed.

Lemma wf_fs_no_file_above m q p c :
  wf_fs m -> is_Some (m !! q) -> p `prefix_of` q -> m !! p = Some (File c) -> p = q.
Proof.
  intros Hwf Hq Hp Hc. destruct (decide (p = q)) as [|Hne]; [done|].
  assert (p <> []) by (intros ->; by destruct (Hwf [] (mk_is_Some _ _ Hc))).
  rewrite (wf_fs_ancestor m q p) in Hc; done.
Qed.

(** Removing an entry with all that is below it keeps the file system
    well formed. *)
Lemma wf_fs_remove m item :
  wf_fs m -> wf_fs (filter (fun kv => ~ item `prefix_of` kv.1) m).
Proof.
  intros Hwf p [n Hp]. apply map_lookup_filter_Some in Hp as [Hp Hn]. cbn in Hn.
  destruct (Hwf p (mk_is_Some _ _ Hp)) as (Hne & Hpar & Hok). split; [done|].
  split; [|done].
  destruct (removelast p) as [|y l] eqn:E; [done|]. cbn [node_at] in *.
  apply map_lookup_filter_Some. split; [done|]. cbn. intros Hpre. apply Hn.
  apply prefix_removelast. by rewrite E.
Qed.

Lemma unlink_at_file m item c :
  wf_fs m -> traverse m item = Ok tt -> m !! item = Some (File c) ->
  unlink_at m item = Ok (filter (fun kv => ~ item `prefix_of` kv.1) m).
Proof.
  intros Hwf Ht Hc. unfold unlink_at. rewrite Ht. cbn [rbind].
  assert (item <> []) by (intros ->; by destruct (Hwf [] (mk_is_Some _ _ Hc))).
  destruct item as [|x item]; [done|]. cbn [node_at]. rewrite Hc. f_equal.
  apply map_eq. intros q. apply option_eq. intros n.
  rewrite map_lookup_filter_Some, lookup_delete_Some. cbn. split.
  - intros [Hne Hq]. split; [done|]. intros Hpre. apply Hne.
    eapply wf_fs_no_file_above; [done| |done|done]. by rewrite Hq.
  - intros [Hq Hn]. split; [|done]. by intros <-.
Qed.

Lemma sibling_not_prefix {A} (b : list A) (p q : list A) :
  p <> [] -> q <> [] -> removelast p = b -> removelast q = b -> p <> q -> ~ p `prefix_of` q.
Proof.
  intros Hp Hq Hpb Hqb Hne Hpre.
  destruct (snoc_inv p) as [->|(p' & x & ->)]; [done|].
  destruct (snoc_inv q) as [->|(q' & y & ->)]; [done|].
  rewrite removelast_last in Hpb, Hqb. subst p' q'.
  apply prefix_app_inv in Hpre. destruct Hpre as [l Hl]. cbn in Hl. congruence.
Qed.

Lemma child_not_prefix_parent {A} (p q : list A) :
  p <> [] -> q `prefix_of` removelast p -> ~ p `prefix_of` q.
Proof.
  intros Hp Hq Hpre. destruct (snoc_inv p) as [->|(p' & x & ->)]; [done|].
  rewrite removelast_last in Hq.
  pose proof (prefix_length _ _ Hq). pose proof (prefix_length _ _ Hpre).
  rewrite length_app in *. cbn in *. lia.
Qed.

Lemma removed_by_cons item rest q :
  removed_by (item :: rest) q = false
  <-> (last item = Some dot_git \/ ~ item `prefix_of` q) /\ removed_by rest q = false.
Proof.
  unfold removed_by. cbn [existsb]. rewrite orb_false_iff, andb_false_iff.
  rewrite !bool_decide_eq_false. split; intros [H ?]; (split; [|done]).
  - destruct H as [H|H]; [left | by right].
    destruct (decide (last item = Some dot_git)); [done | by destruct H].
  - destruct H as [H|H]; [left; by rewrite H; intros ? | by right].
Qed.

(** The loop removes the items that are not named [.git], each with all
    that is below it, and nothing else. *)
Lemma clear_items_spec b : forall items w,
  wf_fs (fs w) -> path_is_dir (fs w) b = true -> NoDup items ->
  (forall item, item ∈ items ->
     item <> [] /\ removelast item = b /\ is_Some (fs w !! item)) ->
  exists w',
    clear_items items w = (Ok tt, w')
    /\ fs w' = filter (fun kv => removed_by items kv.1 = false) (fs w)
    /\ stdout w' = stdout w /\ consumed w' = consumed w /\ entropy w' = entropy w.
Proof.
  induction items as [|item rest IH]; intros w Hwf Hb Hnd Hitems.
  { exists w. split; [done|]. split; [|done]. symmetry. by apply map_filter_id. }
  apply NoDup_cons in Hnd as [Hnotin Hnd].
  destruct (Hitems item) as (Hne & Hpar & [n Hn]); [by left|].
  assert (Htr : traverse (fs w) item = Ok tt).
  { apply traverse_spec. rewrite Hpar. by apply path_is_dir_spec. }
  set (m1 := filter (fun kv => ~ item `prefix_of` kv.1) (fs w)).
  assert (Hkeep : forall q, ~ item `prefix_of` q -> m1 !! q = fs w !! q).
  { intros q Hq. apply option_eq. intros x. unfold m1.
    rewrite map_lookup_filter_Some. cbn. naive_solver. }
  assert (Hnext : forall w1, fs w1 = m1 ->
            wf_fs (fs w1) /\ path_is_dir (fs w1) b = true
            /\ forall item', item' ∈ rest ->
                 item' <> [] /\ removelast item' = b /\ is_Some (fs w1 !! item')).
  { intros w1 ->. split; [by apply wf_fs_remove|]. split.
    - rewrite <- Hb. apply path_is_dir_ext. intros q _ Hq. apply Hkeep.
      apply child_not_prefix_parent; [done | by rewrite Hpar].
    - intros item' Hin. destruct (Hitems item') as (Hne' & Hpar' & Hsome); [by right|].
      split; [done|]. split; [done|]. rewrite Hkeep; [done|].
      apply (sibling_not_prefix b); try done. by intros ->. }
  cbn [clear_items].
  destruct (decide (last item = Some dot_git)) as [Hgit|Hgit].
  - (* [.git] stays *)
    rewrite bool_decide_eq_false_2 by (by intros ?).
    destruct (IH w) as (w' & Hrun & Hfs & Hrest); [done | done | done | |].
    { intros item' Hin. apply Hitems. by right. }
    exists w'. split; [exact Hrun|]. split; [|done]. rewrite Hfs.
    apply map_filter_ext. intros q x _. cbn [fst]. rewrite removed_by_cons. naive_solver.
  - rewrite bool_decide_eq_true_2 by done.
    assert (Hok : path_ok item = true) by (apply (wf_fs_path_ok (fs w)); [done | by exists n]).
    assert (Hstep : exists w1,
              (is_dir <~ with_fs (fun m => Path_is_dir m item) ;;
               if is_dir then update_fs (fun m => rmtree m item)
               else update_fs (fun m => unlink m item)) w = (Ok tt, w1)
              /\ w1 = with_files w m1).
    { eexists. split; [|reflexivity]. rewrite bind_with_fs, Path_is_dir_at by done.
      destruct (path_is_dir (fs w) item) eqn:Hd.
      - unfold update_fs. rewrite rmtree_at_ok by done. unfold rmtree_at. by rewrite Hd.
      - destruct n as [c|].
        + unfold update_fs. by rewrite unlink_at_eq, (unlink_at_file _ _ c).
        + exfalso. unfold path_is_dir in Hd. rewrite Htr in Hd.
          destruct item; [done|]. cbn [node_at] in Hd. by rewrite Hn in Hd. }
    destruct Hstep as (w1 & Hstep & ->).
    destruct (Hnext (with_files w m1) eq_refl) as (Hwf1 & Hb1 & Hitems1).
    destruct (IH (with_files w m1)) as (w' & Hrun & Hfs & Hrest); [done..|].
    exists w'. split.
    { unfold bind at 1. rewrite Hstep. exact Hrun. }
    split; [|exact Hrest]. rewrite Hfs. cbn [fs with_files]. unfold m1.
    rewrite map_filter_filter. apply map_filter_ext. intros q x _. cbn [fst].
    rewrite removed_by_cons. naive_solver.
Qed.

Lemma children_spec m b item :
  item ∈ children m b <-> item <> [] /\ removelast item = b /\ is_Some (m !! item).
Proof.
  unfold children. rewrite list_elem_of_In, filter_In, <- list_elem_of_In.
  rewrite bool_decide_eq_true, list_elem_of_fmap. split.
  - intros [([q n] & -> & Hin%elem_of_map_to_list) [? ?]]. cbn in *. by rewrite Hin.
  - intros (? & ? & [n Hn]). split; [|done]. exists (item, n).
    split; [done|]. by apply elem_of_map_to_list.
Qed.

Lemma NoDup_children m b : NoDup (children m b).
Proof.
  unfold children. apply NoDup_ListNoDup, List.NoDup_filter, NoDup_ListNoDup.
  apply NoDup_fst_map_to_list.
Qed.

Lemma cleared_spec b q :
  cleared b q = true <-> exists x rest, q = b ++ x :: rest /\ x <> dot_git.
Proof.
  unfold cleared. rewrite andb_true_iff, bool_decide_eq_true. split.
  - intros [[l ->] H]. rewrite drop_app_length in H. destruct l as [|x rest]; [done|].
    apply bool_decide_eq_true in H. by exists x, rest.
  - intros (x & rest & -> & Hx). split; [by apply prefix_app_r|].
    rewrite drop_app_length. by apply bool_decide_eq_true.
Qed.

(** Clearing a well-formed mirror. *)
Lemma clear_backup_directory_spec b w :
  wf_fs (fs w) -> path_is_dir (fs w) b = true ->
  exists w',
    clear_backup_directory b w = (Ok tt, w')
    /\ fs w' = filter (fun kv => cleared b kv.1 = false) (fs w)
    /\ stdout w' = stdout w /\ consumed w' = consumed w /\ entropy w' = entropy w.
Proof.
  intros Hwf Hb.
  destruct (clear_items_spec b (children (fs w) b) w) as (w' & Hrun & Hfs & Hrest);
    [done | done | apply NoDup_children | by intros item ?%children_spec |].
  exists w'. split; [|split; [|done]].
  - unfold clear_backup_directory.
    rewrite bind_with_fs, iterdir_at_eq by (by apply (path_is_dir_ok (fs w))).
    unfold iterdir_at. unfold path_is_dir in Hb. destruct (traverse (fs w) b) as [[]|]; [|done].
    cbn [rbind]. by destruct (node_at (fs w) b) as [[|]|].
  - rewrite Hfs. apply map_filter_ext. intros q n Hq. cbn [fst].
    rewrite <- !not_true_iff_false. apply not_iff_compat.
    rewrite cleared_spec. unfold removed_by. rewrite existsb_exists. split.
    + intros (item & Hin & H). apply andb_true_iff in H as [Hgit Hpre].
      apply bool_decide_eq_true in Hgit, Hpre.
      apply list_elem_of_In, children_spec in Hin as (Hne & Hpar & _).
      destruct (snoc_inv item) as [->|(l & x & ->)]; [done|].
      rewrite removelast_last in Hpar. subst l. rewrite last_snoc in Hgit.
      destruct Hpre as [rest ->]. exists x, rest. rewrite <- app_assoc.
      split; [done | congruence].
    + intros (x & rest & -> & Hx). exists (b ++ [x]). split.
      * apply list_elem_of_In, children_spec. split; [by destruct b|].
        split; [by rewrite removelast_last|].
        destruct rest as [|y rest]; [by rewrite Hq|].
        rewrite (wf_fs_ancestor (fs w) (b ++ x :: y :: rest) (b ++ [x])); try done.
        -- exists (y :: rest). by rewrite <- app_assoc.
        -- by destruct b.
        -- intros E. apply (f_equal length) in E. rewrite !length_app in E. cbn in E. lia.
      * apply andb_true_iff. rewrite !bool_decide_eq_true, last_snoc. split; [congruence|].
        exists rest. by rewrite <- app_assoc.
Qed.

Section Backup_clears.
Variables Repo_open Repo_init Repo_commit_and_push : path -> M unit.

(** C9. Once the repository is set up in a well-formed file system, a
    backup run over some selected files clears the mirror before it
    transforms any file: every entry of the mirror root other than
    [.git] is gone with all that was below it, [.git] with all below
    it and everything outside the mirror are as they were, nothing is
    printed and no random bytes are drawn; the encryption of the files
    starts from there. *)
Theorem C9_mirror_cleared (cfg : config) (encryptor : BackupEncryptor.t)
    (matching_files : list path) (w w1 : world) :
  init_repo Repo_open Repo_init (backup_dir cfg) w = (Ok tt, w1) ->
  wf_fs (fs w1) ->
  path_is_dir (fs w1) (backup_dir cfg) = true ->
  exists w2,
    clear_backup_directory (backup_dir cfg) w1 = (Ok tt, w2)
    /\ (forall q, cleared (backup_dir cfg) q = true -> fs w2 !! q = None)
    /\ (forall q, cleared (backup_dir cfg) q = false -> fs w2 !! q = fs w1 !! q)
    /\ stdout w2 = stdout w1 /\ consumed w2 = consumed w1 /\ entropy w2 = entropy w1
    /\ backup_files Repo_open Repo_init Repo_commit_and_push cfg encryptor matching_files w
       = transform_and_commit Repo_commit_and_push cfg encryptor matching_files w2.
Proof.
  intros Hinit Hwf Hb.
  destruct (clear_backup_directory_spec (backup_dir cfg) w1 Hwf Hb)
    as (w2 & Hrun & Hfs & Hout & Hc & He).
  exists w2. split; [done|]. split; [|split]; [| |repeat (split; [done|])].
  - intros q Hq. rewrite Hfs. apply map_lookup_filter_None. right. intros x _. cbn.
    by rewrite Hq.
  - intros q Hq. rewrite Hfs. apply option_eq. intros x.
    rewrite map_lookup_filter_Some. cbn. naive_solver.
  - unfold backup_files. unfold bind at 1. rewrite Hinit.
    unfold bind at 1. by rewrite Hrun.
Qed.
End Backup_clears.

(** ** Paths and their text *)

Lemma split_slash_plain (s cur : str) :
  forallb (fun x => negb (x =? 47)) s = true -> split_slash s cur = [rev cur ++ s].
Proof.
  revert cur. induction s as [|c s IH]; intros cur; cbn [forallb split_slash].
  - by rewrite app_nil_r.
  - intros [Hc Hs]%andb_prop. apply negb_true_iff in Hc. rewrite Hc, IH by done.
    cbn [rev]. by rewrite <- app_assoc.
Qed.

Lemma PurePath_of_str_plain (a : str) :
  plain_name a = true -> PurePath_of_str a = {| absolute := false; parts := [a] |}.
Proof.
  unfold plain_name, PurePath_of_str. intros [Hk Hs]%andb_prop.
  rewrite split_slash_plain by done. cbn [rev app List.filter]. rewrite Hk. f_equal.
  destruct a as [|c a]; [done|]. cbn [forallb] in Hs.
  apply andb_prop in Hs as [Hc _]. by apply negb_true_iff in Hc.
Qed.

Lemma Path_of_parts_plain (names : list str) :
  Forall (fun a => plain_name a = true) names ->
  Path_of_parts names = {| absolute := false; parts := names |}.
Proof.
  unfold Path_of_parts. intros H.
  enough (forall acc, fold_left (fun p a => joinpath p (PurePath_of_str a)) names
                        {| absolute := false; parts := acc |}
                      = {| absolute := false; parts := acc ++ names |}) as E by apply E.
  induction H as [|a names Ha _ IH]; intros acc; cbn [fold_left].
  - by rewrite app_nil_r.
  - rewrite PurePath_of_str_plain by done. unfold joinpath. cbn [absolute parts].
    by rewrite IH, <- app_assoc.
Qed.

Lemma PurePath_str_relative (l : list str) :
  l <> [] -> PurePath_str {| absolute := false; parts := l |} = join_slash l.
Proof. unfold PurePath_str. cbn [absolute parts]. by destruct l. Qed.

Lemma split_slash_app_plain (a rest cur : str) :
  forallb (fun x => negb (x =? 47)) a = true ->
  split_slash (a ++ 47 :: rest) cur = (rev cur ++ a) :: split_slash rest [].
Proof.
  revert cur. induction a as [|c a IH]; intros cur; cbn [forallb app split_slash].
  - by rewrite app_nil_r.
  - intros [Hc Hs]%andb_prop. apply negb_true_iff in Hc. rewrite Hc, IH by done.
    cbn [rev]. by rewrite <- app_assoc.
Qed.

Lemma split_join_slash (l : list str) :
  l <> [] -> Forall (fun a => plain_name a = true) l -> split_slash (join_slash l) [] = l.
Proof.
  intros Hne H. induction H as [|a l Ha Hl IH]; [done|].
  apply andb_prop in Ha as [_ Ha]. destruct l as [|a' l].
  - cbn [join_slash]. by rewrite split_slash_plain.
  - change (join_slash (a :: a' :: l)) with (a ++ 47 :: join_slash (a' :: l)).
    rewrite split_slash_app_plain by done. by rewrite IH.
Qed.

(** The text of a relative path names that path again. *)
Lemma PurePath_of_str_join (l : list str) :
  l <> [] -> Forall (fun a => plain_name a = true) l ->
  PurePath_of_str (join_slash l) = {| absolute := false; parts := l |}.
Proof.
  intros Hne H. unfold PurePath_of_str. rewrite split_join_slash by done. f_equal.
  - destruct l as [|a l]; [done|]. apply Forall_cons in H as [Ha _].
    apply andb_prop in Ha as [Hk Ha]. destruct a as [|c a]; [done|].
    cbn [forallb] in Ha. apply andb_prop in Ha as [Hc _]. apply negb_true_iff in Hc.
    destruct l; cbn [join_slash app]; exact Hc.
  - clear Hne. induction H as [|a l Ha _ IH]; [done|]. cbn [List.filter].
    apply andb_prop in Ha as [-> _]. by rewrite IH.
Qed.

Lemma join_slash_inj (l1 l2 : list str) :
  l1 <> [] -> l2 <> [] ->
  Forall (fun a => plain_name a = true) l1 -> Forall (fun a => plain_name a = true) l2 ->
  join_slash l1 = join_slash l2 -> l1 = l2.
Proof.
  intros H1 H2 P1 P2 E. apply (f_equal PurePath_of_str) in E.
  rewrite !PurePath_of_str_join in E by done. congruence.
Qed.

Lemma strip_base_app (src rel : path) : strip_base (src ++ rel) src = Ok rel.
Proof.
  induction src as [|c src IH]; [by destruct rel|]. cbn [app strip_base].
  by rewrite bool_decide_eq_true_2.
Qed.

(** ** The dictionary *)

Lemma dict_set_fresh {V} (k : str) (v : V) (d : list (str * V)) :
  k ∉ d.*1 -> dict_set k v d = d ++ [(k, v)].
Proof.
  induction d as [|[k' v'] d IH]; [done|]. cbn [fmap list_fmap fst dict_set app].
  intros [Hne Hnin]%not_elem_of_cons.
  rewrite bool_decide_eq_false_2 by done. by rewrite IH.
Qed.

(** ** Encrypted names *)

Lemma urlsafe_name_spec a :
  urlsafe_name a = true <-> a <> [] /\ Forall (fun c => is_urlsafe_char c = true) a.
Proof.
  unfold urlsafe_name. rewrite andb_true_iff, negb_true_iff, bool_decide_eq_false.
  by rewrite forallb_forall, List.Forall_forall.
Qed.

Lemma urlsafe_name_no c a :
  is_urlsafe_char c = false -> urlsafe_name a = true -> ~ In c a.
Proof.
  intros Hc [_ Ha]%urlsafe_name_spec Hin.
  rewrite List.Forall_forall in Ha. specialize (Ha c Hin). congruence.
Qed.

Lemma urlsafe_name_plain a : urlsafe_name a = true -> plain_name a = true.
Proof.
  intros H. pose proof (urlsafe_name_no 46 a eq_refl H) as Hdot.
  pose proof (urlsafe_name_no 47 a eq_refl H) as Hslash.
  apply urlsafe_name_spec in H as [Hne _]. unfold plain_name, keep_part.
  apply andb_true_iff. split.
  - apply negb_true_iff, orb_false_iff. rewrite !bool_decide_eq_false.
    split; [done|]. intros ->. apply Hdot. by left.
  - apply forallb_forall. intros x Hx. apply negb_true_iff, N.eqb_neq. by intros ->.
Qed.

Lemma urlsafe_name_not_dot_git a : urlsafe_name a = true -> a <> dot_git.
Proof. intros H ->. apply (urlsafe_name_no 46 _ eq_refl H). by left. Qed.

Lemma urlsafe_name_not_mapping_enc a : urlsafe_name a = true -> a <> mapping_enc.
Proof.
  intros H ->. apply (urlsafe_name_no 46 _ eq_refl H). cbn. tauto.
Qed.

Lemma encrypted_name_urlsafe key iv name : urlsafe_name (encrypted_name key iv name) = true.
Proof.
  unfold encrypted_name.
  destruct (rstrip_repad (iv ++ ciphertext key iv name)) as (_ & Hall & Hlen).
  apply urlsafe_name_spec. split; [|done]. intros E. rewrite E in Hlen.
  rewrite length_app, length_ciphertext in Hlen. cbn [length] in Hlen.
  symmetry in Hlen. apply Nat.div_small_iff in Hlen; lia.
Qed.

(** ** Encrypted names as entry names *)

Lemma utf8_char_length (c : N) (bs : bytes) :
  utf8_encode_char c = Ok bs -> length bs = char_len c.
Proof.
  unfold utf8_encode_char, char_len, is_escape.
  destruct (c <? 128); [by intros [= <-]|]. destruct (c <? 2048); [by intros [= <-]|].
  destruct (c <? 65536).
  - destruct (is_surrogate c) eqn:E; [done|]. intros [= <-].
    unfold is_surrogate in E. apply andb_false_iff in E.
    destruct (N.leb_spec 0xDC80 c), (N.leb_spec c 0xDCFF); cbn [andb]; try done.
    destruct E as [E%N.leb_gt|E%N.leb_gt]; lia.
  - destruct (c <? 1114112); [by intros [= <-] | done].
Qed.

Lemma utf8_length (s : str) (bs : bytes) :
  str_encode_utf8 s = Ok bs -> length bs = name_len s.
Proof.
  revert bs. induction s as [|c s IH]; intros bs; cbn [str_encode_utf8].
  { by intros [= <-]. }
  destruct (utf8_encode_char c) as [b|] eqn:Hc; [|done]. cbn [rbind].
  destruct (str_encode_utf8 s) as [r|]; [|done]. cbn [rbind]. intros [= <-].
  rewrite length_app, (utf8_char_length c b Hc), (IH r eq_refl). done.
Qed.

Lemma name_len_urlsafe (a : str) :
  Forall (fun c => is_urlsafe_char c = true) a -> name_len a = length a.
Proof.
  induction 1 as [|c a Hc _ IH]; [done|]. unfold name_len in *. cbn [map length].
  change (list_sum (char_len c :: map char_len a))
    with (char_len c + list_sum (map char_len a))%nat.
  rewrite IH. apply urlsafe_char_props in Hc as [Hc _]. unfold char_len.
  destruct (N.ltb_spec c 128); [done | lia].
Qed.

Lemma encrypted_name_length key iv name :
  length iv = 16%nat -> length (encrypted_name key iv name) = enc_len (length name).
Proof.
  intros Hiv. unfold encrypted_name, enc_len.
  destruct (rstrip_repad (iv ++ ciphertext key iv name)) as (_ & _ & ->).
  rewrite length_app, Hiv, length_ciphertext. f_equal. lia.
Qed.

Lemma urlsafe_name_proper (a : str) :
  urlsafe_name a = true -> (length a <= NAME_MAX)%nat -> proper_name a = true.
Proof.
  intros Ha Hlen. pose proof Ha as [Hne Hall]%urlsafe_name_spec.
  apply proper_name_spec. split; [by apply urlsafe_name_plain|]. split; [|split; [|split]].
  - intros ->. by apply (urlsafe_name_no 46 dotdot) in Ha; [apply Ha; left|].
  - apply forallb_forall. intros c Hc. rewrite List.Forall_forall in Hall.
    apply Hall, urlsafe_char_props in Hc as [Hc _]. unfold fs_encodable, is_surrogate.
    destruct (N.ltb_spec c 1114112); [|lia]. destruct (N.leb_spec 55296 c); [lia | done].
  - apply not_true_iff_false. intros (c & Hc & Hz%N.eqb_eq)%existsb_exists. subst c.
    by apply (urlsafe_name_no 0 a) in Ha.
  - by rewrite name_len_urlsafe.
Qed.

(** The encrypted path of a file is a path of entry names that the
    system takes, when the names of the file are short enough. *)
Lemma enc_path_ok_app (b rel names : path) :
  path_ok b = true -> enc_path_ok b rel = true -> names <> [] ->
  Forall (fun a => urlsafe_name a = true) names ->
  Forall2 (fun a c => length a = enc_len (name_len c)) names rel ->
  path_ok (b ++ names) = true.
Proof.
  intros [Hb _]%path_ok_spec [Hshort Hfit]%andb_true_iff Hne Hsafe Hlen.
  apply Nat.ltb_lt in Hfit. rewrite forallb_forall in Hshort.
  assert (Hnames : Forall (fun a => proper_name a = true) names
                   /\ names_len names
                      = list_sum (map (fun c => S (enc_len (name_len c))) rel)).
  { clear Hfit Hne. induction Hlen as [|a c names rel Hac Hlen IH]; [done|].
    apply Forall_cons in Hsafe as [Ha Hsafe].
    destruct IH as [IH1 IH2]; [intros x Hx; apply Hshort; by right | done |].
    assert (length a <= NAME_MAX)%nat.
    { rewrite Hac. by apply Nat.leb_le, Hshort; left. }
    split; [constructor; [by apply urlsafe_name_proper | done]|].
    unfold names_len in *. cbn [map].
    change (list_sum (?x :: ?l)) with (x + list_sum l)%nat.
    rewrite IH2, name_len_urlsafe, Hac; [done|].
    by apply urlsafe_name_spec in Ha as [_ ?]. }
  destruct Hnames as [H1 H2]. apply path_ok_spec. split; [by apply Forall_app|].
  rewrite path_len_names by (by destruct b, names). rewrite names_len_app. lia.
Qed.

Section Names.
Variables (e : BackupEncryptor.t) (d : BackupDecryptor.t).
Hypothesis key_length : length (BackupEncryptor.key e) = 32%nat.
Hypothesis same_key : BackupDecryptor.key d = BackupEncryptor.key e.

(** The components of a path are encrypted one by one; each name
    decrypts to its component. *)
Lemma mapM_encrypt_filename : forall comps w,
  Forall (fun c => Forall (fun x => is_scalar x = true) c) comps ->
  exists names w',
    mapM (BackupEncryptor.encrypt_filename e) comps w = (Ok names, w')
    /\ decrypts_to d names comps
    /\ Forall (fun a => urlsafe_name a = true) names
    /\ fs w' = fs w /\ stdout w' = stdout w /\ entropy w' = entropy w
    /\ consumed w' = (consumed w + 16 * length comps)%nat
    /\ Forall2 (fun a c => length a = enc_len (name_len c)) names comps.
Proof.
  induction comps as [|c comps IH]; intros w Hall.
  { exists [], w. split; [done|]. split; [constructor|]. split; [constructor|].
    repeat split; try done; try constructor; cbn; lia. }
  apply Forall_cons in Hall as [Hc Hall].
  destruct (encode_utf8_scalar c Hc) as [name Hname].
  destruct (IH (consume w 16) Hall)
    as (names & w' & Hrun & Hdec & Hsafe & Hfs & Hout & He & Hn & Hlens).
  eexists (_ :: names), w'. cbn [mapM]. unfold bind at 1.
  rewrite (encrypt_filename_eq e c name w key_length Hname).
  unfold bind at 1. rewrite Hrun. split; [reflexivity|].
  split; [|split; [|repeat split; try done; cbn [length consume consumed] in *; try lia]].
  - constructor; [|done]. rewrite <- same_key.
    rewrite decrypt_filename_encrypted_name;
      [by apply decode_encode_utf8 | by rewrite same_key | apply length_next_random].
  - constructor; [apply encrypted_name_urlsafe | done].
  - constructor; [|done].
    rewrite encrypted_name_length by apply length_next_random.
    by rewrite (utf8_length c name).
Qed.

(** Names that decrypt to different components are different. *)
Lemma decrypts_to_prefix enc enc' rel rel' :
  decrypts_to d enc rel -> decrypts_to d enc' rel' ->
  enc `prefix_of` enc' -> rel `prefix_of` rel'.
Proof.
  intros H. revert enc' rel'. induction H as [|a c enc rel Ha _ IH]; intros enc' rel' H' Hp.
  { apply prefix_nil. }
  destruct H' as [|a' c' enc' rel' Ha' H']; [by apply prefix_nil_not in Hp|].
  pose proof (prefix_cons_inv_1 _ _ _ _ Hp) as <-.
  apply prefix_cons_inv_2 in Hp. assert (c' = c) as -> by congruence.
  apply prefix_cons. by apply (IH enc').
Qed.

End Names.

(** ** The mirror while files are written *)

Lemma prefix_neq_removelast {A} (q p : list A) :
  q `prefix_of` p -> q <> p -> q `prefix_of` removelast p.
Proof.
  intros [l ->] Hne. destruct (snoc_inv l) as [->|(l' & x & ->)].
  - by rewrite app_nil_r in Hne.
  - rewrite app_assoc, removelast_last. by apply prefix_app_r.
Qed.

Lemma cleared_prefix b q : cleared b q = true -> b `prefix_of` q /\ q <> b.
Proof.
  intros (x & rest & -> & _)%cleared_spec. split; [by apply prefix_app_r|].
  intros E. apply (f_equal length) in E. rewrite length_app in E. cbn in E. lia.
Qed.

Lemma cleared_nonempty b q : cleared b q = true -> q <> [].
Proof. intros (x & rest & -> & _)%cleared_spec. by destruct b. Qed.

Lemma not_cleared_prefix b q enc :
  cleared b (b ++ enc) = true -> q `prefix_of` b ++ enc -> cleared b q = false ->
  q `prefix_of` b.
Proof.
  intros (x & rest & E & Hx)%cleared_spec Hq Hc. apply app_inv_head in E. subst enc.
  destruct (prefix_of_app_cases _ _ _ Hq) as [|[l ->]]; [done|].
  apply prefix_app_inv in Hq. destruct l as [|y l]; [by rewrite app_nil_r|].
  pose proof (prefix_cons_inv_1 _ _ _ _ Hq) as ->.
  assert (cleared b (b ++ x :: l) = true) by (apply cleared_spec; by exists x, l).
  congruence.
Qed.

Lemma read_at_outside b m m' f :
  (forall q, cleared b q = false -> m' !! q = m !! q) -> ~ b `prefix_of` f ->
  read_at m' f = read_at m f.
Proof.
  intros Hout Hf. apply read_at_ext. intros q _ Hq. apply Hout.
  destruct (cleared b q) eqn:E; [|done]. apply cleared_prefix in E as [Hb _].
  exfalso. apply Hf. by etrans.
Qed.

(** A new file can be written into the mirror, once its directories are
    made, when its path is not on the way to a file that is there and no
    file that is there is on its way. *)
Lemma mirror_writable b m E enc :
  m !! [] = None -> path_is_dir m b = true -> mirror_of b m E ->
  cleared b (b ++ enc) = true ->
  (forall enc', In enc' E -> ~ enc `prefix_of` enc' /\ ~ enc' `prefix_of` enc) ->
  path_ok (b ++ enc) = true ->
  writable m (b ++ enc) = true.
Proof.
  intros Hroot Hb Hm Hc Hinc Hok. apply writable_spec.
  split; [by eapply cleared_nonempty|].
  split; [|split; [|done]].
  - intros q c Hq%prefix_removelast Hfile.
    destruct (cleared b q) eqn:Hcq.
    + specialize (Hm q Hcq). rewrite Hfile in Hm. destruct Hm as (enc' & Hin & ->).
      apply prefix_app_inv in Hq. by destruct (Hinc enc' Hin).
    + pose proof (not_cleared_prefix _ _ _ Hc Hq Hcq) as Hqb.
      destruct (decide (q = [])) as [->|Hq0]; [congruence|].
      rewrite (proj1 (path_is_dir_spec m b) Hb q) in Hfile; done.
  - intros Hdir. specialize (Hm _ Hc). rewrite Hdir in Hm.
    destruct Hm as (enc' & Hin & Hpre & _). apply prefix_app_inv in Hpre.
    by destruct (Hinc enc' Hin).
Qed.

(** The mirror after one more file is written. *)
Lemma mirror_step b m m1 E enc c :
  mirror_of b m E ->
  dirs_added m m1 (removelast (b ++ enc)) ->
  (forall q, q <> [] -> q `prefix_of` removelast (b ++ enc) -> m1 !! q = Some Dir) ->
  mirror_of b (<[b ++ enc := File c]> m1) (E ++ [enc]).
Proof.
  intros Hm [Hf Hd] Hdirs q Hq.
  destruct (decide (q = b ++ enc)) as [->|Hne].
  { rewrite lookup_insert_eq. exists enc. split; [apply in_app_iff; right; by left | done]. }
  rewrite lookup_insert_ne by done.
  destruct (decide (q `prefix_of` removelast (b ++ enc))) as [Hpre|Hpre].
  { rewrite Hdirs; [|by eapply cleared_nonempty|done]. exists enc.
    split; [apply in_app_iff; right; by left|]. split; [by apply prefix_removelast | done]. }
  rewrite Hf by (by right). specialize (Hm q Hq).
  destruct (m !! q) as [[c'|]|].
  - destruct Hm as (enc' & Hin & ->). exists enc'. split; [apply in_app_iff; by left | done].
  - destruct Hm as (enc' & Hin & H1 & H2). exists enc'.
    split; [apply in_app_iff; by left | done].
  - intros enc' [Hin|[<-|[]]]%in_app_iff; [by apply Hm|].
    intros Hp. apply Hpre. by apply prefix_neq_removelast.
Qed.

Lemma encrypt_file_ok (e : BackupEncryptor.t) (src dst : path) (w : world) (data : bytes) :
  length (BackupEncryptor.key e) = 32%nat ->
  path_ok src = true -> path_ok dst = true ->
  read_at (fs w) src = Ok data ->
  dst <> [] -> traverse (fs w) dst = Ok tt -> fs w !! dst <> Some Dir ->
  encrypt_file e src dst w
  = (Ok tt,
     with_files (consume w 16)
       (<[dst := File (next_random w 16
                       ++ ciphertext (BackupEncryptor.key e) (next_random w 16) data)]>
          (fs w))).
Proof.
  intros Hk Hsrc Hdst Hr Hne Ht Hd. unfold encrypt_file.
  rewrite bind_with_fs, read_bytes_at, Hr by done.
  unfold bind. rewrite encrypt_data_eq by done. unfold update_fs.
  cbn [fs consume]. rewrite write_bytes_at by done. by rewrite write_at_ok.
Qed.

Lemma selectable_spec src b m rel :
  selectable src b m rel = true
  <-> rel <> []
      /\ Forall (fun c => Forall (fun x => is_scalar x = true) c) rel
      /\ (exists data, read_at m (src ++ rel) = Ok data)
      /\ ~ b `prefix_of` src ++ rel
      /\ path_ok (src ++ rel) = true
      /\ enc_path_ok b rel = true.
Proof.
  unfold selectable.
  rewrite !andb_true_iff, !negb_true_iff, !bool_decide_eq_false, forallb_forall.
  rewrite List.Forall_forall. split.
  - intros [[[[[H1 H2] H3] H4] H5] H6]. split; [done|]. split; [|split; [|done]].
    + intros c Hc. apply List.Forall_forall, forallb_forall. by apply H2.
    + destruct (read_at m (src ++ rel)) as [data|]; [by exists data | done].
  - intros (H1 & H2 & [data H3] & H4 & H5 & H6). repeat split; try done.
    + intros c Hc. apply forallb_forall, List.Forall_forall. by apply H2.
    + by rewrite H3.
Qed.

Lemma mapping_of_snoc E dn enc rel :
  length E = length dn ->
  mapping_of (E ++ [enc]) (dn ++ [rel])
  = mapping_of E dn ++ [(join_slash enc, join_slash rel)].
Proof.
  unfold mapping_of. revert dn. induction E as [|a E IH]; intros [|r dn]; try done.
  cbn [length app map]. intros [= H]. cbn [zip_with app]. f_equal. by apply IH.
Qed.

Lemma mapping_of_keys E dn :
  length E = length dn -> (mapping_of E dn).*1 = map join_slash E.
Proof.
  unfold mapping_of. revert dn. induction E as [|a E IH]; intros [|r dn]; try done.
  cbn [length map]. intros [= H]. cbn. f_equal. by apply IH.
Qed.

Lemma incomparable_middle (l1 : list path) x l2 :
  incomparable (l1 ++ x :: l2) = true ->
  Forall (fun y => ~ x `prefix_of` y /\ ~ y `prefix_of` x) l1.
Proof.
  induction l1 as [|a l1 IH]; [constructor|]. cbn [app].
  intros [Ho Hi]%incomparable_cons. constructor; [|by apply IH].
  rewrite List.Forall_forall in Ho. destruct (Ho x) as [H1 H2]; [|done].
  apply in_app_iff. right. by left.
Qed.

Lemma path_is_dir_outside b m m' :
  (forall q, cleared b q = false -> m' !! q = m !! q) ->
  path_is_dir m' b = path_is_dir m b.
Proof.
  intros Hout. apply path_is_dir_ext. intros q _ Hq. apply Hout.
  destruct (cleared b q) eqn:E; [|done]. apply cleared_prefix in E as [Hb Hne].
  destruct Hne. by apply (anti_symm prefix).
Qed.

Lemma not_prefix_removelast {A} (t : list A) : t <> [] -> ~ t `prefix_of` removelast t.
Proof.
  intros Hne Hpre%prefix_length. destruct (snoc_inv t) as [->|(l & x & ->)]; [done|].
  rewrite removelast_last, length_app in Hpre. cbn in Hpre. lia.
Qed.

Lemma Forall2_impl_In {A B} (P Q : A -> B -> Prop) l k :
  Forall2 P l k -> (forall x y, In x l -> In y k -> P x y -> Q x y) -> Forall2 Q l k.
Proof.
  induction 1 as [|a c l k Ha _ IH]; intros H; constructor.
  - apply H; [by left | by left | done].
  - apply IH. intros x y Hx Hy. apply H; by right.
Qed.

Lemma Forall2_In_l {A B} (P : A -> B -> Prop) l k x :
  Forall2 P l k -> In x l -> exists y, In y k /\ P x y.
Proof.
  induction 1 as [|a c l k Ha _ IH]; [done|]. intros [<-|Hin].
  - exists c. split; [by left | done].
  - destruct (IH Hin) as (y & Hy & Hp). exists y. split; [by right | done].
Qed.

(** ** The loop over the selected files *)

Section Transform.
Variables (e : BackupEncryptor.t) (d : BackupDecryptor.t).
Hypothesis key_length : length (BackupEncryptor.key e) = 32%nat.
Hypothesis same_key : BackupDecryptor.key d = BackupEncryptor.key e.
Variables (b src : path).

Hypothesis b_ok : path_ok b = true.

Lemma process_files_spec : forall rels w E dn,
  fs w !! [] = None -> path_is_dir (fs w) b = true ->
  mirror_of b (fs w) E ->
  Forall2 (decrypts_to d) E dn ->
  Forall (fun enc => enc <> [] /\ Forall (fun a => urlsafe_name a = true) enc) E ->
  incomparable (dn ++ rels) = true ->
  forallb (selectable src b (fs w)) rels = true ->
  exists w' E',
    process_files e b src (map (app src) rels) (mapping_of E dn) w
    = (Ok (mapping_of (E ++ E') (dn ++ rels)), w')
    /\ mirror_of b (fs w') (E ++ E')
    /\ Forall2 (decrypts_to d) E' rels
    /\ Forall (fun enc => enc <> [] /\ Forall (fun a => urlsafe_name a = true) enc) E'
    /\ (forall q, cleared b q = false -> fs w' !! q = fs w !! q)
    /\ (forall q c, fs w !! q = Some (File c) -> fs w' !! q = Some (File c))
    /\ Forall2 (fun enc rel =>
          exists iv data,
            length iv = 16%nat /\ read_at (fs w) (src ++ rel) = Ok data
            /\ fs w' !! (b ++ enc)
               = Some (File (iv ++ ciphertext (BackupEncryptor.key e) iv data))) E' rels
    /\ stdout w' = stdout w
         ++ map (fun rel => str_of_string "  Encrypted: " ++ join_slash rel) rels
    /\ entropy w' = entropy w
    /\ Forall (fun enc => path_ok (b ++ enc) = true) E'.
Proof.
  induction rels as [|rel rels IH]; intros w E dn Hroot Hb Hm Hdec Hgood Hinc Hsel.
  { exists w, []. rewrite !app_nil_r. cbn [map process_files]. unfold ret.
    repeat split; try done; constructor. }
  cbn [forallb] in Hsel. apply andb_prop in Hsel as [Hrel Hsel].
  apply selectable_spec in Hrel as (Hne & Hscalar & [data Hdata] & Hnotin & Hsrcok & Hencok).
  (* the names *)
  destruct (mapM_encrypt_filename e d key_length same_key rel w Hscalar)
    as (names & w1 & Hnames & Hdn & Hsafe & Hfs1 & Hout1 & He1 & _ & Hlens).
  assert (Hplain : Forall (fun a => plain_name a = true) names).
  { eapply Forall_impl; [exact Hsafe|]. intros a. apply urlsafe_name_plain. }
  assert (Hnn : names <> []).
  { intros ->. apply Forall2_length in Hdn. by destruct rel. }
  assert (Hcl : cleared b (b ++ names) = true).
  { destruct names as [|a names]; [done|]. apply Forall_cons in Hsafe as [Ha _].
    apply cleared_spec. exists a, names. split; [done|]. by apply urlsafe_name_not_dot_git. }
  assert (Hnew : forall enc', In enc' E ->
            ~ names `prefix_of` enc' /\ ~ enc' `prefix_of` names).
  { intros enc' Hin. destruct (Forall2_In_l _ _ _ _ Hdec Hin) as (rel' & Hin' & Hdec').
    pose proof (incomparable_middle _ _ _ Hinc) as Hmid.
    rewrite List.Forall_forall in Hmid. destruct (Hmid rel' Hin') as [H1 H2].
    split; intros Hp; [apply H1 | apply H2];
      eapply (decrypts_to_prefix d); try eassumption. }
  pose proof (enc_path_ok_app b rel names b_ok Hencok Hnn Hsafe Hlens) as Hnok.
  pose proof (mirror_writable b (fs w) E names Hroot Hb Hm Hcl Hnew Hnok) as Hw.
  pose proof Hw as (_ & Hp & Ht & _)%writable_spec.
  destruct (mkdirs_at_ok (fs w) (removelast (b ++ names)) Hp) as (m1 & Hm1 & Hadd & Hdirs).
  assert (Hout : forall q, cleared b q = false -> m1 !! q = fs w !! q).
  { intros q Hq. destruct Hadd as [Hf Hd].
    destruct (decide (q = [])) as [->|Hq0]; [apply Hf; by left|].
    destruct (decide (q `prefix_of` removelast (b ++ names))) as [Hpre|Hpre];
      [|apply Hf; by right].
    destruct (Hd q Hpre) as [|[Hnone _]]; [done|].
    apply prefix_removelast in Hpre.
    pose proof (not_cleared_prefix _ _ _ Hcl Hpre Hq) as Hqb.
    by rewrite (proj1 (path_is_dir_spec _ _) Hb q) in Hnone. }
  set (blob := next_random w1 16
               ++ ciphertext (BackupEncryptor.key e) (next_random w1 16) data).
  set (m2 := <[b ++ names := File blob]> m1).
  set (w2 := printed (with_files (consume w1 16) m2)
               [str_of_string "  Encrypted: " ++ join_slash rel]).
  assert (Hstep : process_files e b src (map (app src) (rel :: rels)) (mapping_of E dn) w
                  = process_files e b src (map (app src) rels)
                      (mapping_of (E ++ [names]) (dn ++ [rel])) w2).
  { cbn [map process_files]. unfold relative_to. rewrite strip_base_app. cbn [rbind].
    rewrite bind_lift_Ok. cbn [parts]. unfold bind at 1. rewrite Hnames.
    rewrite Path_of_parts_plain by done. unfold joinpath. cbn [absolute parts Path_abs].
    rewrite (bind_modify_fs _ _ _ m1)
      by (rewrite Hfs1; by apply mkdir_parents_at; [apply path_ok_removelast|]).
    unfold bind at 1.
    rewrite (encrypt_file_ok e (src ++ rel) (b ++ names) _ data); cbn [fs with_files]; try done.
    - rewrite bind_print, !PurePath_str_relative by done.
      pose proof (Forall2_length _ _ _ Hdec) as Hlen.
      rewrite dict_set_fresh, <- mapping_of_snoc; [reflexivity | done |].
      rewrite mapping_of_keys by done. intros Hin%list_elem_of_In.
      apply in_map_iff in Hin as (enc' & Heq & Hin).
      rewrite List.Forall_forall in Hgood. destruct (Hgood enc' Hin) as [Hne' Hsafe'].
      apply join_slash_inj in Heq; try done.
      + subst enc'. by destruct (Hnew names Hin) as [[] _].
      + eapply Forall_impl; [exact Hsafe'|]. intros a. apply urlsafe_name_plain.
    - by rewrite (read_at_outside b (fs w) m1).
    - by eapply cleared_nonempty.
    - apply traverse_spec. intros q Hq Hpre. by apply Hdirs.
    - destruct Hadd as [Hf _]. rewrite Hf; [done|]. right.
      apply not_prefix_removelast. by eapply cleared_nonempty. }
  assert (Hfresh : forall c, fs w !! (b ++ names) <> Some (File c)).
  { intros c Hc. specialize (Hm _ Hcl). rewrite Hc in Hm.
    destruct Hm as (enc' & Hin & Heq%app_inv_head). subst enc'.
    by destruct (Hnew names Hin) as [[] _]. }
  assert (Hout2 : forall q, cleared b q = false -> m2 !! q = fs w !! q).
  { intros q Hq. unfold m2. rewrite lookup_insert_ne by congruence. by apply Hout. }
  assert (Hkept : forall q c, fs w !! q = Some (File c) -> m2 !! q = Some (File c)).
  { intros q c Hq. unfold m2.
    rewrite lookup_insert_ne by (intros <-; by apply (Hfresh c)).
    destruct Hadd as [Hf Hd].
    destruct (decide (q `prefix_of` removelast (b ++ names))) as [Hpre|Hpre].
    - destruct (Hd q Hpre) as [->|[Hnone _]]; [done | congruence].
    - rewrite Hf; [done | by right]. }
  destruct (IH w2 (E ++ [names]) (dn ++ [rel]))
    as (w' & E' & Hrun & Hm' & Hdec' & Hgood' & Hout' & Hkept' & Hcont' & Hstd' & Hent'
        & Hok').
  { cbn [w2 fs printed with_files]. rewrite Hout2, Hroot; [done|].
    destruct (cleared b []) eqn:Ec; [by apply cleared_nonempty in Ec | done]. }
  { cbn [w2 fs printed with_files]. by rewrite (path_is_dir_outside b (fs w)). }
  { cbn [w2 fs printed with_files]. by apply (mirror_step b (fs w)). }
  { apply Forall2_app; [done|]. by constructor. }
  { apply Forall_app. split; [done|]. by constructor. }
  { by rewrite <- app_assoc. }
  { cbn [w2 fs printed with_files]. apply forallb_forall. intros rel' Hin.
    pose proof (proj1 (forallb_forall _ _) Hsel rel' Hin)
      as (H1 & H2 & [data' H3] & H4 & H5 & H6)%selectable_spec.
    apply selectable_spec. repeat split; try done. exists data'.
    by rewrite (read_at_outside b (fs w)). }
  cbn [w2 fs printed with_files stdout entropy consume] in Hm', Hout', Hkept', Hcont', Hstd', Hent'.
  rewrite <- app_assoc in Hm'. cbn [app] in Hm'.
  exists w', (names :: E'). rewrite Hstep, Hrun, <- !app_assoc. cbn [app].
  split; [done|]. split; [done|]. split; [by constructor|]. split; [by constructor|].
  split; [intros q Hq; by rewrite Hout', Hout2|].
  split; [intros q c Hq; by apply Hkept', Hkept|].
  split; [|split; [|split]].
  - constructor.
    + exists (next_random w1 16), data. split; [apply length_next_random|].
      split; [done|]. apply Hkept'. unfold m2. apply lookup_insert_eq.
    + eapply Forall2_impl_In; [exact Hcont'|].
      intros enc' rel' _ Hin (iv & data' & ? & Hr & ?).
      exists iv, data'. split; [done|]. split; [|done]. rewrite <- Hr. symmetry.
      pose proof (proj1 (forallb_forall _ _) Hsel rel' Hin)
        as (_ & _ & _ & H4 & _)%selectable_spec.
      by apply (read_at_outside b).
  - rewrite Hstd', Hout1. cbn [map]. by rewrite <- app_assoc.
  - by rewrite Hent'.
  - by constructor.
Qed.

End Transform.

(** ** The mapping as text *)

Lemma hex_char_ascii d : d < 16 -> hex_char d < 128.
Proof. unfold hex_char. destruct (N.ltb_spec d 10); lia. Qed.

Lemma hex4_ascii n : Forall (fun c => c < 128) (hex4 n).
Proof.
  unfold hex4. repeat constructor; apply hex_char_ascii; apply N.mod_lt; lia.
Qed.

Lemma json_escape_ascii c : Forall (fun x => x < 128) (json_escape c).
Proof.
  unfold json_escape.
  repeat match goal with
         | |- context [if ?x =? ?y then _ else _] => destruct (N.eqb_spec x y)
         end; try (repeat constructor; lia).
  destruct (N.leb_spec 32 c), (N.leb_spec c 126); cbn [andb];
    try (repeat constructor; lia);
    destruct (N.ltb_spec c 0x10000);
    repeat (apply Forall_app; split); try apply hex4_ascii; repeat constructor; lia.
Qed.

Lemma json_string_ascii s : Forall (fun x => x < 128) (json_string s).
Proof.
  unfold json_string. repeat (apply Forall_app; split); try (repeat constructor; lia).
  induction s as [|c s IH]; [constructor|]. cbn [map concat].
  apply Forall_app. split; [apply json_escape_ascii | done].
Qed.

Lemma json_dumps_ascii mapping : Forall (fun x => x < 128) (json_dumps mapping).
Proof.
  unfold json_dumps. destruct mapping as [|kv mapping]; [repeat constructor; lia|].
  apply Forall_app; split; [repeat constructor; lia|].
  apply Forall_app; split; [|repeat constructor; lia].
  generalize (kv :: mapping). clear. intros l.
  induction l as [|kv l IH]; [constructor|]. cbn [map join_members].
  assert (Forall (fun x => x < 128) (json_member kv)).
  { unfold json_member.
    apply Forall_app; split; [repeat constructor; lia|].
    apply Forall_app; split; [apply json_string_ascii|].
    apply Forall_app; split; [repeat constructor; lia | apply json_string_ascii]. }
  destruct (map json_member l) eqn:E; [done|].
  apply Forall_app; split; [done|].
  apply Forall_app; split; [repeat constructor; lia | done].
Qed.

(** The text of a mapping can always be encoded. *)
Lemma json_dumps_encodes mapping : exists data, str_encode_utf8 (json_dumps mapping) = Ok data.
Proof.
  apply encode_utf8_scalar. eapply Forall_impl; [apply json_dumps_ascii|].
  intros c Hc. unfold is_scalar, is_surrogate. cbn beta in *.
  destruct (N.ltb_spec c 0x110000); [|lia]. destruct (N.leb_spec 0xD800 c); [lia|done].
Qed.

(** ** Saving the mapping *)

Lemma save_mapping_ok (e : BackupEncryptor.t) (b : path) (mapping : list (str * str))
    (w : world) :
  length (BackupEncryptor.key e) = 32%nat ->
  path_ok (b ++ [mapping_enc]) = true ->
  path_is_dir (fs w) b = true ->
  fs w !! (b ++ [mapping_enc]) <> Some Dir ->
  exists data,
    str_encode_utf8 (json_dumps mapping) = Ok data
    /\ save_mapping e b mapping w
       = (Ok tt,
          with_files (consume w 16)
            (<[b ++ [mapping_enc]
               := File (next_random w 16
                        ++ ciphertext (BackupEncryptor.key e) (next_random w 16) data)]>
               (fs w))).
Proof.
  intros Hk Hok Hb Hd. destruct (json_dumps_encodes mapping) as [data Hdata].
  exists data. split; [done|].
  assert (Ht : forall m, (forall q, q <> [] -> q `prefix_of` b -> m !! q = Some Dir) ->
             traverse m (b ++ [mapping_enc]) = Ok tt).
  { intros m Hm. apply traverse_spec. rewrite removelast_last. exact Hm. }
  pose proof (proj1 (path_is_dir_spec _ _) Hb) as Hdirs.
  unfold save_mapping. rewrite bind_update_fs, write_bytes_at by done.
  rewrite write_at_ok; [|by destruct b|by apply Ht|done].
  rewrite Hdata, bind_lift_Ok. unfold bind. rewrite encrypt_data_eq by done.
  unfold update_fs. cbn [fs with_files consume]. rewrite write_bytes_at by done.
  rewrite write_at_ok; [|by destruct b| |].
  - by rewrite insert_insert_eq.
  - apply Ht. intros q Hq Hpre. rewrite lookup_insert_ne; [by apply Hdirs|].
    intros <-. by apply prefix_snoc_not in Hpre.
  - by rewrite lookup_insert_eq.
Qed.

(** ** The files of the mirror *)

Lemma mirror_files_spec b m q :
  q ∈ mirror_files b m <-> cleared b q = true /\ exists c, m !! q = Some (File c).
Proof.
  unfold mirror_files.
  rewrite list_elem_of_In, filter_In, <- list_elem_of_In, andb_true_iff, list_elem_of_fmap.
  split.
  - intros [([q' n] & -> & Hin%elem_of_map_to_list) [Hc Hf]]. cbn [fst] in *.
    split; [done|]. rewrite Hin in Hf |- *. destruct n; [by eexists | done].
  - intros [Hc [c Hq]]. split; [|by rewrite Hq]. exists (q, File c).
    split; [done|]. by apply elem_of_map_to_list.
Qed.

Lemma NoDup_mirror_files b m : NoDup (mirror_files b m).
Proof.
  unfold mirror_files. apply NoDup_ListNoDup, List.NoDup_filter, NoDup_ListNoDup.
  apply NoDup_fst_map_to_list.
Qed.

Lemma mirror_of_ext b m m' L :
  (forall q, cleared b q = true -> m' !! q = m !! q) -> mirror_of b m L -> mirror_of b m' L.
Proof. intros H Hm q Hq. rewrite H by done. by apply Hm. Qed.

Lemma dirs_added_refl m p : dirs_added m m p.
Proof. split; [done|]. intros q _. by left. Qed.

Lemma NoDup_map_app (b : path) (L : list path) : NoDup L -> NoDup (map (app b) L).
Proof.
  induction 1 as [|x L Hx _ IH]; [constructor|]. cbn [map]. constructor; [|done].
  intros Hin%list_elem_of_In. apply in_map_iff in Hin as (y & Heq%app_inv_head & Hy).
  subst y. by apply Hx, list_elem_of_In.
Qed.

Section Mirror.
Variables (b : path) (m : gmap path node) (L : list path).
Hypothesis Hb : path_is_dir m b = true.
Hypothesis Hm : mirror_of b m L.
Hypothesis Hpw : forall x y, In x L -> In y L -> x `prefix_of` y -> x = y.
Hypothesis Hcl : forall enc, In enc L -> cleared b (b ++ enc) = true.

Lemma mirror_file_at enc : In enc L -> exists c, m !! (b ++ enc) = Some (File c).
Proof.
  intros Hin. pose proof (Hm _ (Hcl enc Hin)) as H.
  destruct (m !! (b ++ enc)) as [[c|]|]; [by exists c | |].
  - destruct H as (enc' & Hin' & Hpre%prefix_app_inv & Hne).
    by rewrite (Hpw enc enc') in Hne.
  - by destruct (H enc Hin).
Qed.

Lemma mirror_dir_at enc q :
  In enc L -> cleared b q = true -> q `prefix_of` b ++ enc -> q <> b ++ enc ->
  m !! q = Some Dir.
Proof.
  intros Hin Hq Hpre Hne. pose proof (Hm q Hq) as H.
  destruct (m !! q) as [[c|]|]; [|done|by destruct (H enc Hin)].
  destruct H as (enc' & Hin' & ->). apply prefix_app_inv in Hpre.
  by rewrite (Hpw enc' enc) in Hne.
Qed.

Lemma mirror_read enc c :
  In enc L -> m !! (b ++ enc) = Some (File c) -> read_at m (b ++ enc) = Ok c.
Proof.
  intros Hin Hc. pose proof (Hcl enc Hin) as Hce.
  apply read_at_ok; [|by eapply cleared_nonempty|done].
  apply traverse_spec. intros q Hq Hpre.
  assert (q <> b ++ enc).
  { intros ->. apply (not_prefix_removelast (b ++ enc)); [|done].
    by eapply cleared_nonempty. }
  apply prefix_removelast in Hpre. destruct (cleared b q) eqn:Hcq.
  - by apply (mirror_dir_at enc).
  - apply (proj1 (path_is_dir_spec m b) Hb); [done|]. by eapply not_cleared_prefix.
Qed.

Lemma mirror_files_perm : NoDup L -> mirror_files b m ≡ₚ map (app b) L.
Proof.
  intros Hnd. apply NoDup_Permutation;
    [apply NoDup_mirror_files | by apply NoDup_map_app |].
  intros q. rewrite mirror_files_spec, list_elem_of_In, in_map_iff. split.
  - intros [Hq [c Hc]]. specialize (Hm q Hq). rewrite Hc in Hm.
    destruct Hm as (enc & Hin & ->). by exists enc.
  - intros (enc & <- & Hin). split; [by apply Hcl | by apply mirror_file_at].
Qed.

End Mirror.

(** Two files that can be read do not lie one below the other. *)
Lemma readable_not_prefix m f1 f2 c1 c2 :
  read_at m f1 = Ok c1 -> read_at m f2 = Ok c2 -> f1 `prefix_of` f2 -> f1 = f2.
Proof.
  intros (Hne1 & Hf1 & _)%read_at_inv (_ & _ & Hd2)%read_at_inv Hpre.
  destruct (decide (f1 = f2)) as [|Hne]; [done|].
  rewrite (Hd2 f1) in Hf1; [done | done | by apply prefix_neq_removelast].
Qed.

Lemma readable_incomparable src m rels :
  NoDup rels -> (forall rel, In rel rels -> exists data, read_at m (src ++ rel) = Ok data) ->
  incomparable rels = true.
Proof.
  induction 1 as [|r rels Hr _ IH]; intros Hread; [done|]. cbn [incomparable].
  apply andb_true_iff. split; [|apply IH; intros rel ?; apply Hread; by right].
  apply forallb_forall. intros q Hq.
  destruct (Hread r (or_introl eq_refl)) as [c1 H1].
  destruct (Hread q (or_intror Hq)) as [c2 H2].
  assert (r <> q) by (intros ->; by apply Hr, list_elem_of_In).
  apply andb_true_iff. rewrite !negb_true_iff, !bool_decide_eq_false.
  split; intros Hpre.
  - assert (src ++ r = src ++ q) as E%app_inv_head; [|done].
    eapply readable_not_prefix; [exact H1 | exact H2 | by apply prefix_app].
  - assert (src ++ q = src ++ r) as E%app_inv_head; [|done].
    eapply readable_not_prefix; [exact H2 | exact H1 | by apply prefix_app].
Qed.

Lemma decrypts_to_length d enc rel : decrypts_to d enc rel -> length enc = length rel.
Proof. apply Forall2_length. Qed.

Lemma cleared_not_git b q : cleared b q = true -> ~ (b ++ [dot_git]) `prefix_of` q.
Proof.
  intros (x & rest & -> & Hx)%cleared_spec Hpre%prefix_app_inv.
  by apply prefix_cons_inv_1 in Hpre.
Qed.

Section Backup_shape.
Variable Repo_commit_and_push : path -> M unit.

(** What the transformation leaves: the encrypted relative paths [encs],
    the text of the mapping and the initialization vector it was
    encrypted with. *)
Lemma transform_and_commit_spec (cfg : config) (e : BackupEncryptor.t)
    (d : BackupDecryptor.t) (rels : list path) (w : world) :
  length (BackupEncryptor.key e) = 32%nat ->
  BackupDecryptor.key d = BackupEncryptor.key e ->
  NoDup rels ->
  forallb (selectable (source_dir cfg) (backup_dir cfg) (fs w)) rels = true ->
  wf_fs (fs w) ->
  path_is_dir (fs w) (backup_dir cfg) = true ->
  (forall q, cleared (backup_dir cfg) q = true -> fs w !! q = None) ->
  path_ok (backup_dir cfg ++ [mapping_enc]) = true ->
  (forall w0, exists w1,
     Repo_commit_and_push (backup_dir cfg) w0 = (Ok tt, w1)
     /\ forall q, ~ (backup_dir cfg ++ [dot_git]) `prefix_of` q -> fs w1 !! q = fs w0 !! q) ->
  exists w' encs text iv,
    transform_and_commit Repo_commit_and_push cfg e (map (app (source_dir cfg)) rels) w
    = (Ok tt, w')
    /\ Forall2 (decrypts_to d) encs rels
    /\ Forall (fun enc => enc <> [] /\ Forall (fun a => urlsafe_name a = true) enc) encs
    /\ NoDup (encs ++ [[mapping_enc]])
    /\ path_is_dir (fs w') (backup_dir cfg) = true
    /\ mirror_of (backup_dir cfg) (fs w') (encs ++ [[mapping_enc]])
    /\ (forall x y, In x (encs ++ [[mapping_enc]]) -> In y (encs ++ [[mapping_enc]]) ->
                    x `prefix_of` y -> x = y)
    /\ (forall enc, In enc (encs ++ [[mapping_enc]]) ->
                    cleared (backup_dir cfg) (backup_dir cfg ++ enc) = true)
    /\ Forall2 (fun enc rel =>
          exists iv' data,
            length iv' = 16%nat /\ read_at (fs w) (source_dir cfg ++ rel) = Ok data
            /\ fs w' !! (backup_dir cfg ++ enc)
               = Some (File (iv' ++ ciphertext (BackupEncryptor.key e) iv' data))) encs rels
    /\ length iv = 16%nat
    /\ str_encode_utf8 (json_dumps (mapping_of encs rels)) = Ok text
    /\ fs w' !! (backup_dir cfg ++ [mapping_enc])
       = Some (File (iv ++ ciphertext (BackupEncryptor.key e) iv text))
    /\ (forall q, cleared (backup_dir cfg) q = false ->
                  ~ (backup_dir cfg ++ [dot_git]) `prefix_of` q -> fs w' !! q = fs w !! q)
    /\ incomparable rels = true
    /\ Forall (fun enc => path_ok (backup_dir cfg ++ enc) = true) encs.
Proof.
  set (b := backup_dir cfg). set (src := source_dir cfg).
  intros Hk Hd Hnd Hsel Hwf Hb Hempty Hmok Hgit.
  assert (Hbok : path_ok b = true) by (by apply path_ok_app_l in Hmok).
  assert (Hroot : fs w !! [] = None).
  { destruct (fs w !! []) eqn:E; [|done]. by destruct (Hwf [] (mk_is_Some _ _ E)). }
  assert (Hinc : incomparable rels = true).
  { apply (readable_incomparable src (fs w)); [done|]. intros rel Hin.
    by pose proof (proj1 (forallb_forall _ _) Hsel rel Hin)
      as (_ & _ & ? & _)%selectable_spec. }
  destruct (process_files_spec e d Hk Hd b src Hbok rels
              (printed w [10 :: str_of_string "Encrypting and copying files..."]) [] [])
    as (w1 & E & Hrun & Hm1 & Hdec & Hgood & Hout1 & _ & Hcont & _ & _ & HokE);
    try done.
  { intros q Hq. cbn [fs printed]. by rewrite Hempty. }
  cbn [fs printed app] in Hrun, Hm1, Hout1, Hcont.
  (* the mapping is saved *)
  assert (Hcm : cleared b (b ++ [mapping_enc]) = true).
  { apply cleared_spec. by exists mapping_enc, []. }
  assert (Hhead : forall enc, In enc E -> exists a rest,
            enc = a :: rest /\ urlsafe_name a = true).
  { intros enc Hin. rewrite List.Forall_forall in Hgood.
    destruct (Hgood enc Hin) as [Hne Hsafe]. destruct enc as [|a rest]; [done|].
    apply Forall_cons in Hsafe as [Ha _]. by exists a, rest. }
  assert (Hb1 : path_is_dir (fs w1) b = true) by (by rewrite (path_is_dir_outside b (fs w))).
  assert (Hmd : fs w1 !! (b ++ [mapping_enc]) <> Some Dir).
  { intros Hdir. specialize (Hm1 _ Hcm). rewrite Hdir in Hm1.
    destruct Hm1 as (enc & Hin & Hpre%prefix_app_inv & _).
    destruct (Hhead enc Hin) as (a & rest & -> & Ha).
    apply prefix_cons_inv_1 in Hpre. subst a. by apply urlsafe_name_not_mapping_enc in Ha. }
  destruct (save_mapping_ok e b (mapping_of E rels) w1 Hk Hmok Hb1 Hmd)
    as (text & Htext & Hsave).
  set (iv := next_random w1 16) in Hsave.
  set (blob := iv ++ ciphertext (BackupEncryptor.key e) iv text) in Hsave.
  set (m2 := <[b ++ [mapping_enc] := File blob]> (fs w1)) in Hsave.
  (* the commit *)
  match type of Hsave with _ = (_, ?ww) => set (w2 := ww) in Hsave end.
  destruct (Hgit (printed w2
              [10 :: str_of_string "Backup completed: "
                 ++ str_of_nat (length (map (app src) rels))
                 ++ str_of_string " files encrypted";
               10 :: str_of_string "Committing to git..."]))
    as (w3 & Hcommit & Hout3).
  cbn [fs printed w2 with_files] in Hout3.
  (* the mirror at the end *)
  set (L := E ++ [[mapping_enc]]).
  assert (Hm3 : mirror_of b (fs w3) L).
  { apply (mirror_of_ext b m2).
    - intros q Hq. apply Hout3. by apply cleared_not_git.
    - apply (mirror_step b (fs w1)); [done | apply dirs_added_refl |].
      rewrite removelast_last. by apply path_is_dir_spec. }
  assert (Hb3 : path_is_dir (fs w3) b = true).
  { rewrite <- Hb1. apply path_is_dir_ext. intros q _ Hq. rewrite Hout3.
    - unfold m2. apply lookup_insert_ne. intros <-. by apply prefix_snoc_not in Hq.
    - intros Hpre. apply (prefix_snoc_not b dot_git). by etrans. }
  assert (Hencs : forall x y, In x E -> In y E -> x `prefix_of` y -> x = y).
  { intros x y Hx Hy Hpre.
    destruct (Forall2_In_l _ _ _ _ Hdec Hx) as (rx & Hrx & Hdx).
    destruct (Forall2_In_l _ _ _ _ Hdec Hy) as (ry & Hry & Hdy).
    pose proof (decrypts_to_prefix d _ _ _ _ Hdx Hdy Hpre) as Hr.
    destruct (decide (rx = ry)) as [->|Hne].
    - destruct Hpre as [l ->]. apply decrypts_to_length in Hdx, Hdy.
      rewrite length_app in Hdy. destruct l; [by rewrite app_nil_r | cbn in Hdy; lia].
    - exfalso. pose proof (incomparable_map_In id rels) as Hcmp. rewrite map_id in Hcmp.
      by apply (Hcmp Hinc rx ry). }
  assert (Hpw : forall x y, In x L -> In y L -> x `prefix_of` y -> x = y).
  { intros x y [Hx|[<-|[]]]%in_app_iff [Hy|[<-|[]]]%in_app_iff Hpre; [by apply Hencs | | |done].
    - destruct (Hhead x Hx) as (a & rest & -> & Ha).
      apply prefix_cons_inv_1 in Hpre. subst a. by apply urlsafe_name_not_mapping_enc in Ha.
    - destruct (Hhead y Hy) as (a & rest & -> & Ha).
      apply prefix_cons_inv_1 in Hpre. subst a. by apply urlsafe_name_not_mapping_enc in Ha. }
  assert (Hcl : forall enc, In enc L -> cleared b (b ++ enc) = true).
  { intros enc [Hin|[<-|[]]]%in_app_iff; [|done].
    destruct (Hhead enc Hin) as (a & rest & -> & Ha). apply cleared_spec.
    exists a, rest. split; [done|]. by apply urlsafe_name_not_dot_git. }
  assert (HndE : NoDup E).
  { clear -Hdec Hnd Hd Hk. induction Hdec as [|x r E rels Hx Hdec IH]; [constructor|].
    apply NoDup_cons in Hnd as [Hr Hnd]. constructor; [|by apply IH].
    intros Hin%list_elem_of_In. destruct (Forall2_In_l _ _ _ _ Hdec Hin) as (r' & Hr' & Hx').
    apply Hr, list_elem_of_In. replace r with r'; [done|].
    apply (anti_symm prefix); by eapply (decrypts_to_prefix d). }
  assert (HndL : NoDup L).
  { apply NoDup_app. split; [done|]. split; [|apply NoDup_singleton].
    intros x Hx%list_elem_of_In ->%list_elem_of_singleton.
    destruct (Hhead _ Hx) as (a & rest & [= <- <-] & Ha).
    by apply urlsafe_name_not_mapping_enc in Ha. }
  exists (printed w3 [10 :: banner; str_of_string "Backup process completed successfully!";
                      banner]), E, text, iv.
  split.
  { unfold transform_and_commit. fold b src. rewrite bind_print. unfold bind at 1.
    change (@nil (str * str)) with (mapping_of [] []). rewrite Hrun.
    unfold bind at 1. rewrite Hsave. rewrite !bind_print, !printed_printed. cbn [app].
    unfold bind at 1. rewrite Hcommit. by rewrite !bind_print, print_eq, !printed_printed. }
  cbn [fs printed].
  split; [done|]. split; [done|]. split; [done|]. split; [done|]. split; [done|].
  split; [done|]. split; [done|]. split.
  { eapply Forall2_impl_In; [exact Hcont|].
    intros enc rel Hin _ (iv' & data & Hiv & Hread & Hfile).
    exists iv', data. split; [done|]. split; [done|].
    rewrite Hout3 by (apply cleared_not_git, Hcl, in_app_iff; by left).
    unfold m2. rewrite lookup_insert_ne; [done|]. intros [= <-]%app_inv_head.
    destruct (Hhead _ Hin) as (a & rest & [= <- <-] & Ha).
    by apply urlsafe_name_not_mapping_enc in Ha. }
  split; [apply length_next_random|]. split; [done|]. split.
  { rewrite Hout3 by (by apply cleared_not_git). unfold m2. apply lookup_insert_eq. }
  split; [|done].
  intros q Hq Hgitq. rewrite Hout3 by done. unfold m2.
  rewrite lookup_insert_ne by (intros <-; congruence). by apply Hout1.
Qed.

(** C6. The mirror is a directory that holds nothing but [.git], in a
    well-formed file system, and the selected files are distinct files
    below the source directory, outside the mirror, that can be read and
    whose names can be encoded and are short enough for their encrypted
    names to be entry names (at most 255 bytes each, the whole path
    below 4096); [mapping.enc] in the mirror is a path name the system
    takes; committing succeeds and changes nothing outside [.git].
    Then the transformation succeeds and there are
    encrypted relative paths, one per selected file and in their order,
    such that: each has as many components as the relative path of its
    file, and each component decrypts to the component of the original
    at its place; the files of the mirror are exactly these paths and
    [mapping.enc] at the root of the mirror, one more than the files
    selected; each encrypted file decrypts to the content of its source
    file; and [mapping.enc] decrypts to the JSON text of the mapping
    from each encrypted relative path to its original relative path. *)
Theorem C6_mirror_shape (cfg : config) (e : BackupEncryptor.t) (d : BackupDecryptor.t)
    (rels : list path) (w : world) :
  length (BackupEncryptor.key e) = 32%nat ->
  BackupDecryptor.key d = BackupEncryptor.key e ->
  NoDup rels ->
  forallb (selectable (source_dir cfg) (backup_dir cfg) (fs w)) rels = true ->
  wf_fs (fs w) ->
  path_is_dir (fs w) (backup_dir cfg) = true ->
  (forall q, cleared (backup_dir cfg) q = true -> fs w !! q = None) ->
  path_ok (backup_dir cfg ++ [mapping_enc]) = true ->
  (forall w0, exists w1,
     Repo_commit_and_push (backup_dir cfg) w0 = (Ok tt, w1)
     /\ forall q, ~ (backup_dir cfg ++ [dot_git]) `prefix_of` q -> fs w1 !! q = fs w0 !! q) ->
  exists w' encs,
    transform_and_commit Repo_commit_and_push cfg e (map (app (source_dir cfg)) rels) w
    = (Ok tt, w')
    /\ Forall2 (fun enc rel => length enc = length rel /\ decrypts_to d enc rel) encs rels
    /\ mirror_files (backup_dir cfg) (fs w')
       ≡ₚ (backup_dir cfg ++ [mapping_enc]) :: map (app (backup_dir cfg)) encs
    /\ length (mirror_files (backup_dir cfg) (fs w')) = S (length rels)
    /\ Forall2 (fun enc rel =>
          exists data blob,
            read_at (fs w) (source_dir cfg ++ rel) = Ok data
            /\ read_at (fs w') (backup_dir cfg ++ enc) = Ok blob
            /\ BackupDecryptor.decrypt_data d blob = Ok data) encs rels
    /\ exists blob data,
         read_at (fs w') (backup_dir cfg ++ [mapping_enc]) = Ok blob
         /\ BackupDecryptor.decrypt_data d blob = Ok data
         /\ bytes_decode_utf8 data = Ok (json_dumps (mapping_of encs rels)).
Proof.
  set (b := backup_dir cfg). set (src := source_dir cfg).
  intros Hk Hd Hnd Hsel Hwf Hb Hempty Hmok Hgit.
  destruct (transform_and_commit_spec cfg e d rels w Hk Hd Hnd Hsel Hwf Hb Hempty Hmok Hgit)
    as (w' & E & text & iv & Hrun & Hdec & Hgood & HndL & Hb' & Hm' & Hpw & Hcl & Hcont
        & Hiv & Htext & Hmap & _).
  fold b src in Hrun, Hb', Hm', Hcl, Hcont, Hmap.
  pose proof (mirror_files_perm b (fs w') _ Hm' Hpw Hcl HndL) as Hperm.
  exists w', E. split; [done|].
  split. { eapply Forall2_impl; [exact Hdec|]. intros enc rel H. split; [|done].
           by apply (decrypts_to_length d). }
  split. { rewrite Hperm, map_app. cbn [map]. by rewrite <- Permutation_cons_append. }
  split. { rewrite Hperm, length_map, length_app. cbn [length].
           rewrite (Forall2_length _ _ _ Hdec). lia. }
  split.
  - eapply Forall2_impl_In; [exact Hcont|].
    intros enc rel Hin _ (iv' & data & Hiv' & Hread & Hfile).
    exists data, (iv' ++ ciphertext (BackupEncryptor.key e) iv' data).
    split; [done|]. split.
    + apply (mirror_read b (fs w') (E ++ [[mapping_enc]])); try done.
      apply in_app_iff. by left.
    + rewrite <- Hd. apply decrypt_data_ciphertext; [by rewrite Hd | done].
  - exists (iv ++ ciphertext (BackupEncryptor.key e) iv text), text. split; [|split].
    + apply (mirror_read b (fs w') (E ++ [[mapping_enc]])); try done.
      apply in_app_iff. right. by left.
    + rewrite <- Hd. apply decrypt_data_ciphertext; [by rewrite Hd | done].
    + by apply decode_encode_utf8.
Qed.

End Backup_shape.

(** ** Restoring with a key that does not fit *)

(** [restore_mirror] stops at the mapping when it cannot be read. *)
Lemma restore_mirror_unreadable (cfg : config) (d : BackupDecryptor.t) (w : world)
    (blob : bytes) (ex : exn) :
  path_ok (backup_dir cfg ++ [mapping_enc]) = true ->
  read_at (fs w) (backup_dir cfg ++ [mapping_enc]) = Ok blob ->
  read_mapping d blob = Err ex ->
  restore_mirror cfg d w
  = (Err ex, printed w [10 :: str_of_string "Reading file mapping..."]).
Proof.
  intros Hok Hread Hmap. unfold restore_mirror.
  rewrite bind_with_fs, Path_exists_at, (read_at_exists _ _ _ Hread) by done. cbn [negb].
  rewrite bind_print, bind_with_fs, read_bytes_at by done. cbn [printed fs]. rewrite Hread.
  unfold read_mapping in Hmap.
  destruct (BackupDecryptor.decrypt_data d blob) as [data|e1]; cbn [rbind] in Hmap;
    [|rewrite bind_lift_Err; congruence].
  rewrite bind_lift_Ok.
  destruct (bytes_decode_utf8 data) as [text|e2]; cbn [rbind] in Hmap;
    [|rewrite bind_lift_Err; congruence].
  rewrite bind_lift_Ok, Hmap. by rewrite bind_lift_Err.
Qed.

(** *** What decryption makes of a well-formed blob *)

Lemma length_inv_rounds rks : forall s,
  length s = 16%nat -> length (AES.inv_rounds rks s) = 16%nat.
Proof. destruct rks as [|rk [|rk' rest]]; intros s H; [done | reflexivity | reflexivity]. Qed.

Lemma length_decrypt_block key block :
  length block = 16%nat -> length (AES.decrypt_block key block) = 16%nat.
Proof.
  intros H. unfold AES.decrypt_block, AES.InvCipher.
  destruct (AES.KeyExpansion key) as [|rk0 rest]; [done|].
  unfold AES.AddRoundKey. rewrite length_xor_bytes. by apply length_inv_rounds.
Qed.

Lemma length_cbc_decrypt_blocks key : forall blocks prev,
  Forall (fun b => length b = 16%nat) blocks ->
  length (cbc_decrypt_blocks key prev blocks) = (length blocks * 16)%nat.
Proof.
  induction blocks as [|c rest IH]; intros prev Hall; [done|].
  apply Forall_cons in Hall as [Hc Hrest]. cbn [cbc_decrypt_blocks length].
  rewrite length_app, length_xor_bytes, length_decrypt_block, IH by done. lia.
Qed.

(** Under a key of 32 bytes, a blob of 16 bytes and then whole blocks is
    taken by the cipher: only the padding can be rejected. *)
Lemma decrypt_data_outcome (self : BackupDecryptor.t) (blob : bytes) :
  length (BackupDecryptor.key self) = 32%nat ->
  (16 <= length blob)%nat -> ((length blob - 16) mod 16 = 0)%nat ->
  (exists data,
     BackupDecryptor.decrypt_data self blob = Ok data
     /\ (length blob - 32 <= length data < length blob - 16)%nat)
  \/ BackupDecryptor.decrypt_data self blob = Err ValueError_InvalidPadding.
Proof.
  intros Hk Hge Hm. unfold BackupDecryptor.decrypt_data.
  rewrite Cipher_AES_CBC_ok by (done || rewrite length_take; lia). cbn [rbind].
  unfold decryptor_run. rewrite length_drop, Hm. cbn [Nat.eqb negb rbind cipher_key cipher_iv].
  destruct (mod16_multiple _ Hm) as [k Hlen].
  destruct (chunks_exact 16 ltac:(lia) k (drop 16 blob)) as (_ & Hall & Hcount);
    [by rewrite length_drop|].
  pose proof (length_cbc_decrypt_blocks (BackupDecryptor.key self) _ (take 16 blob) Hall) as Hl.
  rewrite Hcount in Hl.
  set (padded := cbc_decrypt_blocks _ _ _) in *.
  unfold PKCS7_unpad.
  destruct (Nat.eqb (length padded) 0 || negb (Nat.eqb (length padded mod 16) 0)) eqn:E0;
    [by right|].
  apply orb_false_iff in E0 as [E0 _]. apply Nat.eqb_neq in E0.
  set (v := N.to_nat (Byte.to_N (List.last padded x00))).
  destruct (Nat.leb 1 v && Nat.leb v 16 && _) eqn:E1; [|by right].
  apply andb_true_iff in E1 as [[H1 H16]%andb_true_iff _].
  apply Nat.leb_le in H1, H16.
  left. eexists. split; [done|]. rewrite length_take. lia.
Qed.

(** *** The errors of the decoder and of the parser *)

Lemma bytes_decode_utf8_error : forall (n : nat) (bs : bytes) (ex : exn),
  (length bs <= n)%nat -> bytes_decode_utf8 bs = Err ex -> ex = UnicodeDecodeError.
Proof.
  induction n as [|n IH]; intros bs ex Hlen; destruct bs as [|b0 r0];
    cbn [bytes_decode_utf8]; try congruence; cbn [length] in Hlen; [lia|].
  assert (Hrec : forall (r : bytes) (c : N),
             (length r <= n)%nat ->
             (s <- bytes_decode_utf8 r ;; Ok (c :: s)) = Err ex -> ex = UnicodeDecodeError).
  { intros r c Hr. destruct (bytes_decode_utf8 r) as [s|e0] eqn:E; cbn [rbind]; [done|].
    intros [= <-]. by apply (IH r). }
  repeat match goal with
         | |- (if ?c then _ else _) = _ -> _ => destruct c
         | |- match ?x with _ => _ end = _ -> _ => destruct x
         end; try congruence; apply Hrec; cbn [length] in Hlen; lia.
Qed.

Lemma scanstring_error : forall (fuel : nat) (s acc : str) (ex : exn),
  scanstring fuel s acc = Err ex -> ex = JSONDecodeError.
Proof.
  induction fuel as [|f IH]; intros s acc ex; cbn [scanstring]; [destruct s; congruence|].
  destruct s as [|c s1]; [congruence|].
  repeat match goal with
         | |- (if ?c then _ else _) = _ -> _ => destruct c
         | |- match ?x with _ => _ end = _ -> _ => destruct x
         end; try congruence; apply IH.
Qed.

Lemma parse_error (fuel : nat) :
  (forall s ex, parse_value fuel s = Err ex -> ex = JSONDecodeError)
  /\ (forall s acc ex, parse_members fuel s acc = Err ex -> ex = JSONDecodeError)
  /\ (forall s acc ex, parse_items fuel s acc = Err ex -> ex = JSONDecodeError).
Proof.
  induction fuel as [|f (IHv & IHm & IHi)].
  { split; [|split]; intros; destruct s; cbn in *; congruence. }
  assert (Hs : forall s1 (k : str * str -> result (json * str)) ex,
             (forall kr e0, k kr = Err e0 -> e0 = JSONDecodeError) ->
             (kr <- scanstring (S f) s1 [] ;; k kr) = Err ex -> ex = JSONDecodeError).
  { intros s1 k ex Hk. destruct (scanstring (S f) s1 []) as [kr|e0] eqn:E; cbn [rbind].
    - apply Hk.
    - intros [= <-]. by apply scanstring_error in E. }
  assert (Hv : forall s (k : json * str -> result (json * str)) ex,
             (forall vr e0, k vr = Err e0 -> e0 = JSONDecodeError) ->
             (vr <- parse_value f s ;; k vr) = Err ex -> ex = JSONDecodeError).
  { intros s k ex Hk. destruct (parse_value f s) as [vr|e0] eqn:E; cbn [rbind].
    - apply Hk.
    - intros [= <-]. by apply IHv in E. }
  split; [|split].
  - intros s ex. destruct s as [|c s1]; [cbn; congruence|].
    change (parse_value (S f) (c :: s1))
      with (if c =? 34 then kr <- scanstring (S f) s1 [] ;; Ok (JString kr.1, kr.2)
            else if c =? 123 then
              match skip_ws s1 with
              | c' :: s2 => if c' =? 125 then Ok (JObject [], s2)
                            else parse_members f (skip_ws s1) []
              | [] => Err JSONDecodeError
              end
            else if c =? 91 then
              match skip_ws s1 with
              | c' :: s2 => if c' =? 93 then Ok (JArray [], s2)
                            else parse_items f (skip_ws s1) []
              | [] => Err JSONDecodeError
              end
            else match scan_literal (c :: s1) with
                 | Some vr => Ok vr
                 | None => Err JSONDecodeError
                 end).
    destruct (c =? 34); [apply Hs; congruence|].
    destruct (c =? 123).
    { destruct (skip_ws s1) as [|c' s2]; [congruence|].
      destruct (c' =? 125); [congruence | apply IHm]. }
    destruct (c =? 91).
    { destruct (skip_ws s1) as [|c' s2]; [congruence|].
      destruct (c' =? 93); [congruence | apply IHi]. }
    destruct (scan_literal (c :: s1)); congruence.
  - intros s acc ex. destruct s as [|q s1]; [cbn; congruence|].
    change (parse_members (S f) (q :: s1) acc)
      with (if q =? 34 then
              kr <- scanstring (S f) s1 [] ;;
              match skip_ws kr.2 with
              | colon :: s3 =>
                  if colon =? 58 then
                    vr <- parse_value f (skip_ws s3) ;;
                    let acc' := dict_set kr.1 vr.1 acc in
                    match skip_ws vr.2 with
                    | c :: s5 =>
                        if c =? 125 then Ok (JObject acc', s5)
                        else if c =? 44 then parse_members f (skip_ws s5) acc'
                        else Err JSONDecodeError
                    | [] => Err JSONDecodeError
                    end
                  else Err JSONDecodeError
              | [] => Err JSONDecodeError
              end
            else Err JSONDecodeError).
    destruct (q =? 34); [|congruence]. apply Hs. intros kr e0.
    destruct (skip_ws kr.2) as [|colon s3]; [congruence|].
    destruct (colon =? 58); [|congruence]. apply Hv. intros vr e1. cbv zeta.
    destruct (skip_ws vr.2) as [|c s5]; [congruence|].
    destruct (c =? 125); [congruence|]. destruct (c =? 44); [apply IHm | congruence].
  - intros s acc ex.
    change (parse_items (S f) s acc)
      with (vr <- parse_value f s ;;
            match skip_ws vr.2 with
            | c :: s2 =>
                if c =? 93 then Ok (JArray (acc ++ [vr.1]), s2)
                else if c =? 44 then parse_items f (skip_ws s2) (acc ++ [vr.1])
                else Err JSONDecodeError
            | [] => Err JSONDecodeError
            end).
    apply Hv. intros vr e1.
    destruct (skip_ws vr.2) as [|c s2]; [congruence|].
    destruct (c =? 93); [congruence|]. destruct (c =? 44); [apply IHi | congruence].
Qed.

Lemma json_loads_error (s : str) (ex : exn) : json_loads s = Err ex -> ex = JSONDecodeError.
Proof.
  unfold json_loads.
  assert (H : (vr <- parse_value (S (length s)) (skip_ws s) ;;
               match skip_ws vr.2 with
               | [] => Ok vr.1
               | _ :: _ => Err JSONDecodeError
               end) = Err ex -> ex = JSONDecodeError).
  { destruct (parse_value (S (length s)) (skip_ws s)) as [vr|e0] eqn:E; cbn [rbind].
    - destruct (skip_ws vr.2); congruence.
    - intros [= <-]. by apply (proj1 (parse_error _)) in E. }
  destruct s as [|c s']; [exact H|].
  repeat match goal with
         | |- match ?x with _ => _ end = _ -> _ => destruct x
         end; try congruence; exact H.
Qed.

(** The three ways in which a well-formed blob is not a mapping. *)
Lemma read_mapping_error (d : BackupDecryptor.t) (blob : bytes) (ex : exn) :
  length (BackupDecryptor.key d) = 32%nat ->
  (16 <= length blob)%nat -> ((length blob - 16) mod 16 = 0)%nat ->
  read_mapping d blob = Err ex ->
  ex = ValueError_InvalidPadding \/ ex = UnicodeDecodeError \/ ex = JSONDecodeError.
Proof.
  intros Hk Hge Hm. unfold read_mapping.
  destruct (decrypt_data_outcome d blob Hk Hge Hm) as [(data & -> & _) | ->]; cbn [rbind];
    [|intros [= <-]; by left].
  destruct (bytes_decode_utf8 data) as [text|e0] eqn:E; cbn [rbind].
  - intros H%json_loads_error. by right; right.
  - intros [= <-]. right; left. by apply (bytes_decode_utf8_error (length data) data).
Qed.

Section Restore_fails.
Variable Repo_commit_and_push : path -> M unit.


End Restore_fails.

(** ** The conditions on a file system, decided *)

Lemma wf_fsb_spec m : wf_fsb m = true -> wf_fs m.
Proof.
  unfold wf_fsb. rewrite forallb_forall. intros H p [n Hp].
  assert (Hin : In p (map_to_list m).*1).
  { apply list_elem_of_In, list_elem_of_fmap. exists (p, n).
    split; [done|]. by apply elem_of_map_to_list. }
  apply H in Hin. apply andb_prop in Hin as [[H1 H2]%andb_prop H3].
  apply negb_true_iff, bool_decide_eq_false in H1. split; [done|]. split; [|done].
  by destruct (node_at m (removelast p)) as [[|]|].
Qed.

Lemma mirror_clearedb_spec b m :
  mirror_clearedb b m = true -> forall q, cleared b q = true -> m !! q = None.
Proof.
  unfold mirror_clearedb. rewrite forallb_forall. intros H q Hq.
  destruct (m !! q) as [n|] eqn:E; [|done].
  assert (negb (cleared b q) = true) as Hn; [|by rewrite Hq in Hn].
  apply H, list_elem_of_In, list_elem_of_fmap. exists (q, n).
  split; [done|]. by apply elem_of_map_to_list.
Qed.

(** ** The constructors *)

Lemma BackupEncryptor_init_ok P pw :
  str_encode_utf8 P = Ok pw ->
  BackupEncryptor.__init__ P
  = Ok {| BackupEncryptor.key := PBKDF2HMAC.derive 32 salt 100000 pw |}.
Proof. intros H. unfold BackupEncryptor.__init__. rewrite H. exact eq_refl. Qed.

Lemma BackupDecryptor_init_ok P pw :
  str_encode_utf8 P = Ok pw ->
  BackupDecryptor.__init__ P
  = Ok {| BackupDecryptor.key := PBKDF2HMAC.derive 32 salt 100000 pw |}.
Proof. intros H. unfold BackupDecryptor.__init__. rewrite H. exact eq_refl. Qed.

Lemma encode_correct : str_encode_utf8 (str_of_string "correct") = Ok (ascii_bytes "correct").
Proof. vm_compute. reflexivity. Qed.

Lemma encode_wrong : str_encode_utf8 (str_of_string "wrong") = Ok (ascii_bytes "wrong").
Proof. vm_compute. reflexivity. Qed.

(** ** The claims on the sample *)

Lemma C1_decrypt_encrypt_data_sample :
  exists blob w',
    BackupEncryptor.encrypt_data
      {| BackupEncryptor.key := PBKDF2HMAC.derive 32 salt 100000 (ascii_bytes "correct") |}
      (ascii_bytes "buy milk") sample_world = (Ok blob, w')
    /\ BackupDecryptor.decrypt_data
         {| BackupDecryptor.key := PBKDF2HMAC.derive 32 salt 100000 (ascii_bytes "correct") |}
         blob = Ok (ascii_bytes "buy milk").
Proof.
  apply (C1_decrypt_encrypt_data (str_of_string "correct")).
  - exact (BackupEncryptor_init_ok _ _ encode_correct).
  - exact (BackupDecryptor_init_ok _ _ encode_correct).
Defined.

Lemma C3_key_derivation_sample :
  exists e d,
    BackupEncryptor.__init__ (str_of_string "correct") = Ok e
    /\ BackupDecryptor.__init__ (str_of_string "correct") = Ok d
    /\ BackupEncryptor.key e = BackupDecryptor.key d
    /\ length (BackupEncryptor.key e) = 32%nat
    /\ BackupEncryptor.key e
       = PBKDF2HMAC.derive 32 (ascii_bytes "Git-Backup-Enc-Salt-v1") 100000
           (ascii_bytes "correct")
    /\ 100000 <= 100000.
Proof. exact (C3_key_derivation (str_of_string "correct") _ encode_correct). Defined.

Lemma C4_malformed_blob_sample :
  exists e,
    BackupDecryptor.decrypt_data sample_decryptor (ascii_bytes "seventeen bytes..") = Err e
    /\ MalformedBlobError e /\ ~ PaddingError e
    /\ ((length (ascii_bytes "seventeen bytes..") < 16)%nat -> e = ValueError_InvalidIVSize)
    /\ ((16 <= length (ascii_bytes "seventeen bytes.."))%nat
        -> e = ValueError_NotBlockMultiple).
Proof.
  apply C4_malformed_blob; [reflexivity|]. right. vm_compute. discriminate.
Defined.

Lemma C5_decrypt_encrypt_filename_sample :
  exists name w',
    BackupEncryptor.encrypt_filename sample_encryptor (str_of_string "todo.txt") sample_world
    = (Ok name, w')
    /\ BackupDecryptor.decrypt_filename sample_decryptor name = Ok (str_of_string "todo.txt")
    /\ Forall (fun c => is_urlsafe_char c = true) name.
Proof.
  destruct (C5_decrypt_encrypt_filename sample_encryptor sample_decryptor
              (str_of_string "todo.txt") sample_world)
    as (name & blob & w' & H1 & H2 & _ & H3 & _).
  - reflexivity.
  - reflexivity.
  - apply List.Forall_forall, forallb_forall. vm_compute. reflexivity.
  - exists name, w'. split; [exact H1|]. split; [exact H2 | exact H3].
Defined.

Lemma C7_blob_layout_sample :
  exists iv ct w',
    BackupEncryptor.encrypt_data sample_encryptor [] sample_world = (Ok (iv ++ ct), w')
    /\ length iv = 16%nat /\ length ct = 16%nat.
Proof.
  destruct (C7_blob_layout sample_encryptor [] sample_world)
    as (iv & ct & w' & H1 & _ & H2 & _ & _ & _ & _ & H3).
  - reflexivity.
  - exists iv, ct, w'. split; [exact H1|]. split; [exact H2|].
    destruct (H3 eq_refl) as (_ & H4 & _). exact H4.
Defined.

Lemma C10_empty_selection_sample :
  exists w',
    backup (fun _ _ => Ok []) git_noop git_noop git_noop sample_cfg sample_world_stale
    = (Ok tt, w')
    /\ fs w' = sample_fs_stale.
Proof.
  destruct (C10_empty_selection (fun _ _ => Ok []) git_noop git_noop git_noop
              sample_cfg sample_world_stale
              {| BackupEncryptor.key
                 := PBKDF2HMAC.derive 32 salt 100000 (ascii_bytes "correct") |})
    as (w' & H1 & H2 & _).
  - exact (BackupEncryptor_init_ok _ _ encode_correct).
  - reflexivity.
  - exists w'. split; [exact H1 | exact H2].
Defined.

Lemma sample_mirror_fs_eq : fs (snd sample_backup) = sample_mirror_fs.
Proof.
  unfold sample_mirror_fs.
  assert (sample_mirror_entries = map_to_list (fs (snd sample_backup))) as ->
    by (vm_compute; reflexivity).
  symmetry. apply list_to_map_to_list.
Qed.

Lemma C9_mirror_cleared_sample :
  exists w2,
    clear_backup_directory (backup_dir sample_cfg)
      (printed sample_world_stale [str_of_string "Using existing repository at /mirror"])
    = (Ok tt, w2)
    /\ fs w2 !! sample_path ["mirror"; "b2xk"; "ZmlsZQ"] = None
    /\ fs w2 !! sample_path ["mirror"; ".git"; "HEAD"]
       = Some (File (ascii_bytes "ref: refs/heads/main")).
Proof.
  destruct (C9_mirror_cleared git_noop git_noop git_noop sample_cfg sample_encryptor []
              sample_world_stale
              (printed sample_world_stale
                 [str_of_string "Using existing repository at /mirror"]))
    as (w2 & H1 & H2 & H3 & _).
  - vm_compute. reflexivity.
  - apply wf_fsb_spec. vm_compute. reflexivity.
  - vm_compute. reflexivity.
  - exists w2. split; [exact H1|]. split.
    + apply H2. vm_compute. reflexivity.
    + rewrite H3; [|vm_compute; reflexivity]. vm_compute. reflexivity.
Defined.

Lemma C6_mirror_shape_sample :
  exists w' encs,
    transform_and_commit git_noop sample_cfg sample_encryptor
      (map (app (source_dir sample_cfg)) sample_rels) sample_world = (Ok tt, w')
    /\ Forall2 (fun enc rel => length enc = length rel
                               /\ decrypts_to sample_decryptor enc rel) encs sample_rels
    /\ length (mirror_files (backup_dir sample_cfg) (fs w')) = 3%nat.
Proof.
  destruct (C6_mirror_shape git_noop sample_cfg sample_encryptor sample_decryptor
              sample_rels sample_world)
    as (w' & encs & H1 & H2 & _ & H3 & _).
  - reflexivity.
  - reflexivity.
  - apply (bool_decide_unpack _). vm_compute. exact I.
  - vm_compute. reflexivity.
  - apply wf_fsb_spec. vm_compute. reflexivity.
  - vm_compute. reflexivity.
  - apply mirror_clearedb_spec. vm_compute. reflexivity.
  - vm_compute. reflexivity.
  - intros w0. exists w0. split; [reflexivity|]. intros q _. reflexivity.
  - exists w', encs. split; [exact H1|]. split; [exact H2 | exact H3].
Defined.

Lemma sample_backup_eq :
  transform_and_commit git_noop sample_cfg sample_encryptor
    (map (app (source_dir sample_cfg)) sample_rels) sample_world
  = (Ok tt, snd sample_backup).
Proof.
  change (sample_backup = (Ok tt, snd sample_backup)).
  rewrite (surjective_pairing sample_backup) at 1.
  assert (fst sample_backup = Ok tt) as -> by (vm_compute; reflexivity). reflexivity.
Qed.



Lemma C8_partial_mirror_sample :
  exists w' n,
    restore_mirror sample_cfg sample_decryptor sample_partial_world = (Ok tt, w')
    /\ n = 1%nat /\ (n < 2)%nat
    /\ same_mirror (backup_dir sample_cfg) (fs sample_partial_world) (fs w').
Proof.
  let r := eval vm_compute in
    (read_at sample_partial_fs (backup_dir sample_cfg ++ [mapping_enc])) in
  match r with
  | Ok ?blob =>
      let g := eval vm_compute in (BackupDecryptor.decrypt_data sample_decryptor blob) in
      match g with
      | Ok ?data =>
          let t := eval vm_compute in (bytes_decode_utf8 data) in
          match t with
          | Ok ?text =>
              let j := eval vm_compute in (json_loads text) in
              match j with
              | Ok (JObject ?items) =>
                  destruct (C8_partial_mirror sample_cfg sample_decryptor
                              sample_partial_world blob data text items)
                    as (w' & n & H1 & H0 & H2 & _ & _ & _ & H3)
              end
          end
      end
  end.
  - vm_compute. reflexivity.
  - vm_compute. reflexivity.
  - vm_compute. reflexivity.
  - vm_compute. reflexivity.
  - vm_compute. reflexivity.
  - vm_compute. reflexivity.
  - vm_compute. reflexivity.
  - vm_compute. reflexivity.
  - exists w', n. split; [exact H1|]. split; [|split; [exact H2 | exact H3]].
    rewrite H0. vm_compute. reflexivity.
Defined.

(** ** The mapping read back from its text *)

Lemma hex_value_char d : d < 16 -> hex_value (hex_char d) = Some d.
Proof.
  intros H. unfold hex_value, hex_char, is_digit.
  destruct (N.ltb_spec d 10).
  - destruct (N.leb_spec 48 (48 + d)), (N.leb_spec (48 + d) 57); try lia.
    cbn [andb]. f_equal. lia.
  - destruct (N.leb_spec 48 (87 + d)), (N.leb_spec (87 + d) 57); try lia; cbn [andb];
      destruct (N.leb_spec 97 (87 + d)), (N.leb_spec (87 + d) 102); try lia;
      cbn [andb]; f_equal; lia.
Qed.

Lemma parse_hex4_hex4 n rest : n < 65536 -> parse_hex4 (hex4 n ++ rest) = Some (n, rest).
Proof.
  intros H. unfold hex4. cbn [app parse_hex4].
  rewrite !hex_value_char by (apply N.mod_lt; lia). do 2 f_equal. lia.
Qed.

(** One character of a string is read back as it was written. *)
Lemma scanstring_escape (c : N) (f : nat) (rest acc : str) :
  is_scalar c = true ->
  scanstring (S f) (json_escape c ++ rest) acc = scanstring f rest (c :: acc).
Proof.
  unfold is_scalar, is_surrogate. intros [Hmax Hsur]%andb_prop.
  apply N.ltb_lt in Hmax. apply negb_true_iff in Hsur.
  unfold json_escape.
  destruct (N.eqb_spec c 34) as [->|H34]; [reflexivity|].
  destruct (N.eqb_spec c 92) as [->|H92]; [reflexivity|].
  destruct (N.eqb_spec c 10) as [->|H10]; [reflexivity|].
  destruct (N.eqb_spec c 13) as [->|H13]; [reflexivity|].
  destruct (N.eqb_spec c 9) as [->|H9]; [reflexivity|].
  destruct (N.eqb_spec c 8) as [->|H8]; [reflexivity|].
  destruct (N.eqb_spec c 12) as [->|H12]; [reflexivity|].
  destruct (N.leb_spec 32 c) as [H32|H32], (N.leb_spec c 126) as [H126|H126]; cbn [andb].
  - (* a printable character *)
    cbn [app scanstring].
    destruct (N.eqb_spec c 34); [lia|]. destruct (N.eqb_spec c 92); [lia|].
    destruct (N.ltb_spec c 32); [lia | reflexivity].
  - destruct (N.ltb_spec c 0x10000) as [Hb|Hb].
    + (* one escape *)
      cbn [app scanstring]. change (92 =? 34) with false. change (92 =? 92) with true.
      change (117 =? 117) with true. cbv iota. rewrite parse_hex4_hex4 by done.
      destruct ((0xd800 <=? c) && (c <=? 0xdbff)) eqn:E; [|reflexivity].
      apply andb_prop in E as [E1 E2]. apply N.leb_le in E1, E2.
      apply andb_false_iff in Hsur as [Hs|Hs]; apply N.leb_gt in Hs; lia.
    + (* a pair of escapes *)
      set (v := c - 0x10000).
      assert (Hv : v < 0x100000) by (unfold v; lia).
      cbn [app scanstring]. change (92 =? 34) with false. change (92 =? 92) with true.
      change (117 =? 117) with true. cbv iota. rewrite <- !app_assoc.
      rewrite parse_hex4_hex4 by lia.
      destruct (N.leb_spec 0xd800 (0xd800 + v / 1024)); [|lia].
      destruct (N.leb_spec (0xd800 + v / 1024) 0xdbff); [|lia]. cbn [andb app].
      change (92 =? 92) with true. change (117 =? 117) with true. cbn [andb].
      rewrite parse_hex4_hex4 by lia.
      destruct (N.leb_spec 0xdc00 (0xdc00 + v mod 1024)); [|lia].
      destruct (N.leb_spec (0xdc00 + v mod 1024) 0xdfff); [|lia]. cbn [andb].
      f_equal. f_equal. unfold v. lia.
  - cbn [app scanstring]. change (92 =? 34) with false. change (92 =? 92) with true.
    change (117 =? 117) with true. cbv iota.
    destruct (N.ltb_spec c 0x10000); [|lia]. cbn [app]. rewrite parse_hex4_hex4 by done.
    destruct (N.leb_spec 0xd800 c); [lia|]. reflexivity.
  - lia.
Qed.

Lemma json_escape_nonempty c : (1 <= length (json_escape c))%nat.
Proof.
  unfold json_escape.
  repeat match goal with
         | |- context [if ?b then _ else _] => destruct b
         end; cbn [length app]; lia.
Qed.

Lemma length_escaped s : (length s <= length (concat (map json_escape s)))%nat.
Proof.
  induction s as [|c s IH]; [done|]. cbn [map concat length]. rewrite length_app.
  pose proof (json_escape_nonempty c). lia.
Qed.

(** A string is read back as it was written. *)
Lemma scanstring_json_string (s : str) : forall (fuel : nat) (rest acc : str),
  Forall (fun c => is_scalar c = true) s -> (length s < fuel)%nat ->
  scanstring fuel (concat (map json_escape s) ++ 34 :: rest) acc = Ok (rev acc ++ s, rest).
Proof.
  induction s as [|c s IH]; intros fuel rest acc Hs Hf.
  - destruct fuel as [|f]; [cbn in Hf; lia|]. cbn [map concat app scanstring].
    change (34 =? 34) with true. cbv iota. by rewrite app_nil_r.
  - apply Forall_cons in Hs as [Hc Hs]. destruct fuel as [|f]; [cbn in Hf; lia|].
    cbn [map concat]. rewrite <- app_assoc, scanstring_escape by done.
    rewrite IH by (done || cbn in Hf; lia). cbn [rev]. by rewrite <- app_assoc.
Qed.

Lemma length_json_string s : (length s + 2 <= length (json_string s))%nat.
Proof.
  unfold json_string. rewrite !length_app. cbn [length]. pose proof (length_escaped s). lia.
Qed.

(** The value of a member, from the text after its colon. *)
Lemma parse_value_json_string (v : str) (fuel : nat) (rest : str) :
  Forall (fun c => is_scalar c = true) v -> (length v < fuel)%nat ->
  parse_value fuel (json_string v ++ rest) = Ok (JString v, rest).
Proof.
  intros Hv Hf. destruct fuel as [|f]; [lia|]. unfold json_string.
  cbn [app parse_value]. change (34 =? 34) with true. cbv iota.
  rewrite <- app_assoc. cbn [app]. rewrite scanstring_json_string by (done || lia).
  reflexivity.
Qed.

(** One member, from the text at its indentation. *)
Lemma parse_members_member (kv : str * str) (f : nat) (tail : str) (acc : list (str * json)) :
  Forall (fun c => is_scalar c = true) kv.1 -> Forall (fun c => is_scalar c = true) kv.2 ->
  (length kv.1 <= f)%nat -> (length kv.2 < f)%nat ->
  parse_members (S f) (skip_ws (json_member kv ++ tail)) acc
  = match skip_ws tail with
    | c :: s5 =>
        if c =? 125 then Ok (JObject (dict_set kv.1 (JString kv.2) acc), s5)
        else if c =? 44
             then parse_members f (skip_ws s5) (dict_set kv.1 (JString kv.2) acc)
             else Err JSONDecodeError
    | [] => Err JSONDecodeError
    end.
Proof.
  intros Hk Hv Hlk Hlv. unfold json_member. rewrite <- !app_assoc.
  unfold json_string at 1. rewrite <- !app_assoc. cbn [app skip_ws].
  change (is_ws 32) with true. change (is_ws 34) with false. cbv iota.
  cbn [parse_members]. change (34 =? 34) with true. cbv iota.
  rewrite scanstring_json_string by (done || lia). cbn [rbind fst snd rev app skip_ws].
  change (is_ws 58) with false. cbv iota. change (58 =? 58) with true. cbv iota.
  change (is_ws 32) with true. cbv iota.
  assert (Hskip : forall t, skip_ws (json_string kv.2 ++ t) = json_string kv.2 ++ t)
    by reflexivity.
  change (skip_ws (32 :: json_string kv.2 ++ tail)) with (skip_ws (json_string kv.2 ++ tail)).
  rewrite Hskip, parse_value_json_string by done. reflexivity.
Qed.

Lemma length_json_member kv :
  (length kv.1 + length kv.2 + 8 <= length (json_member kv))%nat.
Proof.
  unfold json_member. rewrite !length_app. cbn [length].
  pose proof (length_json_string kv.1). pose proof (length_json_string kv.2). lia.
Qed.

(** The members of a dictionary, from the text at the first one. *)
Lemma parse_members_dumps (d : list (str * str)) :
  forall (fuel : nat) (rest : str) (acc : list (str * json)),
    d <> [] ->
    Forall (fun kv => Forall (fun c => is_scalar c = true) kv.1
                      /\ Forall (fun c => is_scalar c = true) kv.2) d ->
    (length (join_members (map json_member d)) < fuel)%nat ->
    parse_members fuel (skip_ws (join_members (map json_member d) ++ [10; 125] ++ rest)) acc
    = Ok (JObject (members_read d acc), rest).
Proof.
  induction d as [|kv d IH]; intros fuel rest acc Hne Hall Hf; [done|].
  apply Forall_cons in Hall as [[Hk Hv] Hall].
  pose proof (length_json_member kv) as Hlen.
  destruct d as [|kv2 d].
  - cbn [map join_members] in *. destruct fuel as [|f]; [lia|].
    rewrite parse_members_member by (done || lia). reflexivity.
  - change (join_members (map json_member (kv :: kv2 :: d)))
      with (json_member kv ++ [44; 10] ++ join_members (map json_member (kv2 :: d))) in *.
    rewrite !length_app in Hf. cbn [length] in Hf.
    destruct fuel as [|f]; [lia|]. rewrite <- !app_assoc.
    rewrite parse_members_member by (done || lia).
    cbn [app skip_ws]. change (is_ws 44) with false. cbv iota.
    change (44 =? 125) with false. change (44 =? 44) with true. cbv iota.
    change (is_ws 10) with true. cbv iota.
    rewrite (IH f rest) by (done || lia). reflexivity.
Qed.

(** [json.loads] reads back what [json.dumps] wrote: the members are
    those of the dictionary, each value a string. *)
Lemma json_loads_dumps (d : list (str * str)) :
  Forall (fun kv => Forall (fun c => is_scalar c = true) kv.1
                    /\ Forall (fun c => is_scalar c = true) kv.2) d ->
  json_loads (json_dumps d) = Ok (JObject (members_read d [])).
Proof.
  intros Hall. destruct d as [|kv d]; [reflexivity|].
  unfold json_dumps, json_loads.
  set (ms := join_members (map json_member (kv :: d))).
  cbn [app]. cbn [skip_ws]. change (is_ws 123) with false. cbv iota.
  cbn [length parse_value]. change (123 =? 34) with false. change (123 =? 123) with true.
  cbv iota. change (skip_ws (10 :: ms ++ [10; 125])) with (skip_ws (ms ++ [10; 125])).
  pose proof (parse_members_dumps (kv :: d) (S (S (length (ms ++ [10; 125])))) [] []) as H.
  fold ms in H. cbn [app] in H.
  assert (Hstart : exists c t, skip_ws (ms ++ [10; 125]) = c :: t /\ c = 34).
  { unfold ms. destruct d; cbn [map join_members]; unfold json_member, json_string;
      rewrite <- ?app_assoc; cbn [app skip_ws]; change (is_ws 32) with true;
      change (is_ws 34) with false; cbv iota; by eexists _, _. }
  destruct Hstart as (c & t & Hs & ->). rewrite Hs in *.
  change (34 =? 125) with false. cbv iota.
  rewrite H; [reflexivity | done | done | rewrite length_app; cbn; lia].
Qed.

Lemma members_read_fresh (d : list (str * str)) (acc : list (str * json)) :
  NoDup (acc.*1 ++ d.*1) ->
  members_read d acc = acc ++ map (fun kv => (kv.1, JString kv.2)) d.
Proof.
  revert acc. induction d as [|kv d IH]; intros acc Hnd.
  { cbn. by rewrite app_nil_r. }
  cbn [members_read fold_left]. fold (members_read d (dict_set kv.1 (JString kv.2) acc)).
  cbn [fmap list_fmap] in Hnd.
  assert (Hk : kv.1 ∉ acc.*1).
  { apply NoDup_app in Hnd as (_ & Hdis & _). intros Hin. apply (Hdis _ Hin). by left. }
  rewrite dict_set_fresh by done. rewrite IH.
  - rewrite <- app_assoc. reflexivity.
  - rewrite fmap_app. cbn [fmap list_fmap]. rewrite <- app_assoc. exact Hnd.
Qed.

(** ** Restoring: the whole run on a readable mapping *)

Lemma dirs_added_keeps m m' p q : dirs_added m m' p -> is_Some (m !! q) -> m' !! q = m !! q.
Proof.
  intros [Hf Hd] Hq. destruct (decide (q `prefix_of` p)) as [Hp|Hp]; [|apply Hf; by right].
  destruct (Hd q Hp) as [|[Hn _]]; [done|]. rewrite Hn in Hq. by destruct Hq.
Qed.

Lemma entry_dsts_In r items q :
  In q (entry_dsts r items) ->
  exists kv, In kv items /\ q = match kv.2 with JString s => entry_dst r s | _ => [] end.
Proof. unfold entry_dsts. intros (kv & <- & Hin)%in_map_iff. by exists kv. Qed.

(** The run of [restore] once the mirror is in place, on a mapping that
    decrypts and parses and whose entries can be restored. *)
Lemma restore_mirror_spec (cfg : config) (d : BackupDecryptor.t) (w : world)
    (blob data : bytes) (text : str) (items : list (str * json)) :
  path_ok (backup_dir cfg ++ [mapping_enc]) = true ->
  path_ok (restore_dir cfg) = true ->
  read_at (fs w) (backup_dir cfg ++ [mapping_enc]) = Ok blob ->
  BackupDecryptor.decrypt_data d blob = Ok data ->
  bytes_decode_utf8 data = Ok text ->
  json_loads text = Ok (JObject items) ->
  (forall q c, q `prefix_of` restore_dir cfg -> fs w !! q <> Some (File c)) ->
  ~ backup_dir cfg `prefix_of` restore_dir cfg ->
  forallb (restorable d (backup_dir cfg) (restore_dir cfg) (fs w)) items = true ->
  incomparable (entry_dsts (restore_dir cfg) items) = true ->
  exists w',
    restore_mirror cfg d w = (Ok tt, w')
    /\ stdout w' = stdout w ++
         [ 10 :: str_of_string "Reading file mapping...";
           str_of_string "Found " ++ str_of_nat (length items)
             ++ str_of_string " files to restore";
           10 :: str_of_string "Decrypting and restoring files..." ]
         ++ map (restore_line (backup_dir cfg) (fs w)) items
         ++ [ 10 :: str_of_string "Restore completed: "
                ++ str_of_nat (length (List.filter (present (backup_dir cfg) (fs w)) items))
                ++ str_of_string " files decrypted and restored";
              str_of_string "Files restored to: " ++ PurePath_str (Path_abs (restore_dir cfg));
              10 :: banner;
              str_of_string "Restore process completed successfully!";
              banner ]
    /\ consumed w' = consumed w /\ entropy w' = entropy w
    /\ same_mirror (backup_dir cfg) (fs w) (fs w')
    /\ (forall kv, In kv items -> present (backup_dir cfg) (fs w) kv = true ->
          exists s plain,
            kv.2 = JString s
            /\ plaintext d (backup_dir cfg) (fs w) kv = Ok plain
            /\ read_at (fs w') (entry_dst (restore_dir cfg) s) = Ok plain)
    /\ (forall q, is_Some (fs w !! q) ->
          (forall kv s, In kv items -> present (backup_dir cfg) (fs w) kv = true ->
                        kv.2 = JString s -> q <> entry_dst (restore_dir cfg) s) ->
          fs w' !! q = fs w !! q)
    /\ (forall q, ~ q `prefix_of` restore_dir cfg ->
          (forall kv s, In kv items -> present (backup_dir cfg) (fs w) kv = true ->
                        kv.2 = JString s -> ~ q `prefix_of` entry_dst (restore_dir cfg) s) ->
          fs w' !! q = fs w !! q)
    /\ path_is_dir (fs w') (restore_dir cfg) = true.
Proof.
  set (b := backup_dir cfg). set (r := restore_dir cfg).
  intros Hmok Hrok Hread Hdec Hutf Hjson Hr Hbr Hall Hinc.
  pose proof (read_at_in_dir _ _ _ _ Hread) as Hb.
  destruct (mkdirs_at_ok (fs w) r Hr) as (m1 & Hm1 & Hadd & Hrdirs).
  assert (Hdst : forall kv s, In kv items -> kv.2 = JString s ->
            entry_dst r s = r ++ parts (PurePath_of_str s)
            /\ parts (PurePath_of_str s) <> [] /\ ~ b `prefix_of` entry_dst r s
            /\ absolute (PurePath_of_str kv.1) = false).
  { intros kv s Hin Hs.
    pose proof (proj1 (forallb_forall _ _) Hall kv Hin)
      as (s' & Hs' & Hk & Hrel & Hps & Hout & _)%restorable_spec.
    assert (s' = s) as -> by congruence. split; [by apply entry_dst_relative|done]. }
  assert (Hs1 : same_mirror b (fs w) m1) by (by eapply dirs_added_same_mirror).
  assert (Hext : forall kv, In kv items ->
            present b m1 kv = present b (fs w) kv
            /\ plaintext d b m1 kv = plaintext d b (fs w) kv).
  { intros kv Hin.
    pose proof (proj1 (forallb_forall _ _) Hall kv Hin) as (? & _ & Hrel & _)%restorable_spec.
    split; [by apply (same_mirror_present b (fs w))
           | by apply (same_mirror_plaintext d b (fs w))]. }
  unfold restore_mirror. fold b r.
  rewrite bind_with_fs, Path_exists_at, (read_at_exists _ _ _ Hread) by done. cbn [negb].
  rewrite bind_print, bind_with_fs. cbn [printed fs].
  rewrite read_bytes_at, Hread, Hdec, bind_lift_Ok by done.
  rewrite Hutf, bind_lift_Ok, Hjson, bind_lift_Ok. cbn [py_len py_items].
  rewrite bind_lift_Ok, bind_print.
  rewrite (bind_modify_fs _ _ _ m1) by (by apply mkdir_parents_at).
  rewrite bind_print, bind_lift_Ok.
  unfold bind at 1.
  match goal with |- context [restore_files d b r items 0 ?ww] => set (w1 := ww) end.
  destruct (restore_files_spec d b r items 0 w1)
    as (w2 & Hrun & Hs2 & Hout & Hc & He & Hfiles & Hkeep & Hfar & Hmade).
  { subst w1. cbn [fs printed with_files]. by rewrite (same_mirror_is_dir b (fs w)). }
  { subst w1. cbn [fs printed with_files]. apply forallb_forall. intros kv Hin.
    apply (restorable_step d b r (fs w)); [|done|].
    - exact (proj1 (forallb_forall _ _) Hall kv Hin).
    - intros s Hs. destruct (Hdst kv s Hin Hs) as (E & Hps & _).
      pose proof (proj1 (forallb_forall _ _) Hall kv Hin)
        as (s' & Hs' & _ & _ & _ & _ & Hw & _)%restorable_spec.
      assert (s' = s) as -> by congruence.
      eapply dirs_added_writable; [exact Hadd| |done].
      rewrite E. by apply app_not_prefix. }
  { done. }
  subst w1.
  cbn [fs stdout consumed entropy printed with_files] in Hrun, Hs2, Hout, Hc, He, Hfiles,
    Hkeep, Hfar, Hmade.
  assert (Hfilter : List.filter (present b m1) items = List.filter (present b (fs w)) items).
  { apply filter_ext_in. intros kv Hin. by apply Hext. }
  assert (Hlines : map (restore_line b m1) items = map (restore_line b (fs w)) items).
  { apply map_ext_in. intros kv Hin. unfold restore_line. by rewrite (proj1 (Hext kv Hin)). }
  rewrite Hfilter in Hrun. rewrite Hlines in Hout. cbn [Nat.add] in Hrun.
  rewrite Hrun, !bind_print, print_eq.
  eexists. split; [reflexivity|].
  split. { cbn [stdout printed]. rewrite Hout, <- !app_assoc. reflexivity. }
  cbn [fs consumed entropy printed].
  split; [done|]. split; [done|]. split; [by eapply same_mirror_trans|].
  split; [|split; [|split]].
  - intros kv Hin Hp. pose proof Hp as Hp1. rewrite <- (proj1 (Hext kv Hin)) in Hp1.
    destruct (Hfiles kv Hin Hp1) as (s & plain & Hs & Hplain & Hfile).
    exists s, plain. split; [done|]. split; [by rewrite <- (proj2 (Hext kv Hin))|].
    destruct (Hdst kv s Hin Hs) as (E & Hps & _).
    apply read_at_ok; [|rewrite E; by destruct r, (parts (PurePath_of_str s))|done].
    apply traverse_spec. intros q Hq Hpre. by apply (Hmade kv s).
  - intros q Hq Hne.
    assert (Hq1 : m1 !! q = fs w !! q) by (by eapply dirs_added_keeps).
    destruct (decide (q ∈ entry_dsts r items)) as [Hin|Hnin].
    + apply list_elem_of_In, entry_dsts_In in Hin as (kv & Hin & Eq).
      pose proof (proj1 (forallb_forall _ _) Hall kv Hin) as (s & Hs & _)%restorable_spec.
      rewrite Hs in Eq. subst q.
      destruct (present b (fs w) kv) eqn:Hp; [by destruct (Hne kv s)|].
      rewrite Hfar; [done|].
      intros kv' s' Hin' Hp' Hs'. rewrite (proj1 (Hext kv' Hin')) in Hp'.
      pose proof (incomparable_map_In _ items Hinc kv kv' Hin Hin') as Hcmp.
      cbn beta in Hcmp. rewrite Hs, Hs' in Hcmp. apply Hcmp. intros ->. congruence.
    + rewrite Hkeep; [done | by rewrite Hq1 | by rewrite <- list_elem_of_In].
  - intros q Hqr Hq. rewrite Hfar.
    + destruct Hadd as [Hf _]. apply Hf. by right.
    + intros kv s Hin Hp. rewrite (proj1 (Hext kv Hin)) in Hp. by apply Hq.
  - apply path_is_dir_spec. intros q Hq0 Hq.
    rewrite Hkeep; [by apply Hrdirs | by rewrite Hrdirs |].
    intros (kv & Hin & Eq)%entry_dsts_In.
    pose proof (proj1 (forallb_forall _ _) Hall kv Hin) as (s & Hs & _)%restorable_spec.
    rewrite Hs in Eq. destruct (Hdst kv s Hin Hs) as (E & Hps & _).
    rewrite E in Eq. subst q. by apply (app_not_prefix r (parts (PurePath_of_str s))).
Qed.

(** ** The whole backup run *)

Lemma lookup_filter_cleared (b : path) (m : gmap path node) (q : path) :
  filter (fun kv : path * node => cleared b kv.1 = false) m !! q
  = if cleared b q then None else m !! q.
Proof.
  destruct (cleared b q) eqn:Hq.
  - apply map_lookup_filter_None. right. intros x _. cbn. by rewrite Hq.
  - apply option_eq. intros x. rewrite map_lookup_filter_Some. cbn. naive_solver.
Qed.

Lemma cleared_removelast (b p : path) : p <> [] -> cleared b (removelast p) = true -> cleared b p = true.
Proof.
  intros Hne (x & rest & E & Hx)%cleared_spec. apply cleared_spec.
  destruct (snoc_inv p) as [->|(l & y & ->)]; [done|].
  rewrite removelast_last in E. subst l. exists x, (rest ++ [y]).
  split; [by rewrite <- app_assoc | done].
Qed.

Lemma wf_fs_cleared (b : path) (m : gmap path node) :
  wf_fs m -> wf_fs (filter (fun kv : path * node => cleared b kv.1 = false) m).
Proof.
  intros Hwf p Hp. rewrite lookup_filter_cleared in Hp.
  destruct (cleared b p) eqn:Hc; [by destruct Hp|].
  destruct (Hwf p Hp) as (Hne & Hdir & Hok). split; [done|]. split; [|done].
  unfold node_at in *. destruct (removelast p) as [|x l] eqn:E; [done|].
  rewrite lookup_filter_cleared.
  destruct (cleared b (x :: l)) eqn:Hc'; [|done].
  rewrite <- E in Hc'. apply cleared_removelast in Hc'; [congruence | done].
Qed.

Lemma path_is_dir_exists m p : path_is_dir m p = true -> path_exists m p = true.
Proof.
  unfold path_is_dir, path_exists. destruct (traverse m p) as [[]|]; [|done].
  by destruct (node_at m p) as [[|]|].
Qed.

Lemma path_exists_ok m (p : path) : wf_fs m -> path_exists m p = true -> path_ok p = true.
Proof.
  intros Hwf He. destruct p as [|x p]; [done|].
  apply (wf_fs_path_ok m); [done|]. unfold path_exists in He.
  destruct (traverse m (x :: p)); [|done]. cbn [node_at] in He.
  by destruct (m !! (x :: p)).
Qed.

Lemma writable_ext m m' t :
  (forall q, q `prefix_of` t -> m' !! q = m !! q) -> writable m' t = writable m t.
Proof.
  intros H. unfold writable. rewrite (H t) by done. do 3 f_equal.
  induction (seq 0 (length t)) as [|k l IH]; [done|]. cbn [forallb].
  rewrite IH, H; [done | apply prefix_take].
Qed.

Lemma incomparable_spec (l : list path) :
  incomparable l = true
  <-> forall i j x y, l !! i = Some x -> l !! j = Some y -> i <> j -> ~ x `prefix_of` y.
Proof.
  induction l as [|a l IH].
  - split; [by intros _ i j x y [=] | done].
  - split.
    + intros [Ho Hi]%incomparable_cons i j x y Hx Hy Hne.
      rewrite List.Forall_forall in Ho.
      destruct i as [|i], j as [|j]; cbn in Hx, Hy; [done| | |].
      * injection Hx as <-. apply Ho. by eapply list_elem_of_In, list_elem_of_lookup_2.
      * injection Hy as <-. apply Ho. by eapply list_elem_of_In, list_elem_of_lookup_2.
      * apply (proj1 IH Hi i j); [done | done | congruence].
    + intros H. cbn [incomparable]. apply andb_true_iff. split.
      * apply forallb_forall. intros q Hq%list_elem_of_In.
        apply list_elem_of_lookup_1 in Hq as [j Hj].
        apply andb_true_iff. rewrite !negb_true_iff, !bool_decide_eq_false. split.
        -- by apply (H 0%nat (S j)).
        -- by apply (H (S j) 0%nat).
      * apply IH. intros i j x y Hx Hy Hne. apply (H (S i) (S j)); [done | done | congruence].
Qed.

Lemma incomparable_map_app (r : path) (l : list path) :
  incomparable l = true -> incomparable (map (app r) l) = true.
Proof.
  rewrite !incomparable_spec. intros H i j x y Hx Hy Hne.
  rewrite list_lookup_fmap in Hx, Hy.
  destruct (l !! i) as [x'|] eqn:Ex; [|done]. destruct (l !! j) as [y'|] eqn:Ey; [|done].
  cbn in Hx, Hy. injection Hx as <-. injection Hy as <-.
  intros Hp%prefix_app_inv. by apply (H i j x' y').
Qed.

Section Backup_run.
Variable get_matching_files : config -> gmap path node -> result (list path).
Variables Repo_open Repo_init Repo_commit_and_push : path -> M unit.

Lemma init_repo_existing (b : path) (w w1 : world) :
  path_ok (b ++ [dot_git]) = true ->
  path_is_dir (fs w) b = true -> path_exists (fs w) (b ++ [dot_git]) = true ->
  Repo_open b w = (Ok tt, w1) ->
  init_repo Repo_open Repo_init b w
  = (Ok tt, printed w1 [str_of_string "Using existing repository at "
                        ++ PurePath_str (Path_abs b)]).
Proof.
  intros Hok Hb Hgit Hopen. unfold init_repo.
  rewrite bind_with_fs, Path_exists_at, (path_is_dir_exists _ _ Hb)
    by (by apply path_ok_app_l in Hok).
  rewrite bind_with_fs, Path_exists_at, Hgit by done. cbn [andb].
  unfold bind. rewrite Hopen. apply print_eq.
Qed.

(** A backup into an existing repository: what the run leaves, in terms
    of the file system that it started from. *)
Lemma backup_spec (cfg : config) (e : BackupEncryptor.t) (d : BackupDecryptor.t)
    (rels : list path) (w : world) :
  BackupEncryptor.__init__ (password cfg) = Ok e ->
  BackupDecryptor.key d = BackupEncryptor.key e ->
  get_matching_files cfg (fs w) = Ok (map (app (source_dir cfg)) rels) ->
  rels <> [] -> NoDup rels ->
  forallb (selectable (source_dir cfg) (backup_dir cfg) (fs w)) rels = true ->
  wf_fs (fs w) ->
  path_is_dir (fs w) (backup_dir cfg) = true ->
  path_exists (fs w) (backup_dir cfg ++ [dot_git]) = true ->
  path_ok (backup_dir cfg ++ [mapping_enc]) = true ->
  (forall w0, exists w1, Repo_open (backup_dir cfg) w0 = (Ok tt, w1) /\ fs w1 = fs w0) ->
  (forall w0, exists w1,
     Repo_commit_and_push (backup_dir cfg) w0 = (Ok tt, w1)
     /\ forall q, ~ (backup_dir cfg ++ [dot_git]) `prefix_of` q -> fs w1 !! q = fs w0 !! q) ->
  exists w' encs text iv,
    backup get_matching_files Repo_open Repo_init Repo_commit_and_push cfg w = (Ok tt, w')
    /\ Forall2 (decrypts_to d) encs rels
    /\ Forall (fun enc => enc <> [] /\ Forall (fun a => urlsafe_name a = true) enc) encs
    /\ NoDup (encs ++ [[mapping_enc]])
    /\ path_is_dir (fs w') (backup_dir cfg) = true
    /\ mirror_of (backup_dir cfg) (fs w') (encs ++ [[mapping_enc]])
    /\ (forall x y, In x (encs ++ [[mapping_enc]]) -> In y (encs ++ [[mapping_enc]]) ->
                    x `prefix_of` y -> x = y)
    /\ (forall enc, In enc (encs ++ [[mapping_enc]]) ->
                    cleared (backup_dir cfg) (backup_dir cfg ++ enc) = true)
    /\ Forall2 (fun enc rel =>
          exists iv' data,
            length iv' = 16%nat /\ read_at (fs w) (source_dir cfg ++ rel) = Ok data
            /\ fs w' !! (backup_dir cfg ++ enc)
               = Some (File (iv' ++ ciphertext (BackupEncryptor.key e) iv' data))) encs rels
    /\ length iv = 16%nat
    /\ str_encode_utf8 (json_dumps (mapping_of encs rels)) = Ok text
    /\ fs w' !! (backup_dir cfg ++ [mapping_enc])
       = Some (File (iv ++ ciphertext (BackupEncryptor.key e) iv text))
    /\ (forall q, cleared (backup_dir cfg) q = false ->
                  ~ (backup_dir cfg ++ [dot_git]) `prefix_of` q -> fs w' !! q = fs w !! q)
    /\ incomparable rels = true
    /\ Forall (fun enc => path_ok (backup_dir cfg ++ enc) = true) encs.
Proof.
  set (b := backup_dir cfg). set (src := source_dir cfg).
  intros He Hd Hsel Hne Hnd Hok Hwf Hb Hgit Hmok Hopen Hpush.
  pose proof (path_exists_ok _ _ Hwf Hgit) as Hgok.
  pose proof (BackupEncryptor_key_length _ _ He) as Hk.
  unfold backup. rewrite !bind_print, He, bind_lift_Ok, bind_print, bind_with_fs.
  cbn [fs printed]. rewrite Hsel, bind_print.
  assert (Hmatch : forall (A : Type) (x y : A),
            match map (app src) rels with [] => x | _ :: _ => y end = y)
    by (intros; by destruct rels).
  rewrite Hmatch. clear Hmatch.
  match goal with |- context [backup_files _ _ _ _ _ _ ?ww] => set (w0 := ww) end.
  destruct (Hopen w0) as (w1 & Hrun1 & Hfs1).
  assert (Hfs0 : fs w0 = fs w) by done.
  pose proof (init_repo_existing b w0 w1) as Hinit. rewrite Hfs0 in Hinit.
  specialize (Hinit Hgok Hb Hgit Hrun1).
  match type of Hinit with _ = (_, ?ww) => set (w2 := ww) in Hinit end.
  assert (Hfs2 : fs w2 = fs w) by (subst w2; cbn [fs printed]; congruence).
  destruct (clear_backup_directory_spec b w2) as (w3 & Hrun3 & Hfs3 & _);
    [by rewrite Hfs2 | by rewrite Hfs2 |].
  rewrite Hfs2 in Hfs3.
  assert (Hin3 : forall q, cleared b q = true -> fs w3 !! q = None).
  { intros q Hq. by rewrite Hfs3, lookup_filter_cleared, Hq. }
  assert (Hout3 : forall q, cleared b q = false -> fs w3 !! q = fs w !! q).
  { intros q Hq. by rewrite Hfs3, lookup_filter_cleared, Hq. }
  assert (Hread3 : forall rel, In rel rels ->
            read_at (fs w3) (src ++ rel) = read_at (fs w) (src ++ rel)
            /\ ~ b `prefix_of` src ++ rel).
  { intros rel Hin.
    pose proof (proj1 (forallb_forall _ _) Hok rel Hin)
      as (_ & _ & _ & Hnb & _)%selectable_spec.
    split; [by apply (read_at_outside b)|done]. }
  destruct (transform_and_commit_spec Repo_commit_and_push cfg e d rels w3)
    as (w' & encs & text & iv & Hrun & Hdec & Hgood & HndL & Hb' & Hm' & Hpw & Hcl & Hcont
        & Hiv & Htext & Hmap & Hout & Hinc & HokE); try done.
  { apply forallb_forall. intros rel Hin.
    pose proof (proj1 (forallb_forall _ _) Hok rel Hin)
      as (H1 & H2 & H3 & H4 & H5 & H6)%selectable_spec.
    apply selectable_spec. fold src b. by rewrite (proj1 (Hread3 rel Hin)). }
  { rewrite Hfs3. by apply wf_fs_cleared. }
  { fold b. by rewrite (path_is_dir_outside b (fs w) (fs w3)). }
  exists w', encs, text, iv. split.
  { unfold backup_files. fold b. unfold bind at 1. rewrite Hinit.
    unfold bind at 1. by rewrite Hrun3. }
  repeat (split; [done|]). split; [|split; [done|]; split; [done|]; split; [done|]; split].
  - eapply Forall2_impl_In; [exact Hcont|].
    intros enc rel _ Hin (iv' & data & ? & Hr & ?). exists iv', data.
    fold src in Hr. by rewrite (proj1 (Hread3 rel Hin)) in Hr.
  - intros q Hq Hg. fold b in Hout. rewrite Hout by done. by apply Hout3.
  - done.
Qed.

End Backup_run.

(** ** Restoring what a backup left *)

Lemma join_slash_Forall (P : N -> Prop) (l : list str) :
  P 47 -> Forall (Forall P) l -> Forall P (join_slash l).
Proof.
  intros H47. induction 1 as [|a l Ha Hl IH]; [constructor|].
  destruct l as [|a' l']; [done|].
  change (join_slash (a :: a' :: l')) with (a ++ [47] ++ join_slash (a' :: l')).
  apply Forall_app. split; [done|]. apply Forall_app. split; [by constructor | done].
Qed.

Lemma urlsafe_char_scalar c : is_urlsafe_char c = true -> is_scalar c = true.
Proof.
  intros [H1 _]%urlsafe_char_props. unfold is_scalar, is_surrogate.
  apply andb_true_iff. split; [apply N.ltb_lt; lia|].
  apply negb_true_iff, andb_false_iff. left. apply N.leb_gt. lia.
Qed.

Lemma items_of_mapping (encs rels : list path) :
  map (fun kv : str * str => (kv.1, JString kv.2)) (mapping_of encs rels)
  = map (fun p : path * path => (join_slash p.1, JString (join_slash p.2))) (zip encs rels).
Proof.
  unfold mapping_of. revert rels.
  induction encs as [|enc encs IH]; intros [|rel rels]; cbn; [done..|]. by rewrite <- IH.
Qed.

Lemma Forall2_zip_In {A B} (P : A -> B -> Prop) l k x y :
  Forall2 P l k -> In (x, y) (zip l k) -> P x y.
Proof.
  induction 1 as [|a c l k Hac Hlk IH]; cbn; [done|]. intros [[= <- <-]|Hin]; [done | by apply IH].
Qed.

Lemma Forall2_In_zip_r {A B} (P : A -> B -> Prop) l k y :
  Forall2 P l k -> In y k -> exists x, In (x, y) (zip l k) /\ P x y.
Proof.
  induction 1 as [|a c l k Hac Hlk IH]; cbn; [done|]. intros [<-|Hin].
  - exists a. split; [by left | done].
  - destruct (IH Hin) as (x & Hx & HP). exists x. split; [by right | done].
Qed.

Lemma zip_In_l {A B} (l : list A) (k : list B) x y : In (x, y) (zip l k) -> In x l.
Proof.
  revert k. induction l as [|a l IH]; intros [|c k]; cbn; [done..|].
  intros [[= <- <-]|Hin]; [by left | right; by eapply IH].
Qed.

Lemma zip_In_r {A B} (l : list A) (k : list B) x y : In (x, y) (zip l k) -> In y k.
Proof.
  revert k. induction l as [|a l IH]; intros [|c k]; cbn; [done..|].
  intros [[= <- <-]|Hin]; [by left | right; by eapply IH].
Qed.

Lemma NoDup_map_join_slash (E : list path) :
  NoDup E ->
  Forall (fun enc => enc <> [] /\ Forall (fun a => plain_name a = true) enc) E ->
  NoDup (map join_slash E).
Proof.
  induction 1 as [|enc E Hnin Hnd IH]; intros HE; [constructor|].
  apply Forall_cons in HE as [[Hne Hpl] HE]. cbn [map]. constructor; [|by apply IH].
  intros (enc' & Heq & Hin)%list_elem_of_fmap. apply Hnin.
  rewrite Forall_forall in HE. destruct (HE enc' Hin) as [Hne' Hpl'].
  by rewrite (join_slash_inj enc enc').
Qed.

(** The mapping that a backup wrote is read back entry by entry. *)
Lemma json_loads_mapping (encs rels : list path) :
  length encs = length rels -> NoDup encs ->
  Forall (fun enc => enc <> [] /\ Forall (fun a => urlsafe_name a = true) enc) encs ->
  Forall (fun rel => Forall (fun c => Forall (fun x => is_scalar x = true) c) rel) rels ->
  json_loads (json_dumps (mapping_of encs rels))
  = Ok (JObject (map (fun p : path * path => (join_slash p.1, JString (join_slash p.2)))
                     (zip encs rels))).
Proof.
  intros Hlen Hnd Hgood Hsc. rewrite json_loads_dumps.
  - rewrite members_read_fresh, <- items_of_mapping; [done|]. cbn [fmap list_fmap app].
    rewrite mapping_of_keys by done. apply NoDup_map_join_slash; [done|].
    eapply Forall_impl; [exact Hgood|]. intros enc [Hne Hu]. split; [done|].
    eapply Forall_impl; [exact Hu|]. intros a. apply urlsafe_name_plain.
  - unfold mapping_of. apply Forall_forall. intros [k v] Hin%list_elem_of_In.
    pose proof (zip_In_l _ _ _ _ Hin) as (enc & <- & Henc)%in_map_iff.
    pose proof (zip_In_r _ _ _ _ Hin) as (rel & <- & Hrel)%in_map_iff.
    cbn [fst snd]. split; apply join_slash_Forall; try done.
    + rewrite Forall_forall in Hgood. destruct (Hgood enc) as [_ Hu]; [by apply list_elem_of_In|].
      eapply Forall_impl; [exact Hu|]. intros a (_ & Ha)%urlsafe_name_spec.
      eapply Forall_impl; [exact Ha|]. apply urlsafe_char_scalar.
    + rewrite Forall_forall in Hsc. apply Hsc. by apply list_elem_of_In.
Qed.

Lemma filter_all {A} (f : A -> bool) (l : list A) :
  (forall x, In x l -> f x = true) -> List.filter f l = l.
Proof.
  induction l as [|a l IH]; [done|]. intros H. cbn [List.filter].
  rewrite (H a) by (by left). f_equal. apply IH. intros x Hx. apply H. by right.
Qed.

(** A mirror as a backup leaves it is restored in full: every file that
    was backed up is written below the restore directory, with the
    contents that the backup read. [m0] is the file system that the
    backup read the files from. *)
Lemma restore_backed_up (cfg : config) (e : BackupEncryptor.t) (d : BackupDecryptor.t)
    (encs rels : list path) (m0 : gmap path node) (w : world) (text iv : bytes) :
  length (BackupEncryptor.key e) = 32%nat ->
  BackupDecryptor.key d = BackupEncryptor.key e ->
  Forall (fun enc => enc <> [] /\ Forall (fun a => urlsafe_name a = true) enc) encs ->
  NoDup (encs ++ [[mapping_enc]]) ->
  path_is_dir (fs w) (backup_dir cfg) = true ->
  mirror_of (backup_dir cfg) (fs w) (encs ++ [[mapping_enc]]) ->
  (forall x y, In x (encs ++ [[mapping_enc]]) -> In y (encs ++ [[mapping_enc]]) ->
               x `prefix_of` y -> x = y) ->
  (forall enc, In enc (encs ++ [[mapping_enc]]) ->
               cleared (backup_dir cfg) (backup_dir cfg ++ enc) = true) ->
  Forall2 (fun enc rel =>
     exists iv' data,
       length iv' = 16%nat /\ read_at m0 (source_dir cfg ++ rel) = Ok data
       /\ fs w !! (backup_dir cfg ++ enc)
          = Some (File (iv' ++ ciphertext (BackupEncryptor.key e) iv' data))) encs rels ->
  length iv = 16%nat ->
  str_encode_utf8 (json_dumps (mapping_of encs rels)) = Ok text ->
  fs w !! (backup_dir cfg ++ [mapping_enc])
  = Some (File (iv ++ ciphertext (BackupEncryptor.key e) iv text)) ->
  incomparable rels = true ->
  path_ok (backup_dir cfg ++ [mapping_enc]) = true ->
  Forall (fun enc => path_ok (backup_dir cfg ++ enc) = true) encs ->
  rels <> [] ->
  Forall (fun rel =>
     rel <> []
     /\ Forall (fun c => plain_name c = true /\ Forall (fun x => is_scalar x = true) c) rel)
    rels ->
  Forall (fun rel => writable (fs w) (restore_dir cfg ++ rel) = true
                     /\ ~ backup_dir cfg `prefix_of` restore_dir cfg ++ rel) rels ->
  exists w',
    restore_mirror cfg d w = (Ok tt, w')
    /\ stdout w' = stdout w ++
         [ 10 :: str_of_string "Reading file mapping...";
           str_of_string "Found " ++ str_of_nat (length rels)
             ++ str_of_string " files to restore";
           10 :: str_of_string "Decrypting and restoring files..." ]
         ++ map (fun rel => str_of_string "  Restored: " ++ join_slash rel) rels
         ++ [ 10 :: str_of_string "Restore completed: " ++ str_of_nat (length rels)
                ++ str_of_string " files decrypted and restored";
              str_of_string "Files restored to: " ++ PurePath_str (Path_abs (restore_dir cfg));
              10 :: banner;
              str_of_string "Restore process completed successfully!";
              banner ]
    /\ (forall rel data, In rel rels -> read_at m0 (source_dir cfg ++ rel) = Ok data ->
          read_at (fs w') (restore_dir cfg ++ rel) = Ok data)
    /\ same_mirror (backup_dir cfg) (fs w) (fs w')
    /\ (forall q, is_Some (fs w !! q) -> ~ In q (map (app (restore_dir cfg)) rels) ->
          fs w' !! q = fs w !! q).
Proof.
  set (b := backup_dir cfg). set (r := restore_dir cfg). set (src := source_dir cfg).
  set (L := encs ++ [[mapping_enc]]).
  intros Hk Hd Hgood HndL Hb Hm Hpw Hcl Hcont Hiv Htext Hmap Hinc Hmok HokE Hne Hnames Hdsts.
  pose proof (Forall2_length _ _ _ Hcont) as Hlen.
  assert (Hkd : length (BackupDecryptor.key d) = 32%nat) by (by rewrite Hd).
  set (items := map (fun p : path * path => (join_slash p.1, JString (join_slash p.2)))
                    (zip encs rels)).
  (* what an entry of the mapping stands for *)
  assert (Hpair : forall enc rel, In (enc, rel) (zip encs rels) ->
            exists iv' data,
              In (join_slash enc, JString (join_slash rel)) items
              /\ In rel rels /\ rel <> []
              /\ PurePath_of_str (join_slash enc) = {| absolute := false; parts := enc |}
              /\ PurePath_of_str (join_slash rel) = {| absolute := false; parts := rel |}
              /\ entry_src b (join_slash enc) = b ++ enc
              /\ entry_dst r (join_slash rel) = r ++ rel
              /\ read_at m0 (src ++ rel) = Ok data
              /\ read_at (fs w) (b ++ enc)
                 = Ok (iv' ++ ciphertext (BackupEncryptor.key e) iv' data)
              /\ BackupDecryptor.decrypt_data d
                   (iv' ++ ciphertext (BackupEncryptor.key e) iv' data) = Ok data).
  { intros enc rel Hin.
    pose proof (zip_In_l _ _ _ _ Hin) as Henc. pose proof (zip_In_r _ _ _ _ Hin) as Hrel.
    destruct (Forall2_zip_In _ _ _ _ _ Hcont Hin) as (iv' & data & Hiv' & Hsrc & Hfile).
    rewrite Forall_forall in Hgood. destruct (Hgood enc) as [Hne1 Hu];
      [by apply list_elem_of_In|].
    rewrite Forall_forall in Hnames. destruct (Hnames rel) as [Hne2 Hpl];
      [by apply list_elem_of_In|].
    assert (E1 : PurePath_of_str (join_slash enc) = {| absolute := false; parts := enc |}).
    { apply PurePath_of_str_join; [done|]. eapply Forall_impl; [exact Hu|].
      intros a. apply urlsafe_name_plain. }
    assert (E2 : PurePath_of_str (join_slash rel) = {| absolute := false; parts := rel |}).
    { apply PurePath_of_str_join; [done|]. eapply Forall_impl; [exact Hpl|]. by intros a []. }
    exists iv', data.
    split; [apply in_map_iff; by exists (enc, rel)|].
    repeat (split; [done|]).
    split; [by rewrite entry_src_relative; rewrite E1|].
    split; [by rewrite entry_dst_relative; rewrite E2|].
    split; [done|]. split.
    - apply (mirror_read b (fs w) L); try done. apply in_app_iff. by left.
    - rewrite <- Hd. by apply decrypt_data_ciphertext. }
  assert (Hpresent : forall kv, In kv items -> present b (fs w) kv = true).
  { intros kv ([enc rel] & <- & Hin)%in_map_iff.
    destruct (Hpair enc rel Hin) as (iv' & data & _ & _ & _ & _ & _ & Es & _ & _ & Hrd & _).
    unfold present. cbn [fst]. rewrite Es. by eapply read_at_exists. }
  assert (Hread : read_at (fs w) (b ++ [mapping_enc])
                  = Ok (iv ++ ciphertext (BackupEncryptor.key e) iv text)).
  { apply (mirror_read b (fs w) L); try done. apply in_app_iff. right. by left. }
  assert (Hdst0 : exists rel0, In rel0 rels /\ rel0 <> []
                    /\ writable (fs w) (r ++ rel0) = true /\ ~ b `prefix_of` r ++ rel0).
  { destruct rels as [|rel0 rest]; [done|]. exists rel0.
    apply Forall_cons in Hnames as [[? _] _]. apply Forall_cons in Hdsts as [[? ?] _].
    split; [by left | done]. }
  destruct Hdst0 as (rel0 & Hin0 & Hne0 & Hw0 & Hnb0).
  assert (Hdsts_eq : entry_dsts r items = map (app r) rels).
  { unfold entry_dsts, items. rewrite map_map. cbn [snd].
    rewrite <- (snd_zip encs rels) at 2 by lia.
    change ((zip encs rels).*2) with (map snd (zip encs rels)). rewrite map_map.
    apply map_ext_in. intros [enc rel] Hin. cbn [fst snd].
    by destruct (Hpair enc rel Hin) as (_ & _ & _ & _ & _ & _ & _ & _ & Ed & _). }
  assert (Hrok : path_ok r = true).
  { apply writable_spec in Hw0 as (_ & _ & _ & Hok0). by apply path_ok_app_l in Hok0. }
  destruct (restore_mirror_spec cfg d w _ text (json_dumps (mapping_of encs rels)) items
              Hmok Hrok Hread)
    as (w' & Hrun & Hout & _ & _ & Hsame & Hfiles & Hkeep & _).
  { rewrite <- Hd. by apply decrypt_data_ciphertext. }
  { by apply decode_encode_utf8. }
  { apply json_loads_mapping; [done | by apply NoDup_app in HndL as [? _] | done |].
    eapply Forall_impl; [exact Hnames|]. intros rel [_ H].
    eapply Forall_impl; [exact H|]. by intros c []. }
  { fold r. apply writable_spec in Hw0 as (_ & Hp & _). intros q c Hq. apply Hp.
    by apply prefix_removelast_app. }
  { fold b r. intros Hp. apply Hnb0. by apply prefix_app_r. }
  { fold b r. apply forallb_forall. intros kv Hin. pose proof (Hpresent kv Hin) as Hp.
    apply in_map_iff in Hin as ([enc rel] & <- & Hin). cbn [fst snd] in *.
    destruct (Hpair enc rel Hin)
      as (iv' & data & _ & Hrel & Hne2 & E1 & E2 & Es & Ed & _ & Hrd & Hdec).
    apply restorable_spec. exists (join_slash rel). cbn [fst snd].
    rewrite E1, E2, Ed. cbn [absolute parts].
    rewrite Forall_forall in Hdsts. destruct (Hdsts rel) as [Hw Hnb]; [by apply list_elem_of_In|].
    repeat (split; [done|]). split.
    - intros _. exists data. unfold plaintext. cbn [fst]. by rewrite Es, Hrd.
    - rewrite Es. rewrite List.Forall_forall in HokE. apply HokE. by eapply zip_In_l. }
  { fold r. rewrite Hdsts_eq. by apply incomparable_map_app. }
  fold b r in Hrun, Hout, Hsame, Hfiles, Hkeep.
  assert (Hlen_items : length items = length rels).
  { unfold items. rewrite length_map, length_zip_with. lia. }
  exists w'. split; [done|]. split; [|split; [|split; [done|]]].
  - rewrite Hout, (filter_all _ _ Hpresent), Hlen_items. do 3 f_equal.
    unfold items. rewrite map_map.
    rewrite <- (snd_zip encs rels) at 2 by lia.
    change ((zip encs rels).*2) with (map snd (zip encs rels)). rewrite map_map.
    apply map_ext_in. intros [enc rel] Hin. cbn [fst snd]. unfold restore_line.
    rewrite Hpresent; [done|]. apply in_map_iff. by exists (enc, rel).
  - intros rel data Hrel Hsrc.
    destruct (Forall2_In_zip_r _ _ _ _ Hcont Hrel) as (enc & Hin & _).
    destruct (Hpair enc rel Hin)
      as (iv' & data' & Hkv & _ & _ & _ & _ & Es & Ed & Hsrc' & Hrd & Hdec).
    destruct (Hfiles _ Hkv (Hpresent _ Hkv)) as (s & plain & [= <-] & Hplain & Hfile).
    unfold plaintext in Hplain. cbn [fst] in Hplain.
    rewrite Es, Hrd in Hplain. cbn [rbind] in Hplain.
    rewrite Ed in Hfile. congruence.
  - intros q Hq Hnin. apply Hkeep; [done|]. intros kv s Hin _ Hs ->. apply Hnin.
    rewrite <- Hdsts_eq. unfold entry_dsts. apply in_map_iff. exists kv. by rewrite Hs.
Qed.

(** ** Further properties of the runs *)

Lemma not_git_prefix (b q t : path) :
  q `prefix_of` t -> ~ b `prefix_of` t ->
  cleared b q = false /\ ~ (b ++ [dot_git]) `prefix_of` q.
Proof.
  intros Hq Hb. split.
  - destruct (cleared b q) eqn:Hc; [|done]. apply cleared_prefix in Hc as [Hp _].
    destruct Hb. by etrans.
  - intros Hp. apply Hb. etrans; [|exact Hq]. etrans; [|exact Hp]. by apply prefix_app_r.
Qed.

Section Backup_then_restore.
Variable get_matching_files : config -> gmap path node -> result (list path).
Variables Repo_open Repo_init Repo_commit_and_push : path -> M unit.
Variable clone_or_pull : config -> M unit.

(** X1. A backup into an existing repository followed by a restore with
    the same configuration brings every selected file back: the file
    that the backup read at [rel] below the source directory is
    afterwards at [rel] below the restore directory, with the same
    contents, and the restore reports as many files as were selected.
    The selected files are some, distinct and readable, their names
    can be encoded and are short enough to be encrypted, their
    destinations can be written and lie outside the backup directory,
    and the git calls change nothing outside [.git]. *)
Theorem X1_backup_then_restore (cfg : config) (pw : bytes) (rels : list path) (w : world) :
  str_encode_utf8 (password cfg) = Ok pw ->
  get_matching_files cfg (fs w) = Ok (map (app (source_dir cfg)) rels) ->
  rels <> [] -> NoDup rels ->
  forallb (selectable (source_dir cfg) (backup_dir cfg) (fs w)) rels = true ->
  forallb (fun rel => writable (fs w) (restore_dir cfg ++ rel)
                      && negb (bool_decide (backup_dir cfg `prefix_of` restore_dir cfg ++ rel)))
          rels = true ->
  wf_fs (fs w) ->
  path_is_dir (fs w) (backup_dir cfg) = true ->
  path_exists (fs w) (backup_dir cfg ++ [dot_git]) = true ->
  path_ok (backup_dir cfg ++ [mapping_enc]) = true ->
  (forall w0, exists w1, Repo_open (backup_dir cfg) w0 = (Ok tt, w1) /\ fs w1 = fs w0) ->
  (forall w0, exists w1,
     Repo_commit_and_push (backup_dir cfg) w0 = (Ok tt, w1)
     /\ forall q, ~ (backup_dir cfg ++ [dot_git]) `prefix_of` q -> fs w1 !! q = fs w0 !! q) ->
  (forall w0, exists w1,
     clone_or_pull cfg w0 = (Ok tt, w1)
     /\ forall q, ~ (backup_dir cfg ++ [dot_git]) `prefix_of` q -> fs w1 !! q = fs w0 !! q) ->
  exists w1 w2,
    backup get_matching_files Repo_open Repo_init Repo_commit_and_push cfg w = (Ok tt, w1)
    /\ restore clone_or_pull cfg w1 = (Ok tt, w2)
    /\ (forall rel data, In rel rels ->
          read_at (fs w) (source_dir cfg ++ rel) = Ok data ->
          read_at (fs w2) (restore_dir cfg ++ rel) = Ok data)
    /\ In (10 :: str_of_string "Restore completed: " ++ str_of_nat (length rels)
             ++ str_of_string " files decrypted and restored") (stdout w2).
Proof.
  set (b := backup_dir cfg). set (r := restore_dir cfg). set (src := source_dir cfg).
  intros Hpw Hsel Hne Hnd Hok Hdst Hwf Hb Hgit Hmok Hopen Hpush Hsync.
  pose proof (BackupEncryptor_init_ok _ _ Hpw) as He.
  pose proof (BackupDecryptor_init_ok _ _ Hpw) as Hd.
  remember {| BackupEncryptor.key := PBKDF2HMAC.derive 32 salt 100000 pw |} as e eqn:Ee.
  remember {| BackupDecryptor.key := PBKDF2HMAC.derive 32 salt 100000 pw |} as d eqn:Ed.
  assert (Hkey : BackupDecryptor.key d = BackupEncryptor.key e).
  { rewrite Ee, Ed. cbn [BackupDecryptor.key BackupEncryptor.key]. exact eq_refl. }
  clear Ee Ed.
  pose proof (BackupEncryptor_key_length _ _ He) as Hk.
  destruct (backup_spec get_matching_files Repo_open Repo_init Repo_commit_and_push
              cfg e d rels w He Hkey Hsel Hne Hnd Hok Hwf Hb Hgit Hmok Hopen Hpush)
    as (w1 & encs & text & iv & Hrun & Hdec & Hgood & HndL & Hb1 & Hm1 & Hpre & Hcl & Hcont
        & Hiv & Htext & Hmap & Hout & Hinc & HokE).
  fold b src in Hb1, Hm1, Hcl, Hcont, Hmap, Hout.
  exists w1.
  unfold restore. rewrite !bind_print, Hd, bind_lift_Ok, bind_print. unfold bind at 1.
  match goal with |- context [clone_or_pull cfg ?ww] => destruct (Hsync ww) as (w1' & -> & Hag) end.
  cbn [fs printed] in Hag. fold b in Hag.
  assert (Hin : forall enc, In enc (encs ++ [[mapping_enc]]) ->
            fs w1' !! (b ++ enc) = fs w1 !! (b ++ enc)).
  { intros enc Henc. apply Hag. by apply cleared_not_git, Hcl. }
  assert (Hfar : forall q t, q `prefix_of` t -> ~ b `prefix_of` t -> fs w1' !! q = fs w !! q).
  { intros q t Hq Ht. destruct (not_git_prefix b q t Hq Ht) as [Hc Hg].
    rewrite Hag by done. by apply Hout. }
  destruct (restore_backed_up cfg e d encs rels (fs w) w1' text iv)
    as (w2 & Hrun2 & Hout2 & Hfiles & _); try done.
  - fold b. rewrite (path_is_dir_ext (fs w1') (fs w1)); [done|].
    intros q _ Hq. apply Hag. intros Hp. apply prefix_length in Hq, Hp.
    rewrite length_app in Hp. cbn in Hp. lia.
  - fold b. apply (mirror_of_ext b (fs w1)); [|done].
    intros q Hq. apply Hag. by apply cleared_not_git.
  - fold b src. eapply Forall2_impl_In; [exact Hcont|].
    intros enc rel Henc _ (iv' & data & ? & ? & Hfile). exists iv', data.
    split; [done|]. split; [done|]. rewrite Hin; [done|]. apply in_app_iff. by left.
  - fold b. rewrite Hin; [done|]. apply in_app_iff. right. by left.
  - apply Forall_forall. intros rel Hrel%list_elem_of_In.
    pose proof (proj1 (forallb_forall _ _) Hok rel Hrel)
      as (Hn & Hsc & _ & _ & Hsok & _)%selectable_spec.
    split; [done|].
    apply path_ok_proper, Forall_app in Hsok as [_ Hpl].
    rewrite List.Forall_forall in Hsc, Hpl.
    apply Forall_forall. intros c Hc%list_elem_of_In. split; [|by apply Hsc].
    by apply Hpl, proper_name_spec in Hc as [? _].
  - apply Forall_forall. intros rel Hrel%list_elem_of_In.
    pose proof (proj1 (forallb_forall _ _) Hdst rel Hrel) as [Hw Hnb]%andb_true_iff.
    apply negb_true_iff, bool_decide_eq_false in Hnb. fold b r in Hw, Hnb. fold b r.
    split; [|done]. rewrite <- Hw. apply writable_ext. intros q Hq. by apply (Hfar q (r ++ rel)).
  - exists w2. split; [done|]. split; [done|]. split; [done|].
    rewrite Hout2. apply in_app_iff. right. apply in_app_iff. right. apply in_app_iff. right.
    by left.
Qed.

End Backup_then_restore.

Section Backup_replaces.
Variable get_matching_files : config -> gmap path node -> result (list path).
Variables Repo_open Repo_init Repo_commit_and_push : path -> M unit.

(** X2. A backup into an existing repository replaces whatever the
    backup directory held: afterwards its files, [.git] apart, are the
    mapping and one encrypted file per selected file, every entry that
    is left in it lies on the way to one of them, and no entry outside
    the backup directory has changed. *)
Theorem X2_backup_replaces_mirror (cfg : config) (pw : bytes) (rels : list path) (w : world) :
  str_encode_utf8 (password cfg) = Ok pw ->
  get_matching_files cfg (fs w) = Ok (map (app (source_dir cfg)) rels) ->
  rels <> [] -> NoDup rels ->
  forallb (selectable (source_dir cfg) (backup_dir cfg) (fs w)) rels = true ->
  wf_fs (fs w) ->
  path_is_dir (fs w) (backup_dir cfg) = true ->
  path_exists (fs w) (backup_dir cfg ++ [dot_git]) = true ->
  path_ok (backup_dir cfg ++ [mapping_enc]) = true ->
  (forall w0, exists w1, Repo_open (backup_dir cfg) w0 = (Ok tt, w1) /\ fs w1 = fs w0) ->
  (forall w0, exists w1,
     Repo_commit_and_push (backup_dir cfg) w0 = (Ok tt, w1)
     /\ forall q, ~ (backup_dir cfg ++ [dot_git]) `prefix_of` q -> fs w1 !! q = fs w0 !! q) ->
  exists w' encs,
    backup get_matching_files Repo_open Repo_init Repo_commit_and_push cfg w = (Ok tt, w')
    /\ length encs = length rels
    /\ mirror_files (backup_dir cfg) (fs w')
       ≡ₚ (backup_dir cfg ++ [mapping_enc]) :: map (app (backup_dir cfg)) encs
    /\ (forall q, cleared (backup_dir cfg) q = true -> is_Some (fs w' !! q) ->
          exists enc, In enc ([mapping_enc] :: encs) /\ q `prefix_of` backup_dir cfg ++ enc)
    /\ (forall q, ~ backup_dir cfg `prefix_of` q -> fs w' !! q = fs w !! q).
Proof.
  set (b := backup_dir cfg).
  intros Hpw Hsel Hne Hnd Hok Hwf Hb Hgit Hmok Hopen Hpush.
  pose proof (BackupEncryptor_init_ok _ _ Hpw) as He.
  remember {| BackupEncryptor.key := PBKDF2HMAC.derive 32 salt 100000 pw |} as e eqn:Ee.
  remember {| BackupDecryptor.key := PBKDF2HMAC.derive 32 salt 100000 pw |} as d eqn:Ed.
  assert (Hkey : BackupDecryptor.key d = BackupEncryptor.key e).
  { rewrite Ee, Ed. cbn [BackupDecryptor.key BackupEncryptor.key]. exact eq_refl. }
  clear Ee Ed.
  destruct (backup_spec get_matching_files Repo_open Repo_init Repo_commit_and_push
              cfg e d rels w He Hkey Hsel Hne Hnd Hok Hwf Hb Hgit Hmok Hopen Hpush)
    as (w' & encs & text & iv & Hrun & Hdec & _ & HndL & Hb' & Hm' & Hpre & Hcl & _
        & _ & _ & _ & Hout & _).
  fold b in Hb', Hm', Hcl, Hout.
  exists w', encs. split; [done|]. split; [by apply (Forall2_length _ _ _ Hdec)|].
  split; [|split].
  - rewrite (mirror_files_perm b (fs w') _ Hm' Hpre Hcl HndL), map_app. cbn [map].
    by rewrite <- Permutation_cons_append.
  - intros q Hq [x Hx]. specialize (Hm' q Hq). rewrite Hx in Hm'.
    assert (Hswap : forall enc, In enc (encs ++ [[mapping_enc]]) -> In enc ([mapping_enc] :: encs)).
    { intros enc [?|[<-|[]]]%in_app_iff; [by right | by left]. }
    destruct x as [c|].
    + destruct Hm' as (enc & Hin & ->). exists enc. split; [by apply Hswap | done].
    + destruct Hm' as (enc & Hin & Hp & _). exists enc. split; [by apply Hswap | done].
  - intros q Hq. destruct (not_git_prefix b q q) as [Hc Hg]; [done | done |]. by apply Hout.
Qed.

End Backup_replaces.

Section Restore_without_mapping.
Variable clone_or_pull : config -> M unit.

(** X3. When the backup directory holds no mapping after the git sync,
    a restore prints that the mapping file was not found and exits with
    status 1; it has written nothing. *)
Theorem X3_restore_without_mapping (cfg : config) (d : BackupDecryptor.t) (w w1 : world) :
  BackupDecryptor.__init__ (password cfg) = Ok d ->
  clone_or_pull cfg
    (printed w [ banner; str_of_string "Git-Backup-Enc: Starting restore process"; banner;
                 10 :: str_of_string "Syncing with git repository..." ])
  = (Ok tt, w1) ->
  Path_exists (fs w1) (backup_dir cfg ++ [mapping_enc]) = Ok false ->
  exists w',
    restore clone_or_pull cfg w = (Err (SystemExit 1), w')
    /\ fs w' = fs w1
    /\ stdout w' = stdout w1
         ++ [str_of_string "Error: Mapping file not found in backup directory"].
Proof.
  intros Hd Hsync Hmiss. eexists. split; [|split].
  - unfold restore. rewrite !bind_print, Hd, bind_lift_Ok, bind_print, !printed_printed.
    cbn [app]. unfold bind at 1. rewrite Hsync. unfold restore_mirror.
    rewrite bind_with_fs, Hmiss. cbn [negb]. rewrite bind_print. reflexivity.
  - reflexivity.
  - reflexivity.
Qed.

End Restore_without_mapping.

(** X4. A restore removes nothing: an entry that was there before and
    is not the destination of a file that the run restores is there
    afterwards, unchanged; the restore directory is a directory
    afterwards, and no random bytes are drawn. *)
Theorem X4_restore_keeps_other_entries (cfg : config) (d : BackupDecryptor.t) (w : world)
    (blob data : bytes) (text : str) (items : list (str * json)) :
  path_ok (backup_dir cfg ++ [mapping_enc]) = true ->
  read_at (fs w) (backup_dir cfg ++ [mapping_enc]) = Ok blob ->
  BackupDecryptor.decrypt_data d blob = Ok data ->
  bytes_decode_utf8 data = Ok text ->
  json_loads text = Ok (JObject items) ->
  items <> [] ->
  forallb (restorable d (backup_dir cfg) (restore_dir cfg) (fs w)) items = true ->
  incomparable (entry_dsts (restore_dir cfg) items) = true ->
  exists w',
    restore_mirror cfg d w = (Ok tt, w')
    /\ (forall q, is_Some (fs w !! q) ->
          (forall kv s, In kv items -> present (backup_dir cfg) (fs w) kv = true ->
                        kv.2 = JString s -> q <> entry_dst (restore_dir cfg) s) ->
          fs w' !! q = fs w !! q)
    /\ path_is_dir (fs w') (restore_dir cfg) = true
    /\ consumed w' = consumed w /\ entropy w' = entropy w.
Proof.
  set (b := backup_dir cfg). set (r := restore_dir cfg).
  intros Hmok Hread Hdec Hutf Hjson Hne Hall Hinc.
  destruct items as [|kv0 rest] eqn:Eitems; [done|]. rewrite <- Eitems in *.
  assert (Hin0 : In kv0 items) by (rewrite Eitems; by left).
  pose proof (proj1 (forallb_forall _ _) Hall kv0 Hin0)
    as (s & _ & _ & Hrel & Hps & Hout & Hw & _)%restorable_spec.
  rewrite entry_dst_relative in Hout, Hw by done.
  assert (Hrok : path_ok r = true).
  { apply writable_spec in Hw as (_ & _ & _ & Hok0). by apply path_ok_app_l in Hok0. }
  destruct (restore_mirror_spec cfg d w blob data text items Hmok Hrok Hread Hdec Hutf Hjson)
    as (w' & Hrun & _ & Hc & He & _ & _ & Hkeep & _ & Hdir); try done.
  - apply writable_spec in Hw as (_ & Hp & _). intros q c Hq. apply Hp.
    by apply prefix_removelast_app.
  - intros Hp. apply Hout. by apply prefix_app_r.
  - by exists w'.
Qed.

Lemma restore_files_app d b r (pre post : list (str * json)) : forall n w,
  restore_files d b r (pre ++ post) n w
  = match restore_files d b r pre n w with
    | (Ok n', w') => restore_files d b r post n' w'
    | (Err ex, w') => (Err ex, w')
    end.
Proof.
  induction pre as [|[k v] pre IH]; intros n w; [done|].
  cbn [app restore_files]. unfold bind, lift, with_fs, print. cbv beta.
  destruct v; try done.
  destruct (Path_exists (fs w) _) as [[|]|]; cbn [negb]; [|apply IH|done].
  destruct (decrypt_file d _ _ w) as [[[]|ex] w1]; [apply IH | done].
Qed.

(** X5. The loop of [restore] stops at the first entry whose encrypted
    file is there and does not decrypt: the error of the decryption is
    raised, the entries before it have been restored and reported, and
    nothing has been written or made for the failing entry or for the
    entries after it. *)
Theorem X5_restore_stops_at_failure (d : BackupDecryptor.t) (b r : path)
    (pre post : list (str * json)) (k s : str) (n : nat) (w : world) (ex : exn) :
  path_is_dir (fs w) b = true ->
  forallb (restorable d b r (fs w)) pre = true ->
  incomparable (entry_dsts r pre) = true ->
  absolute (PurePath_of_str k) = false ->
  path_ok (entry_src b k) = true ->
  present b (fs w) (k, JString s) = true ->
  plaintext d b (fs w) (k, JString s) = Err ex ->
  exists w',
    restore_files d b r (pre ++ (k, JString s) :: post) n w = (Err ex, w')
    /\ stdout w' = stdout w ++ map (restore_line b (fs w)) pre
    /\ (forall kv, In kv pre -> present b (fs w) kv = true ->
          exists s' data, kv.2 = JString s' /\ plaintext d b (fs w) kv = Ok data
                          /\ fs w' !! entry_dst r s' = Some (File data))
    /\ (forall q,
          (forall kv s', In kv pre -> present b (fs w) kv = true -> kv.2 = JString s' ->
                         ~ q `prefix_of` entry_dst r s') ->
          fs w' !! q = fs w !! q).
Proof.
  intros Hb Hall Hinc Hk Hkok Hp Hplain.
  destruct (restore_files_spec d b r pre n w Hb Hall Hinc)
    as (w' & Hrun & Hsame & Hout & _ & _ & Hfiles & _ & Hfar & _).
  exists w'. split; [|done].
  rewrite restore_files_app, Hrun. cbn [restore_files].
  rewrite bind_lift_Ok, bind_with_fs. cbn beta iota. fold (entry_src b k).
  rewrite Path_exists_at by done.
  change (path_exists (fs w') (entry_src b k)) with (present b (fs w') (k, JString s)).
  rewrite (same_mirror_present b (fs w) (fs w')), Hp by done. cbn [negb].
  rewrite <- (same_mirror_plaintext d b (fs w) (fs w')) in Hplain by done.
  unfold plaintext in Hplain. cbn [fst] in Hplain.
  unfold bind at 1. unfold decrypt_file. rewrite bind_with_fs, read_bytes_at by done.
  destruct (read_at (fs w') (entry_src b k)) as [blob|ex'] eqn:Hread.
  - cbn [rbind] in Hplain. by rewrite Hplain, bind_lift_Err.
  - cbn [rbind] in Hplain. by injection Hplain as ->.
Qed.

(** X6. A file goes through [encrypt_file] and [decrypt_file] unharmed:
    the encrypted file is 16 bytes of initialization vector and the
    padded contents, and what [decrypt_file] writes at the destination,
    making its directories, is what [encrypt_file] read; 16 random
    bytes are drawn in all. *)
Theorem X6_decrypt_file_encrypt_file (e : BackupEncryptor.t) (d : BackupDecryptor.t)
    (src mid dst : path) (w : world) (data : bytes) :
  length (BackupEncryptor.key e) = 32%nat ->
  BackupDecryptor.key d = BackupEncryptor.key e ->
  path_ok src = true -> path_ok mid = true ->
  read_at (fs w) src = Ok data ->
  mid <> [] -> traverse (fs w) mid = Ok tt -> fs w !! mid <> Some Dir ->
  writable (fs w) dst = true -> ~ mid `prefix_of` dst ->
  exists w1 w2 blob,
    encrypt_file e src mid w = (Ok tt, w1)
    /\ read_at (fs w1) mid = Ok blob
    /\ length blob = (16 + 16 * (length data / 16 + 1))%nat
    /\ decrypt_file d mid dst w1 = (Ok tt, w2)
    /\ read_at (fs w2) dst = Ok data
    /\ consumed w2 = (consumed w + 16)%nat.
Proof.
  intros Hk Hd Hsok Hmok Hsrc Hmid Htr Hnd Hw Hnp.
  set (iv := next_random w 16).
  set (blob := iv ++ ciphertext (BackupEncryptor.key e) iv data).
  pose proof (encrypt_file_ok e src mid w data Hk Hsok Hmok Hsrc Hmid Htr Hnd) as Henc.
  fold iv blob in Henc.
  set (w1 := with_files (consume w 16) (<[mid := File blob]> (fs w))) in Henc.
  assert (Hread1 : read_at (fs w1) mid = Ok blob).
  { apply read_at_ok; [|done|apply lookup_insert_eq].
    rewrite <- Htr. apply traverse_ext. intros q Hq0 Hq. cbn [fs w1 with_files].
    apply lookup_insert_ne. intros ->. revert Hq. by apply not_prefix_removelast_self. }
  assert (Hdec : BackupDecryptor.decrypt_data d blob = Ok data).
  { unfold blob. rewrite <- Hd. apply decrypt_data_ciphertext; [by rewrite Hd|].
    apply length_next_random. }
  assert (Hw1 : writable (fs w1) dst = true) by (by apply insert_writable).
  destruct (decrypt_file_ok d mid dst w1 blob data Hmok Hread1 Hdec Hw1)
    as (m1 & Hrun & _ & _ & Hdirs).
  exists w1, (with_files w1 (<[dst := File data]> m1)), blob.
  split; [done|]. split; [done|]. split.
  { unfold blob. rewrite length_app, length_ciphertext. unfold iv.
    by rewrite length_next_random. }
  split; [done|]. split; [|done].
  cbn [fs with_files]. apply writable_spec in Hw as (Hne & _).
  apply read_at_ok; [|done|apply lookup_insert_eq].
  apply traverse_spec. intros q Hq0 Hq. rewrite lookup_insert_ne; [by apply Hdirs|].
  intros ->. revert Hq. by apply not_prefix_removelast_self.
Qed.

(** X7. The mapping goes through [save_mapping] and the reading of
    [restore] unharmed: what is read back from [mapping.enc] is the
    dictionary that was saved, entry by entry and in the same order. *)
Theorem X7_read_mapping_save_mapping (e : BackupEncryptor.t) (d : BackupDecryptor.t)
    (b : path) (mapping : list (str * str)) (w : world) :
  length (BackupEncryptor.key e) = 32%nat ->
  BackupDecryptor.key d = BackupEncryptor.key e ->
  path_ok (b ++ [mapping_enc]) = true ->
  path_is_dir (fs w) b = true ->
  fs w !! (b ++ [mapping_enc]) <> Some Dir ->
  NoDup mapping.*1 ->
  Forall (fun kv => Forall (fun c => is_scalar c = true) kv.1
                    /\ Forall (fun c => is_scalar c = true) kv.2) mapping ->
  exists w' blob,
    save_mapping e b mapping w = (Ok tt, w')
    /\ read_at (fs w') (b ++ [mapping_enc]) = Ok blob
    /\ read_mapping d blob
       = Ok (JObject (map (fun kv : str * str => (kv.1, JString kv.2)) mapping)).
Proof.
  intros Hk Hd Hmok Hb Hnd Hkeys Hsc.
  destruct (save_mapping_ok e b mapping w Hk Hmok Hb Hnd) as (data & Henc & Hrun).
  eexists _, _. split; [exact Hrun|]. cbn [fs with_files]. split.
  - apply read_at_ok; [|by destruct b|apply lookup_insert_eq].
    apply traverse_spec. rewrite removelast_last. intros q Hq0 Hq.
    rewrite lookup_insert_ne; [by apply (proj1 (path_is_dir_spec _ _) Hb)|].
    intros <-. by apply (app_not_prefix b [mapping_enc]) in Hq.
  - unfold read_mapping. rewrite <- Hd.
    rewrite decrypt_data_ciphertext; [|by rewrite Hd|apply length_next_random].
    cbn [rbind]. rewrite (decode_encode_utf8 _ _ Henc). cbn [rbind].
    rewrite json_loads_dumps by done. by rewrite members_read_fresh.
Qed.

(** X8. An encrypted name is one path component: it is not empty, it
    has no [/] and is not [.], and it is neither [.git] nor
    [mapping.enc], so that an encrypted file never collides with the
    repository or with the mapping. Its length is fixed by the length
    of the UTF-8 name: four characters for every three bytes, rounded
    up, of 32 bytes plus 16 for every 16 bytes of the name. *)
Theorem X8_encrypt_filename_shape (e : BackupEncryptor.t) (filename : str) (name : bytes)
    (w : world) :
  length (BackupEncryptor.key e) = 32%nat ->
  str_encode_utf8 filename = Ok name ->
  exists enc w',
    BackupEncryptor.encrypt_filename e filename w = (Ok enc, w')
    /\ length enc = (((32 + 16 * (length name / 16)) * 4 + 2) / 3)%nat
    /\ plain_name enc = true
    /\ enc <> dot_git /\ enc <> mapping_enc
    /\ fs w' = fs w /\ consumed w' = (consumed w + 16)%nat.
Proof.
  intros Hk Hname. eexists _, _. split; [by apply encrypt_filename_eq|].
  pose proof (encrypted_name_urlsafe (BackupEncryptor.key e) (next_random w 16) name) as Hu.
  split.
  - apply encrypted_name_length, length_next_random.
  - split; [by apply urlsafe_name_plain|].
    split; [by apply urlsafe_name_not_dot_git|].
    split; [by apply urlsafe_name_not_mapping_enc | done].
Qed.

(** X9. Decrypting a well-formed blob, of 16 bytes and then whole
    blocks, has two outcomes only: the padding is rejected, or data
    comes out that is shorter than the blob by 17 to 32 bytes. A blob
    of exactly 16 bytes is always rejected. *)
Theorem X9_decrypt_data_outcome (self : BackupDecryptor.t) (blob : bytes) :
  length (BackupDecryptor.key self) = 32%nat ->
  (16 <= length blob)%nat -> ((length blob - 16) mod 16 = 0)%nat ->
  (exists data,
     BackupDecryptor.decrypt_data self blob = Ok data
     /\ (length blob - 32 <= length data < length blob - 16)%nat)
  \/ BackupDecryptor.decrypt_data self blob = Err ValueError_InvalidPadding.
Proof. intros Hk Hge Hm. by apply decrypt_data_outcome. Qed.

(** ** A backup that fails on the way *)

Lemma utf8_encode_char_scalar c :
  utf8_encode_char c = if is_scalar c then utf8_encode_char c else Err UnicodeEncodeError.
Proof.
  destruct (is_scalar c) eqn:E; [done|]. unfold utf8_encode_char.
  unfold is_scalar in E. apply andb_false_iff in E as [E|E].
  - apply N.ltb_ge in E.
    destruct (N.ltb_spec c 128); [lia|]. destruct (N.ltb_spec c 2048); [lia|].
    destruct (N.ltb_spec c 65536); [lia|]. destruct (N.ltb_spec c 1114112); [lia | done].
  - apply negb_false_iff in E. pose proof E as E'. unfold is_surrogate in E'.
    apply andb_true_iff in E' as [H1%N.leb_le H2%N.leb_le].
    destruct (N.ltb_spec c 128); [lia|]. destruct (N.ltb_spec c 2048); [lia|].
    destruct (N.ltb_spec c 65536); [by rewrite E | lia].
Qed.

Lemma encode_utf8_not_scalar (s : str) :
  forallb is_scalar s = false -> str_encode_utf8 s = Err UnicodeEncodeError.
Proof.
  induction s as [|c s IH]; [done|]. cbn [forallb str_encode_utf8].
  destruct (is_scalar c) eqn:E.
  - cbn [andb]. intros H.
    destruct (encode_utf8_scalar [c]) as [bs Hbs]; [by repeat constructor|].
    cbn [str_encode_utf8] in Hbs. destruct (utf8_encode_char c); [|done].
    cbn [rbind]. by rewrite IH.
  - intros _. by rewrite utf8_encode_char_scalar, E.
Qed.

Lemma mapM_encrypt_filename_raises (e : BackupEncryptor.t) : forall comps w,
  length (BackupEncryptor.key e) = 32%nat ->
  forallb (forallb is_scalar) comps = false ->
  exists w',
    mapM (BackupEncryptor.encrypt_filename e) comps w = (Err UnicodeEncodeError, w')
    /\ fs w' = fs w /\ stdout w' = stdout w.
Proof.
  induction comps as [|c comps IH]; intros w Hk Hbad; [done|].
  cbn [forallb] in Hbad. cbn [mapM]. unfold bind at 1.
  destruct (forallb is_scalar c) eqn:Hc.
  - cbn [andb] in Hbad.
    destruct (encode_utf8_scalar c) as [name Hname].
    { apply Forall_forall. intros x Hx%list_elem_of_In.
      by apply (proj1 (forallb_forall _ _) Hc). }
    rewrite (encrypt_filename_eq e c name w Hk Hname).
    destruct (IH (consume w 16) Hk Hbad) as (w' & Hrun & Hfs & Hout).
    exists w'. unfold bind at 1. by rewrite Hrun.
  - rewrite (encrypt_filename_raises e c UnicodeEncodeError w);
      [by exists w | by apply encode_utf8_not_scalar].
Qed.

Lemma process_files_app e b src (l1 l2 : list path) : forall mp w,
  process_files e b src (l1 ++ l2) mp w
  = match process_files e b src l1 mp w with
    | (Ok mp', w') => process_files e b src l2 mp' w'
    | (Err ex, w') => (Err ex, w')
    end.
Proof.
  induction l1 as [|f l1 IH]; intros mp w; [done|].
  cbn [app process_files]. unfold bind, lift, print. cbv beta.
  destruct (relative_to f src) as [rel|]; [|done].
  destruct (mapM _ _ w) as [[names|] w1]; [|done].
  destruct (modify_fs _ w1) as [[[]|] w2]; [|done].
  destruct (encrypt_file e f _ w2) as [[[]|] w3]; [|done].
  apply IH.
Qed.

Lemma encs_prefix_eq d (E rels : list path) :
  Forall2 (decrypts_to d) E rels -> incomparable rels = true ->
  forall x y, In x E -> In y E -> x `prefix_of` y -> x = y.
Proof.
  intros Hdec Hinc x y Hx Hy Hpre.
  destruct (Forall2_In_l _ _ _ _ Hdec Hx) as (rx & Hrx & Hdx).
  destruct (Forall2_In_l _ _ _ _ Hdec Hy) as (ry & Hry & Hdy).
  pose proof (decrypts_to_prefix d _ _ _ _ Hdx Hdy Hpre) as Hr.
  destruct (decide (rx = ry)) as [->|Hne].
  - destruct Hpre as [l ->]. apply decrypts_to_length in Hdx, Hdy.
    rewrite length_app in Hdy. destruct l; [by rewrite app_nil_r | cbn in Hdy; lia].
  - exfalso. pose proof (incomparable_map_In id rels) as Hcmp. rewrite map_id in Hcmp.
    by apply (Hcmp Hinc rx ry).
Qed.

Lemma encs_NoDup d (E rels : list path) :
  Forall2 (decrypts_to d) E rels -> NoDup rels -> NoDup E.
Proof.
  intros Hdec Hnd. induction Hdec as [|x r E rels Hx Hdec IH]; [constructor|].
  apply NoDup_cons in Hnd as [Hr Hnd]. constructor; [|by apply IH].
  intros Hin%list_elem_of_In. destruct (Forall2_In_l _ _ _ _ Hdec Hin) as (r' & Hr' & Hx').
  apply Hr, list_elem_of_In. replace r with r'; [done|].
  apply (anti_symm prefix); by eapply (decrypts_to_prefix d).
Qed.

Section Backup_fails.
Variable get_matching_files : config -> gmap path node -> result (list path).
Variables Repo_open Repo_init Repo_commit_and_push : path -> M unit.

(** A backup into an existing repository with some files selected:
    the mirror is cleared, and the transformation starts from there. *)
Lemma backup_reaches_transform (cfg : config) (e : BackupEncryptor.t) (files : list path)
    (w : world) :
  BackupEncryptor.__init__ (password cfg) = Ok e ->
  get_matching_files cfg (fs w) = Ok files -> files <> [] ->
  wf_fs (fs w) ->
  path_is_dir (fs w) (backup_dir cfg) = true ->
  path_exists (fs w) (backup_dir cfg ++ [dot_git]) = true ->
  (forall w0, exists w1, Repo_open (backup_dir cfg) w0 = (Ok tt, w1) /\ fs w1 = fs w0) ->
  exists w3,
    backup get_matching_files Repo_open Repo_init Repo_commit_and_push cfg w
    = transform_and_commit Repo_commit_and_push cfg e files w3
    /\ fs w3 = filter (fun kv : path * node => cleared (backup_dir cfg) kv.1 = false) (fs w).
Proof.
  set (b := backup_dir cfg).
  intros He Hsel Hne Hwf Hb Hgit Hopen.
  pose proof (path_exists_ok _ _ Hwf Hgit) as Hgok.
  unfold backup. rewrite !bind_print, He, bind_lift_Ok, bind_print, bind_with_fs.
  cbn [fs printed]. rewrite Hsel, bind_print.
  destruct files as [|f0 files0] eqn:Efiles; [done|]. rewrite <- Efiles. clear Hne.
  match goal with |- context [backup_files _ _ _ _ _ _ ?ww] => set (w0 := ww) end.
  destruct (Hopen w0) as (w1 & Hrun1 & Hfs1).
  assert (Hfs0 : fs w0 = fs w) by done.
  pose proof (init_repo_existing Repo_open Repo_init b w0 w1) as Hinit. rewrite Hfs0 in Hinit.
  specialize (Hinit Hgok Hb Hgit Hrun1).
  match type of Hinit with _ = (_, ?ww) => set (w2 := ww) in Hinit end.
  assert (Hfs2 : fs w2 = fs w) by (subst w2; cbn [fs printed]; congruence).
  destruct (clear_backup_directory_spec b w2) as (w3 & Hrun3 & Hfs3 & _);
    [by rewrite Hfs2 | by rewrite Hfs2 |].
  rewrite Hfs2 in Hfs3. exists w3. split; [|done].
  unfold backup_files. fold b. unfold bind at 1. rewrite Hinit.
  unfold bind at 1. by rewrite Hrun3.
Qed.

(** X10. A backup that meets a file name which cannot be encoded (a
    lone surrogate, as the file system gives for undecodable bytes)
    fails with [UnicodeEncodeError] when it comes to that file. By then
    the backup directory has been cleared and the files before it have
    been encrypted, but no mapping is written: the previous backup is
    gone and what is left cannot be restored. Nothing outside the
    backup directory has changed. *)
Theorem X10_backup_fails_on_name (cfg : config) (e : BackupEncryptor.t)
    (pre post : list path) (bad : path) (w : world) :
  BackupEncryptor.__init__ (password cfg) = Ok e ->
  get_matching_files cfg (fs w) = Ok (map (app (source_dir cfg)) (pre ++ bad :: post)) ->
  NoDup pre ->
  forallb (selectable (source_dir cfg) (backup_dir cfg) (fs w)) pre = true ->
  forallb (forallb is_scalar) bad = false ->
  wf_fs (fs w) ->
  path_is_dir (fs w) (backup_dir cfg) = true ->
  path_exists (fs w) (backup_dir cfg ++ [dot_git]) = true ->
  (forall w0, exists w1, Repo_open (backup_dir cfg) w0 = (Ok tt, w1) /\ fs w1 = fs w0) ->
  exists w',
    backup get_matching_files Repo_open Repo_init Repo_commit_and_push cfg w
    = (Err UnicodeEncodeError, w')
    /\ path_exists (fs w') (backup_dir cfg ++ [mapping_enc]) = false
    /\ length (mirror_files (backup_dir cfg) (fs w')) = length pre
    /\ (forall q, ~ backup_dir cfg `prefix_of` q -> fs w' !! q = fs w !! q).
Proof.
  set (b := backup_dir cfg). set (src := source_dir cfg).
  intros He Hsel Hnd Hok Hbad Hwf Hb Hgit Hopen.
  pose proof (BackupEncryptor_key_length _ _ He) as Hk.
  set (d := {| BackupDecryptor.key := BackupEncryptor.key e |}).
  destruct (backup_reaches_transform cfg e _ w He Hsel) as (w3 & -> & Hfs3); try done.
  { by destruct pre. }
  fold b in Hfs3.
  assert (Hin3 : forall q, cleared b q = true -> fs w3 !! q = None).
  { intros q Hq. by rewrite Hfs3, lookup_filter_cleared, Hq. }
  assert (Hout3 : forall q, cleared b q = false -> fs w3 !! q = fs w !! q).
  { intros q Hq. by rewrite Hfs3, lookup_filter_cleared, Hq. }
  assert (Hwf3 : wf_fs (fs w3)) by (rewrite Hfs3; by apply wf_fs_cleared).
  assert (Hroot : fs w3 !! [] = None).
  { destruct (fs w3 !! []) eqn:E; [|done]. by destruct (Hwf3 [] (mk_is_Some _ _ E)). }
  assert (Hok3 : forallb (selectable src b (fs w3)) pre = true).
  { apply forallb_forall. intros rel Hin.
    pose proof (proj1 (forallb_forall _ _) Hok rel Hin)
      as (H1 & H2 & H3 & H4 & H5 & H6)%selectable_spec.
    apply selectable_spec. by rewrite (read_at_outside b (fs w) (fs w3)). }
  assert (Hinc : incomparable pre = true).
  { apply (readable_incomparable src (fs w)); [done|]. intros rel Hin.
    by pose proof (proj1 (forallb_forall _ _) Hok rel Hin)
      as (_ & _ & ? & _)%selectable_spec. }
  destruct (process_files_spec e d Hk eq_refl b src (path_is_dir_ok _ _ Hwf Hb) pre
              (printed w3 [10 :: str_of_string "Encrypting and copying files..."]) [] [])
    as (w4 & E & Hrun & Hm4 & Hdec & Hgood & Hout4 & _ & Hcont & Hstd & _); try done.
  { cbn [fs printed]. by rewrite (path_is_dir_outside b (fs w) (fs w3)). }
  { intros q Hq. cbn [fs printed]. by rewrite Hin3. }
  cbn [fs printed app] in Hrun, Hm4, Hout4, Hcont.
  destruct (mapM_encrypt_filename_raises e bad w4 Hk Hbad) as (w5 & Hrun5 & Hfs5 & _).
  exists w5. split.
  { unfold transform_and_commit. fold b src. rewrite bind_print. unfold bind at 1.
    rewrite map_app, process_files_app.
    change (@nil (str * str)) with (mapping_of [] []). rewrite Hrun.
    cbn [map process_files]. unfold relative_to. rewrite strip_base_app. cbn [rbind].
    rewrite bind_lift_Ok. cbn [parts]. unfold bind at 1. by rewrite Hrun5. }
  rewrite Hfs5.
  assert (Hhead : forall enc, In enc E -> exists a rest,
            enc = a :: rest /\ urlsafe_name a = true).
  { intros enc Hin. rewrite List.Forall_forall in Hgood.
    destruct (Hgood enc Hin) as [Hne Hsafe]. destruct enc as [|a rest]; [done|].
    apply Forall_cons in Hsafe as [Ha _]. by exists a, rest. }
  assert (Hcm : cleared b (b ++ [mapping_enc]) = true).
  { apply cleared_spec. by exists mapping_enc, []. }
  assert (Hb4 : path_is_dir (fs w4) b = true).
  { rewrite (path_is_dir_outside b (fs w3)) by done.
    by rewrite (path_is_dir_outside b (fs w) (fs w3)). }
  assert (Hcl : forall enc, In enc E -> cleared b (b ++ enc) = true).
  { intros enc (a & rest & -> & Ha)%Hhead. apply cleared_spec. exists a, rest.
    split; [done | by apply urlsafe_name_not_dot_git]. }
  pose proof (encs_prefix_eq d E pre Hdec Hinc) as Hpre.
  pose proof (encs_NoDup d E pre Hdec Hnd) as HndE.
  split; [|split].
  - unfold path_exists. specialize (Hm4 _ Hcm).
    destruct (fs w4 !! (b ++ [mapping_enc])) as [[c|]|] eqn:Hmp.
    + destruct Hm4 as (enc & Hin & Heq%app_inv_head). subst enc.
      destruct (Hhead _ Hin) as (a & rest & [= <- <-] & Ha).
      by apply urlsafe_name_not_mapping_enc in Ha.
    + destruct Hm4 as (enc & Hin & Hp%prefix_app_inv & _).
      destruct (Hhead enc Hin) as (a & rest & -> & Ha).
      apply prefix_cons_inv_1 in Hp. subst a. by apply urlsafe_name_not_mapping_enc in Ha.
    + destruct (traverse (fs w4) (b ++ [mapping_enc])); [|done].
      unfold node_at. destruct (b ++ [mapping_enc]) eqn:Eb; [by destruct b|].
      by rewrite Hmp.
  - rewrite (mirror_files_perm b (fs w4) E Hm4 Hpre Hcl HndE), length_map.
    apply (Forall2_length _ _ _ Hdec).
  - intros q Hq. destruct (not_git_prefix b q q) as [Hc _]; [done | done |].
    rewrite Hout4 by done. by apply Hout3.
Qed.

End Backup_fails.

(** ** The further properties on the sample *)

Lemma X1_backup_then_restore_sample :
  exists w1 w2,
    backup sample_select git_noop git_noop git_noop sample_cfg sample_world = (Ok tt, w1)
    /\ restore sync_noop sample_cfg w1 = (Ok tt, w2)
    /\ read_at (fs w2) (restore_dir sample_cfg ++ sample_path ["notes"; "todo.txt"])
       = Ok (ascii_bytes "buy milk").
Proof.
  destruct (X1_backup_then_restore sample_select git_noop git_noop git_noop sync_noop
              sample_cfg (ascii_bytes "correct") sample_rels sample_world)
    as (w1 & w2 & H1 & H2 & H3 & _).
  - exact encode_correct.
  - reflexivity.
  - discriminate.
  - apply (bool_decide_unpack _). vm_compute. exact I.
  - vm_compute. reflexivity.
  - vm_compute. reflexivity.
  - apply wf_fsb_spec. vm_compute. reflexivity.
  - vm_compute. reflexivity.
  - vm_compute. reflexivity.
  - vm_compute. reflexivity.
  - intros w0. exists w0. split; reflexivity.
  - intros w0. exists w0. split; [reflexivity|]. intros q _. reflexivity.
  - intros w0. exists w0. split; [reflexivity|]. intros q _. reflexivity.
  - exists w1, w2. split; [exact H1|]. split; [exact H2|].
    apply (H3 (sample_path ["notes"; "todo.txt"])); [left; reflexivity|].
    vm_compute. reflexivity.
Defined.

Lemma X2_backup_replaces_mirror_sample :
  exists w' encs,
    backup sample_select git_noop git_noop git_noop sample_cfg sample_world_stale
    = (Ok tt, w')
    /\ length encs = 2%nat
    /\ mirror_files (backup_dir sample_cfg) (fs w')
       ≡ₚ (backup_dir sample_cfg ++ [mapping_enc]) :: map (app (backup_dir sample_cfg)) encs.
Proof.
  destruct (X2_backup_replaces_mirror sample_select git_noop git_noop git_noop
              sample_cfg (ascii_bytes "correct") sample_rels sample_world_stale)
    as (w' & encs & H1 & H2 & H3 & _).
  - exact encode_correct.
  - reflexivity.
  - discriminate.
  - apply (bool_decide_unpack _). vm_compute. exact I.
  - vm_compute. reflexivity.
  - apply wf_fsb_spec. vm_compute. reflexivity.
  - vm_compute. reflexivity.
  - vm_compute. reflexivity.
  - vm_compute. reflexivity.
  - intros w0. exists w0. split; reflexivity.
  - intros w0. exists w0. split; [reflexivity|]. intros q _. reflexivity.
  - exists w', encs. split; [exact H1|]. split; [exact H2 | exact H3].
Defined.

Lemma X3_restore_without_mapping_sample :
  exists w',
    restore sync_noop sample_cfg sample_world = (Err (SystemExit 1), w')
    /\ fs w' = sample_fs.
Proof.
  destruct (X3_restore_without_mapping sync_noop sample_cfg
              {| BackupDecryptor.key
                 := PBKDF2HMAC.derive 32 salt 100000 (ascii_bytes "correct") |}
              sample_world
              (printed sample_world
                 [ banner; str_of_string "Git-Backup-Enc: Starting restore process"; banner;
                   10 :: str_of_string "Syncing with git repository..." ]))
    as (w' & H1 & H2 & _).
  - exact (BackupDecryptor_init_ok _ _ encode_correct).
  - reflexivity.
  - vm_compute. reflexivity.
  - exists w'. split; [exact H1 | exact H2].
Defined.

Lemma X4_restore_keeps_other_entries_sample :
  exists w',
    restore_mirror sample_cfg sample_decryptor sample_mirror_world = (Ok tt, w')
    /\ fs w' !! sample_path ["home"; "readme"] = Some (File (ascii_bytes "hello"))
    /\ path_is_dir (fs w') (restore_dir sample_cfg) = true.
Proof.
  let r := eval vm_compute in
    (read_at sample_mirror_fs (backup_dir sample_cfg ++ [mapping_enc])) in
  match r with
  | Ok ?blob =>
      let g := eval vm_compute in (BackupDecryptor.decrypt_data sample_decryptor blob) in
      match g with
      | Ok ?data =>
          let t := eval vm_compute in (bytes_decode_utf8 data) in
          match t with
          | Ok ?text =>
              let j := eval vm_compute in (json_loads text) in
              match j with
              | Ok (JObject ?items) =>
                  destruct (X4_restore_keeps_other_entries sample_cfg sample_decryptor
                              sample_mirror_world blob data text items)
                    as (w' & H1 & H2 & H3 & _)
              end
          end
      end
  end.
  - vm_compute. reflexivity.
  - vm_compute. reflexivity.
  - vm_compute. reflexivity.
  - vm_compute. reflexivity.
  - vm_compute. reflexivity.
  - discriminate.
  - vm_compute. reflexivity.
  - vm_compute. reflexivity.
  - exists w'. split; [exact H1|]. split; [|exact H3].
    rewrite H2.
    + vm_compute. reflexivity.
    + vm_compute. eexists. reflexivity.
    + intros kv s [<-|[<-|[]]] _ Hs; cbn [snd] in Hs; injection Hs as <-;
        vm_compute; discriminate.
Defined.

Lemma X5_restore_stops_at_failure_sample :
  exists w',
    restore_files sample_decryptor (backup_dir sample_cfg) (restore_dir sample_cfg)
      [sample_stale_entry] 0 sample_world_stale
    = (Err ValueError_InvalidIVSize, w')
    /\ stdout w' = []
    /\ fs w' = sample_fs_stale.
Proof.
  destruct (X5_restore_stops_at_failure sample_decryptor (backup_dir sample_cfg)
              (restore_dir sample_cfg) [] [] (str_of_string "b2xk/ZmlsZQ")
              (str_of_string "file") 0 sample_world_stale ValueError_InvalidIVSize)
    as (w' & H1 & H2 & _ & H3).
  - vm_compute. reflexivity.
  - reflexivity.
  - reflexivity.
  - vm_compute. reflexivity.
  - vm_compute. reflexivity.
  - vm_compute. reflexivity.
  - vm_compute. reflexivity.
  - exists w'. split; [exact H1|]. split; [exact H2|].
    apply map_eq. intros q. apply H3. intros kv s' [].
Defined.

Lemma X6_decrypt_file_encrypt_file_sample :
  exists w1 w2,
    encrypt_file sample_encryptor (sample_path ["home"; "readme"])
      (sample_path ["mirror"; "readme.enc"]) sample_world = (Ok tt, w1)
    /\ decrypt_file sample_decryptor (sample_path ["mirror"; "readme.enc"])
         (sample_path ["restored"; "readme"]) w1 = (Ok tt, w2)
    /\ read_at (fs w2) (sample_path ["restored"; "readme"]) = Ok (ascii_bytes "hello").
Proof.
  destruct (X6_decrypt_file_encrypt_file sample_encryptor sample_decryptor
              (sample_path ["home"; "readme"]) (sample_path ["mirror"; "readme.enc"])
              (sample_path ["restored"; "readme"]) sample_world (ascii_bytes "hello"))
    as (w1 & w2 & blob & H1 & _ & _ & H2 & H3 & _).
  - reflexivity.
  - reflexivity.
  - vm_compute. reflexivity.
  - vm_compute. reflexivity.
  - vm_compute. reflexivity.
  - discriminate.
  - vm_compute. reflexivity.
  - vm_compute. discriminate.
  - vm_compute. reflexivity.
  - apply (bool_decide_eq_false_1 _). vm_compute. reflexivity.
  - exists w1, w2. split; [exact H1|]. split; [exact H2 | exact H3].
Defined.

Lemma X7_read_mapping_save_mapping_sample :
  exists w' blob,
    save_mapping sample_encryptor (backup_dir sample_cfg)
      [(str_of_string "a", str_of_string "b")] sample_world = (Ok tt, w')
    /\ read_at (fs w') (backup_dir sample_cfg ++ [mapping_enc]) = Ok blob
    /\ read_mapping sample_decryptor blob
       = Ok (JObject [(str_of_string "a", JString (str_of_string "b"))]).
Proof.
  apply (X7_read_mapping_save_mapping sample_encryptor sample_decryptor
           (backup_dir sample_cfg) [(str_of_string "a", str_of_string "b")] sample_world).
  - reflexivity.
  - reflexivity.
  - vm_compute. reflexivity.
  - vm_compute. reflexivity.
  - vm_compute. discriminate.
  - apply (bool_decide_unpack _). vm_compute. exact I.
  - repeat constructor.
Defined.

Lemma X8_encrypt_filename_shape_sample :
  exists enc w',
    BackupEncryptor.encrypt_filename sample_encryptor (str_of_string "todo.txt") sample_world
    = (Ok enc, w')
    /\ length enc = 43%nat
    /\ plain_name enc = true.
Proof.
  destruct (X8_encrypt_filename_shape sample_encryptor (str_of_string "todo.txt")
              (ascii_bytes "todo.txt") sample_world)
    as (enc & w' & H1 & H2 & H3 & _).
  - reflexivity.
  - vm_compute. reflexivity.
  - exists enc, w'. split; [exact H1|]. split; [exact H2 | exact H3].
Defined.

Lemma X9_decrypt_data_outcome_sample :
  (exists data,
     BackupDecryptor.decrypt_data sample_decryptor
       (ascii_bytes "0123456789abcdef0123456789abcdef") = Ok data
     /\ (length (ascii_bytes "0123456789abcdef0123456789abcdef") - 32 <= length data
         < length (ascii_bytes "0123456789abcdef0123456789abcdef") - 16)%nat)
  \/ BackupDecryptor.decrypt_data sample_decryptor
       (ascii_bytes "0123456789abcdef0123456789abcdef") = Err ValueError_InvalidPadding.
Proof.
  apply X9_decrypt_data_outcome.
  - reflexivity.
  - apply Nat.leb_le. reflexivity.
  - reflexivity.
Defined.

Lemma X10_backup_fails_on_name_sample :
  exists w',
    backup sample_select_bad git_noop git_noop git_noop sample_cfg sample_world_stale
    = (Err UnicodeEncodeError, w')
    /\ path_exists (fs w') (backup_dir sample_cfg ++ [mapping_enc]) = false
    /\ length (mirror_files (backup_dir sample_cfg) (fs w')) = 1%nat.
Proof.
  destruct (X10_backup_fails_on_name sample_select_bad git_noop git_noop git_noop
              sample_cfg
              {| BackupEncryptor.key
                 := PBKDF2HMAC.derive 32 salt 100000 (ascii_bytes "correct") |}
              [sample_path ["readme"]] [] [sample_bad_name] sample_world_stale)
    as (w' & H1 & H2 & H3 & _).
  - exact (BackupEncryptor_init_ok _ _ encode_correct).
  - reflexivity.
  - apply (bool_decide_unpack _). vm_compute. exact I.
  - vm_compute. reflexivity.
  - vm_compute. reflexivity.
  - apply wf_fsb_spec. vm_compute. reflexivity.
  - vm_compute. reflexivity.
  - vm_compute. reflexivity.
  - intros w0. exists w0. split; reflexivity.
  - exists w'. split; [exact H1|]. split; [exact H2 | exact H3].
Defined.
